(** * eth-encrypt: a shallow embedding of the encryption core

    The development follows the layout of the repository:
    - [Config]    : src/utils/config.js
    - [JsString], [Buffer] : the JavaScript string and Buffer primitives the
                    sources call (replace, substring, Buffer.from, slice, ...)
    - [Aes256], [Crypto] : Node's [crypto.createCipheriv('aes-256-ctr', ...)]
    - [Fs], [Stream] : Node's synchronous file primitives and stream pipes
    - [FsUtils]   : src/utils/fs-utils.js
    - [Index]     : src/index.js
    - [Cli]       : src/cli.js (the two actions and their dispatch)

    Definitions come first; the lemmas about them follow. *)

From Stdlib Require Import String Ascii List NArith ZArith Bool Lia.
From Stdlib.Strings Require Import Byte.
From Stdlib Require Import DecimalNat.
Import ListNotations.

(** ** Exceptions and results *)

(** The exceptions the modelled code and its library calls can raise. *)
Inductive js_error : Type :=
| TypeError (msg : string)
| Error (msg : string)
| ERR_CRYPTO_UNKNOWN_CIPHER
| ERR_CRYPTO_INVALID_IV
| ERR_CRYPTO_INVALID_KEYLEN
| ERR_CRYPTO_UNSUPPORTED_STATE
| ENOENT (path : string)
| EISDIR
| EBADF
| ENOTDIR
| ERR_OUT_OF_RANGE
| RangeError (msg : string).

Inductive result (A : Type) : Type :=
| Ok (a : A)
| Throw (e : js_error).
Arguments Ok {A} a.
Arguments Throw {A} e.

Definition rbind {A B} (r : result A) (k : A -> result B) : result B :=
  match r with
  | Ok a => k a
  | Throw e => Throw e
  end.

Declare Scope result_scope.
Delimit Scope result_scope with res.
Notation "x <- r ;; k" := (rbind r (fun x => k))
  (at level 61, r at next level, right associativity) : result_scope.
Notation "' pat <- r ;; k" := (rbind r (fun x => match x with pat => k end))
  (at level 61, pat pattern, r at next level, right associativity)
  : result_scope.

(** ** src/utils/config.js *)
Module Config.
Definition FILE_EXTENSION : string := "eth.encrypted".
Definition DECRYPTED_FILE_EXTENSION : string := "eth.decrypted".
Definition ETH_ENCRYPT_MESSAGE : string :=
  "ETH Encrypt - sign to encrypt or decrypt: ".
Definition ENCRYPTION_ALGORITHM : string := "aes-256-ctr".
Definition ENCRYPTION_KEY_SIZE : Z := 32.
Definition ENCRYPTION_IV_SIZE : Z := 16.
End Config.

(** ** Bytes *)

Definition byte_of_N (n : N) : byte :=
  match Byte.of_N (n mod 256) with
  | Some b => b
  | None => x00
  end.

Definition byte_xor (a b : byte) : byte :=
  byte_of_N (N.lxor (Byte.to_N a) (Byte.to_N b)).

(** ** JavaScript strings (sequences of code units, here [ascii]) *)
Module JsString.

Fixpoint take (n : nat) (s : string) : string :=
  match n, s with
  | S n', String c s' => String c (take n' s')
  | _, _ => EmptyString
  end.

Fixpoint drop (n : nat) (s : string) : string :=
  match n, s with
  | S n', String _ s' => drop n' s'
  | _, _ => s
  end.

(** [s.replace(pat, repl)] with a string pattern: only the first
    occurrence of [pat], scanning from the left, is replaced.  [repl] is
    taken literally (the sources only pass the empty string). *)
Fixpoint replace (pat repl s : string) : string :=
  if String.prefix pat s then repl ++ drop (String.length pat) s
  else match s with
       | EmptyString => EmptyString
       | String c s' => String c (replace pat repl s')
       end.

(** An index argument of [substring] is clamped into [0, length]. *)
Definition clamp (len : nat) (i : Z) : nat :=
  if (i <? 0)%Z then 0 else Nat.min (Z.to_nat i) len.

(** [s.substring(a, b)]: both ends clamped, swapped when [a > b]. *)
Definition substring (s : string) (a b : Z) : string :=
  let a' := clamp (String.length s) a in
  let b' := clamp (String.length s) b in
  let lo := Nat.min a' b' in
  let hi := Nat.max a' b' in
  take (hi - lo) (drop lo s).

(** Truthiness of a string: every string but the empty one. *)
Definition truthy (s : string) : bool :=
  match s with
  | EmptyString => false
  | String _ _ => true
  end.

(** [s.endsWith(suffix)]. *)
Definition endsWith (s suffix : string) : bool :=
  let n := String.length s in
  let m := String.length suffix in
  Nat.leb m n && String.eqb (drop (n - m) s) suffix.

End JsString.

(** ** Node Buffers, as lists of bytes *)
Module Buffer.

Definition t := list byte.

(** Value of one hexadecimal digit, as Node's [unhex] table. *)
Definition unhex (c : ascii) : option N :=
  let n := N_of_ascii c in
  if ((48 <=? n) && (n <=? 57))%N then Some (n - 48)%N
  else if ((97 <=? n) && (n <=? 102))%N then Some (n - 87)%N
  else if ((65 <=? n) && (n <=? 70))%N then Some (n - 55)%N
  else None.

(** [Buffer.from(s, 'hex')]: the characters are decoded two at a time;
    decoding stops at the first pair that holds a character which is not
    a hexadecimal digit, and a trailing unpaired character is dropped. *)
Fixpoint from_hex (s : string) : t :=
  match s with
  | String a (String b rest) =>
      match unhex a, unhex b with
      | Some h, Some l => byte_of_N (h * 16 + l) :: from_hex rest
      | _, _ => []
      end
  | _ => []
  end.

(** What the sources pass as first argument of [Buffer.from(_, 'hex')]:
    a string, or (in [decryptBytes]) a Buffer. *)
Inductive source : Type :=
| Str (s : string)
| Buf (b : t).

(** [Buffer.from(v, 'hex')]: a Buffer argument is copied and the encoding
    is ignored. *)
Definition from (v : source) : t :=
  match v with
  | Str s => from_hex s
  | Buf b => b
  end.

Definition hex_digit (n : N) : ascii :=
  if (n <? 10)%N then ascii_of_N (48 + n) else ascii_of_N (87 + n).

(** [buf.toString('hex')]: two lower-case digits per byte. *)
Fixpoint toString_hex (b : t) : string :=
  match b with
  | [] => EmptyString
  | x :: b' =>
      String (hex_digit (Byte.to_N x / 16))
        (String (hex_digit (Byte.to_N x mod 16)) (toString_hex b'))
  end.

(** An index argument of [slice]: negative values count from the end,
    and the result is clamped into [0, length]. *)
Definition slice_index (len : nat) (i : Z) : nat :=
  if (i <? 0)%Z then Z.to_nat (Z.max (Z.of_nat len + i) 0)
  else Nat.min (Z.to_nat i) len.

(** [buf.slice(start, end)]. *)
Definition slice (b : t) (start stop : Z) : t :=
  let s := slice_index (length b) start in
  let e := slice_index (length b) stop in
  firstn (e - s) (skipn s b).

(** [buf.slice(start)]: the end defaults to the length. *)
Definition slice_from (b : t) (start : Z) : t :=
  slice b start (Z.of_nat (length b)).

(** [Buffer.alloc(n)]: [n] zero bytes. *)
Definition alloc (n : nat) : t := repeat x00 n.

(** [Buffer.concat(list)]. *)
Definition concat (bs : list t) : t := List.concat bs.

End Buffer.

(** ** AES-256 (FIPS-197), the block cipher behind ['aes-256-ctr']

    The sources reach it through [crypto.createCipheriv]; it is written
    out on numbers below 256 so that the model of the cipher computes. *)
Module Aes256.

(** Multiplication by x in GF(2^8) modulo x^8 + x^4 + x^3 + x + 1. *)
Definition xtime (a : N) : N :=
  let d := N.land (N.shiftl a 1) 255 in
  if N.testbit a 7 then N.lxor d 27 else d.

Fixpoint gmul_bits (n : nat) (a b : N) : N :=
  match n with
  | O => 0
  | S n' =>
      N.lxor (if N.testbit b 0 then a else 0)
             (gmul_bits n' (xtime a) (N.shiftr b 1))
  end.

Definition gmul : N -> N -> N := gmul_bits 8.

Fixpoint gpow (a : N) (n : nat) : N :=
  match n with
  | O => 1
  | S n' => gmul a (gpow a n')
  end.

Definition rotl8 (a k : N) : N :=
  N.land (N.lor (N.shiftl a k) (N.shiftr a (8 - k))) 255.

(** The S-box: inversion in the field (a^254) followed by the affine map. *)
Definition sbox_of (a : N) : N :=
  let s := gpow a 254 in
  fold_left N.lxor [rotl8 s 1; rotl8 s 2; rotl8 s 3; rotl8 s 4; 99%N] s.

Definition sbox_table : list N :=
  Eval vm_compute in map (fun i => sbox_of (N.of_nat i)) (seq 0 256).

Definition sbox (a : N) : N := nth (N.to_nat a) sbox_table 0%N.

Definition xor_list (a b : list N) : list N :=
  map (fun p => N.lxor (fst p) (snd p)) (combine a b).

(** Cuts a list into groups of four (words of the key schedule, columns
    of the state, the four words of a round key). *)
Fixpoint group4 {A} (l : list A) : list (list A) :=
  match l with
  | a :: b :: c :: d :: rest => [a; b; c; d] :: group4 rest
  | _ => []
  end.

Definition rot_word (w : list N) : list N :=
  match w with
  | a :: r => r ++ [a]
  | [] => []
  end.

Definition rcon (i : nat) : list N := [gpow 2 (i - 1); 0; 0; 0]%N.

(** Key expansion for Nk = 8: words 8 .. 59 from the eight key words. *)
Fixpoint expand (n i : nat) (ws : list (list N)) : list (list N) :=
  match n with
  | O => ws
  | S n' =>
      let prev := nth (i - 1) ws [] in
      let temp :=
        if Nat.eqb (i mod 8) 0
        then xor_list (map sbox (rot_word prev)) (rcon (i / 8))
        else if Nat.eqb (i mod 8) 4 then map sbox prev
        else prev in
      expand n' (S i) (ws ++ [xor_list (nth (i - 8) ws []) temp])
  end.

(** The fifteen round keys, sixteen bytes each. *)
Definition round_keys (key : list N) : list (list N) :=
  map (@List.concat N) (group4 (expand 52 8 (group4 key))).

(** The state is kept in input order, that is column by column. *)
Definition shift_rows (s : list N) : list N :=
  map (fun i => nth (i mod 4 + 4 * ((i / 4 + i mod 4) mod 4)) s 0%N)
      (seq 0 16).

Definition mix_column (c : list N) : list N :=
  match c with
  | [a0; a1; a2; a3] =>
      [ fold_left N.lxor [gmul 3 a1; a2; a3] (gmul 2 a0);
        fold_left N.lxor [gmul 2 a1; gmul 3 a2; a3] a0;
        fold_left N.lxor [a1; gmul 2 a2; gmul 3 a3] a0;
        fold_left N.lxor [a1; a2; gmul 2 a3] (gmul 3 a0) ]
  | _ => c
  end.

Definition mix_columns (s : list N) : list N :=
  flat_map mix_column (group4 s).

Definition round (s rk : list N) : list N :=
  xor_list (mix_columns (shift_rows (map sbox s))) rk.

Definition final_round (s rk : list N) : list N :=
  xor_list (shift_rows (map sbox s)) rk.

Definition cipher (rks : list (list N)) (block : list N) : list N :=
  match rks with
  | [] => block
  | rk0 :: rest =>
      final_round (fold_left round (removelast rest) (xor_list block rk0))
                  (last rest [])
  end.

Definition encrypt_block (rks : list (list N)) (block : list byte)
  : list byte :=
  map byte_of_N (cipher rks (map Byte.to_N block)).

End Aes256.

(** ** Node's [crypto] cipher objects for ['aes-256-ctr'] *)
Module Crypto.

(** A cipher object in counter mode: the expanded key, the counter block,
    the current keystream block and the number of its bytes already
    used; [finalized] is set by [final]. *)
Record Cipher : Type := mkCipher {
  rks : list (list N);
  ivec : list byte;
  ecount_buf : list byte;
  num : nat;
  finalized : bool
}.

Definition be_to_N (bs : list byte) : N :=
  fold_left (fun acc b => (acc * 256 + Byte.to_N b)%N) bs 0%N.

Fixpoint be_of_N (len : nat) (n : N) : list byte :=
  match len with
  | O => []
  | S len' => be_of_N len' (n / 256) ++ [byte_of_N n]
  end.

(** The counter is a 128-bit big-endian number that wraps around. *)
Definition ctr128_inc (c : list byte) : list byte :=
  be_of_N 16 (be_to_N c + 1).

(** One byte of counter mode.  When the keystream block is used up, the
    counter block is encrypted into it and the counter is incremented. *)
Definition refill (c : Cipher) : Cipher :=
  if Nat.eqb (num c) 0
  then mkCipher (rks c) (ctr128_inc (ivec c))
                (Aes256.encrypt_block (rks c) (ivec c)) 0 (finalized c)
  else c.

(** The keystream byte the next input byte is XORed with. *)
Definition keystream_byte (c : Cipher) : byte :=
  let c1 := refill c in nth (num c1) (ecount_buf c1) x00.

(** The state once that keystream byte is used. *)
Definition next (c : Cipher) : Cipher :=
  let c1 := refill c in
  mkCipher (rks c1) (ivec c1) (ecount_buf c1) (S (num c1) mod 16)
           (finalized c1).

Definition step (c : Cipher) (b : byte) : Cipher * byte :=
  (next c, byte_xor b (keystream_byte c)).

Fixpoint ctr128_encrypt (c : Cipher) (data : Buffer.t)
  : Cipher * Buffer.t :=
  match data with
  | [] => (c, [])
  | b :: data' =>
      let (c1, o) := step c b in
      let (c2, os) := ctr128_encrypt c1 data' in
      (c2, o :: os)
  end.

(** A fresh cipher object: the key is expanded, the counter block is the
    IV and no keystream is buffered. *)
Definition init (key iv : Buffer.t) : Cipher :=
  mkCipher (Aes256.round_keys (map Byte.to_N key)) iv [] 0 false.

(** [crypto.createCipheriv(algorithm, key, iv)]: the IV must be one block
    and the key 32 bytes, otherwise the call throws.  Only the algorithm
    of [Config] is modelled. *)
Definition createCipheriv (algorithm : string) (key iv : Buffer.t)
  : result Cipher :=
  if negb (String.eqb algorithm "aes-256-ctr")
  then Throw ERR_CRYPTO_UNKNOWN_CIPHER
  else if negb (Nat.eqb (length iv) 16) then Throw ERR_CRYPTO_INVALID_IV
  else if negb (Nat.eqb (length key) 32) then Throw ERR_CRYPTO_INVALID_KEYLEN
  else Ok (init key iv).

(** [crypto.createDecipheriv]: in counter mode deciphering XORs the same
    keystream, so the object is the same. *)
Definition createDecipheriv (algorithm : string) (key iv : Buffer.t)
  : result Cipher :=
  createCipheriv algorithm key iv.

(** [cipher.update(data)]; it throws once [final] has been called. *)
Definition update (c : Cipher) (data : Buffer.t)
  : result (Cipher * Buffer.t) :=
  if finalized c then Throw ERR_CRYPTO_UNSUPPORTED_STATE
  else Ok (ctr128_encrypt c data).

(** [cipher.final()]: a stream cipher holds nothing back. *)
Definition final (c : Cipher) : result (Cipher * Buffer.t) :=
  if finalized c then Throw ERR_CRYPTO_UNSUPPORTED_STATE
  else Ok (mkCipher (rks c) (ivec c) (ecount_buf c) (num c) true, []).

End Crypto.

(** ** Node streams: transforms and pipes *)
Module Stream.

(** The chunks a stream has made readable, oldest first. *)
Definition queue := list Buffer.t.

(** [this.push(chunk)] on a stream of bytes (not in object mode): a chunk
    of zero bytes adds nothing to the readable buffer, so it is never
    emitted and never reaches the next stream of a pipe. *)
Definition push (out : queue) (chunk : Buffer.t) : queue :=
  match chunk with
  | [] => out
  | _ :: _ => out ++ [chunk]
  end.

Definition nonempty (c : Buffer.t) : bool :=
  match c with
  | [] => false
  | _ :: _ => true
  end.

(** A subclass of [stream.Transform]: [_transform] receives each written
    chunk, [_flush] runs when the writable side has ended.  Both may
    push. *)
Class Transform (S : Type) : Type := {
  _transform : S -> Buffer.t -> queue -> result (S * queue);
  _flush : S -> queue -> result (S * queue)
}.

(** The default [_flush] of [stream.Transform] pushes nothing. *)
Definition default_flush {S} (s : S) (out : queue) : result (S * queue) :=
  Ok (s, out).

Fixpoint write_all {S} `{Transform S} (s : S) (out : queue)
         (chunks : list Buffer.t) : result (S * queue) :=
  match chunks with
  | [] => Ok (s, out)
  | c :: cs =>
      (' (s', out') <- _transform s c out ;; write_all s' out' cs)%res
  end.

(** [src.pipe(t)] run to the end: every chunk [src] emits is written to
    [t], then [t] is ended; the result is what [t] emits. *)
Definition pipe {S} `{Transform S} (src : queue) (t : S) : result queue :=
  (' (s', out) <- write_all t [] src ;;
   ' (_, out') <- _flush s' out ;;
   Ok out')%res.

(** The cipher objects of [crypto] are transforms: each written chunk is
    updated and pushed, and [final()] is pushed on flush. *)
#[global] Instance Cipher_Transform : Transform Crypto.Cipher := {
  _transform c chunk out :=
    (' (c', o) <- Crypto.update c chunk ;; Ok (c', push out o))%res;
  _flush c out :=
    (' (c', o) <- Crypto.final c ;; Ok (c', push out o))%res
}.

End Stream.

(** ** The world: files, open descriptors and an event log

    Exceptions leave the world as it is at the point where they are
    raised, so what a failed call leaves behind stays observable. *)
Module Fs.

Inductive node : Type :=
| File (content : Buffer.t)
| Dir.

(** What is observable of a run, in the order it happens.  The file events
    are logged by the primitives below; the signer and cipher events are
    logged where the sources make the call. *)
Inductive event : Type :=
| EvOpen (path flags : string) (fd : nat)
| EvRead (fd : nat) (length position bytesRead : N)
| EvWrite (fd : nat) (data : Buffer.t)
| EvClose (fd : nat)
| EvSignRequest (message address : string)
| EvSigned (signature : string)
| EvSignFailed
| EvCipherCreated.

(** The file system maps the paths that exist to what they name.  A path
    is the name as written: the model is that of plain relative paths (no
    empty component, no [.] and no [..]) in a file system without links
    and with case-sensitive names, where two different paths are two
    different files ([Vocabulary.plain] says which paths these are), and
    where every file may be read and written. *)
Record World : Type := mkWorld {
  files : list (string * node);
  fds : list (nat * string);
  next_fd : nat;
  log : list event
}.

Definition M (A : Type) : Type := World -> result A * World.

Definition ret {A} (a : A) : M A := fun w => (Ok a, w).

Definition throw {A} (e : js_error) : M A := fun w => (Throw e, w).

Definition bind {A B} (m : M A) (k : A -> M B) : M B :=
  fun w =>
    match m w with
    | (Ok a, w') => k a w'
    | (Throw e, w') => (Throw e, w')
    end.

Definition lift {A} (r : result A) : M A := fun w => (r, w).

Declare Scope io_scope.
Delimit Scope io_scope with io.
Notation "x <- m ;; k" := (bind m (fun x => k))
  (at level 61, m at next level, right associativity) : io_scope.
Notation "' pat <- m ;; k" := (bind m (fun x => match x with pat => k end))
  (at level 61, pat pattern, m at next level, right associativity)
  : io_scope.
Notation "m ;;; k" := (bind m (fun _ => k))
  (at level 61, right associativity) : io_scope.

Definition emit (e : event) : M unit :=
  fun w => (Ok tt, mkWorld (files w) (fds w) (next_fd w) (log w ++ [e])).

Fixpoint lookup {A} (k : string) (l : list (string * A)) : option A :=
  match l with
  | [] => None
  | (k', v) :: l' => if String.eqb k k' then Some v else lookup k l'
  end.

Fixpoint store {A} (k : string) (v : A) (l : list (string * A))
  : list (string * A) :=
  match l with
  | [] => [(k, v)]
  | (k', v') :: l' =>
      if String.eqb k k' then (k, v) :: l' else (k', v') :: store k v l'
  end.

Fixpoint fd_path (fd : nat) (l : list (nat * string)) : option string :=
  match l with
  | [] => None
  | (fd', p) :: l' => if Nat.eqb fd fd' then Some p else fd_path fd l'
  end.

Definition fd_remove (fd : nat) (l : list (nat * string))
  : list (nat * string) :=
  filter (fun e => negb (Nat.eqb fd (fst e))) l.

(** [fs.existsSync(path)]. *)
Definition existsSync (path : string) : M bool :=
  fun w =>
    (Ok (match lookup path (files w) with Some _ => true | None => false end),
     w).

Definition alloc_fd (path flags : string) (fs' : list (string * node))
  : M nat :=
  fun w =>
    (Ok (next_fd w),
     mkWorld fs' ((next_fd w, path) :: fds w) (S (next_fd w))
             (log w ++ [EvOpen path flags (next_fd w)])).

(** [fs.openSync(path, 'r')]: the path must exist; a directory can be
    opened for reading. *)
Definition openSync_r (path : string) : M nat :=
  fun w =>
    match lookup path (files w) with
    | None => (Throw (ENOENT path), w)
    | Some _ => alloc_fd path "r" (files w) w
    end.

(** The directory a path lies in: the text before its last slash, [None]
    for a name without slash, which lies in the working directory. *)
Fixpoint dirname (path : string) : option string :=
  match path with
  | EmptyString => None
  | String c rest =>
      match dirname rest with
      | Some d => Some (String c d)
      | None => if Ascii.eqb c "/" then Some EmptyString else None
      end
  end.

(** What stands in the way of opening [path] with flag ['w']: the path
    names a directory; or it does not exist and the directory it lies in
    does not exist either, or is a file. *)
Definition open_w_error (path : string) (fs : list (string * node))
  : option js_error :=
  match lookup path fs with
  | Some Dir => Some EISDIR
  | Some (File _) => None
  | None =>
      match dirname path with
      | None => None
      | Some d =>
          match lookup d fs with
          | Some Dir => None
          | Some (File _) => Some ENOTDIR
          | None => Some (ENOENT path)
          end
      end
  end.

(** Opening with flag ['w'], as [fs.createWriteStream] does: the file is
    created, or truncated when it exists. *)
Definition openSync_w (path : string) : M nat :=
  fun w =>
    match open_w_error path (files w) with
    | Some e => (Throw e, w)
    | None => alloc_fd path "w" (store path (File []) (files w)) w
    end.

(** A positioned read: up to [length] bytes of the file from [position].
    Reading a directory raises. *)
Definition pread (fd length position : nat) : M Buffer.t :=
  fun w =>
    match fd_path fd (fds w) with
    | None => (Throw EBADF, w)
    | Some p =>
        match lookup p (files w) with
        | None => (Throw EBADF, w)
        | Some Dir => (Throw EISDIR, w)
        | Some (File content) =>
            let got := firstn length (skipn position content) in
            (Ok got,
             mkWorld (files w) (fds w) (next_fd w)
                     (log w ++ [EvRead fd (N.of_nat length) (N.of_nat position)
                                       (N.of_nat (List.length got))]))
        end
    end.

(** [Number.MAX_SAFE_INTEGER], 2^53 - 1. *)
Definition MAX_SAFE_INTEGER : Z := 9007199254740991.

(** [fs.readSync(fd, buffer, offset, length, position)]: the bytes read
    are stored into [buffer] from [offset]; their number is returned,
    together with the buffer as the call leaves it.  The position is
    validated first: an integer above [MAX_SAFE_INTEGER] raises
    [ERR_OUT_OF_RANGE].  (Numbers are integers here, as the arguments of
    the one call in the sources are.) *)
Definition readSync (fd : nat) (buffer : Buffer.t)
           (offset length : nat) (position : Z) : M (nat * Buffer.t) :=
  if (position >? MAX_SAFE_INTEGER)%Z then throw ERR_OUT_OF_RANGE
  else
    (got <- pread fd length (Z.to_nat position) ;;
     let n := List.length got in
     ret (n, firstn offset buffer ++ got ++ skipn (offset + n) buffer))%io.

(** A write through a descriptor opened with ['w']: the bytes go to the
    end of the file. *)
Definition writeSync (fd : nat) (data : Buffer.t) : M unit :=
  fun w =>
    match fd_path fd (fds w) with
    | None => (Throw EBADF, w)
    | Some p =>
        match lookup p (files w) with
        | Some (File content) =>
            (Ok tt,
             mkWorld (store p (File (content ++ data)) (files w)) (fds w)
                     (next_fd w) (log w ++ [EvWrite fd data]))
        | _ => (Throw EBADF, w)
        end
    end.

(** [fs.closeSync(fd)]. *)
Definition closeSync (fd : nat) : M unit :=
  fun w =>
    match fd_path fd (fds w) with
    | None => (Throw EBADF, w)
    | Some _ =>
        (Ok tt,
         mkWorld (files w) (fd_remove fd (fds w)) (next_fd w)
                 (log w ++ [EvClose fd]))
    end.

(** *** File streams *)

(** [fs.createReadStream(path, { start })]: nothing is opened when the
    object is made. *)
Record ReadStream : Type := mkReadStream {
  rs_path : string;
  rs_start : nat
}.

Definition createReadStream (path : string) (start : nat) : ReadStream :=
  mkReadStream path start.

(** The default [highWaterMark] of a file read stream. *)
Definition highWaterMark : nat := 64 * 1024.

(** The read loop of a file read stream: one read of [highWaterMark]
    bytes (here [hwm]) after the other, each chunk pushed, until a read
    returns no byte.  [fuel] bounds the number of reads. *)
Fixpoint read_loop (hwm fuel fd position : nat) : M Stream.queue :=
  match fuel with
  | O => ret []
  | S fuel' =>
      (chunk <- pread fd hwm position ;;
       match chunk with
       | [] => ret []
       | _ :: _ =>
           rest <- read_loop hwm fuel' fd (position + List.length chunk) ;;
           ret (chunk :: rest)
       end)%io
  end.

Definition file_size (path : string) (w : World) : nat :=
  match lookup path (files w) with
  | Some (File content) => List.length content
  | _ => 0
  end.

(** [autoClose]: a file stream closes its descriptor when it ends and
    when it fails. *)
Definition autoClose {A} (fd : nat) (m : M A) : M A :=
  fun w =>
    match m w with
    | (Ok a, w') => (closeSync fd ;;; ret a)%io w'
    | (Throw e, w') => (closeSync fd ;;; throw e)%io w'
    end.

(** A read stream flowing to its end: open, read every chunk, close.
    Every read but the last returns at least one byte, so one read more
    than the file has bytes is enough. *)
Definition read_to_end (rs : ReadStream) : M Stream.queue :=
  fun w =>
    (fd <- openSync_r (rs_path rs) ;;
     autoClose fd
       (read_loop highWaterMark (S (file_size (rs_path rs) w)) fd
                  (rs_start rs)))%io w.

(** [fs.createWriteStream(path)]: the file is opened with flag ['w']. *)
Definition createWriteStream (path : string) : M nat := openSync_w path.

Fixpoint write_chunks (fd : nat) (chunks : Stream.queue) : M unit :=
  match chunks with
  | [] => ret tt
  | c :: cs => (writeSync fd c ;;; write_chunks fd cs)%io
  end.

(** [src.pipe(writeStream)] run to the end: every chunk is written, then
    the stream is ended and its descriptor closed.  (When [src] fails,
    the pipe is not reached and nothing ends the write stream.) *)
Definition pipe_to_file (src : Stream.queue) (fd : nat) : M unit :=
  autoClose fd (write_chunks fd src).

End Fs.

(** ** src/utils/fs-utils.js *)
Module FsUtils.
Import Fs.

(** [class PrependInitializationVector extends Transform]
    (fs-utils.js, lines 38-53): the fields set by the constructor. *)
Record PrependInitializationVector : Type := mkPrepend {
  iv : Buffer.t;
  prepended : bool
}.

Definition new_PrependInitializationVector (iv : Buffer.t)
  : PrependInitializationVector :=
  mkPrepend iv false.

(** Its [_transform(chunk, encoding, cb)]; the class defines no [_flush]. *)
Definition PrependInitializationVector_transform
           (this : PrependInitializationVector) (chunk : Buffer.t)
           (out : Stream.queue)
  : PrependInitializationVector * Stream.queue :=
  let (this1, out1) :=
    if negb (prepended this)
    then (mkPrepend (iv this) true, Stream.push out (iv this))
    else (this, out) in
  (this1, Stream.push out1 chunk).

#[global] Instance PrependInitializationVector_Transform
  : Stream.Transform PrependInitializationVector := {
  _transform this chunk out :=
    Ok (PrependInitializationVector_transform this chunk out);
  _flush := Stream.default_flush
}.

(** [partialReadSync(path, start, end)] (fs-utils.js, lines 55-66), for
    integers [start] and [end].  With [end - start = 0] the source
    evaluates [Buffer.from(0)], which throws a TypeError. *)
Definition partialReadSync (path : string) (start stop : Z) : M Buffer.t :=
  if ((start <? 0) || (stop <? 0) || (stop <? start)
      || (stop - start >? 0x3fffffff))%Z
  then throw (Error "bad start, end")
  else if (stop - start =? 0)%Z
  then throw (TypeError "The first argument must not be of type number")
  else
    let buf := Buffer.alloc (Z.to_nat (stop - start)) in
    (fd <- openSync_r path ;;
     ' (_, buf') <- readSync fd buf 0 (Z.to_nat (stop - start)) start ;;
     closeSync fd ;;;
     ret buf')%io.

(** [s.lastIndexOf(c)] and [s.indexOf(c)], [None] standing for -1. *)
Fixpoint lastIndexOf (c : ascii) (s : string) : option nat :=
  match s with
  | EmptyString => None
  | String c' s' =>
      match lastIndexOf c s' with
      | Some i => Some (S i)
      | None => if Ascii.eqb c c' then Some 0 else None
      end
  end.

Fixpoint indexOf (c : ascii) (s : string) : option nat :=
  match s with
  | EmptyString => None
  | String c' s' =>
      if Ascii.eqb c c' then Some 0 else option_map S (indexOf c s')
  end.

(** [s.indexOf(c, from)], where [from] is [None] for -1 (taken as 0). *)
Definition indexOf_from (c : ascii) (s : string) (from : option nat)
  : option nat :=
  match from with
  | None => indexOf c s
  | Some i => option_map (Nat.add i) (indexOf c (JsString.drop i s))
  end.

(** [_appendToFilename(filename, string)] (fs-utils.js, lines 9-14):
    [string] goes before the first dot found from the last slash on, or
    at the end without such a dot. *)
Definition _appendToFilename (filename string : String.string)
  : String.string :=
  let lastSlashIndex := lastIndexOf "/" filename in
  match indexOf_from "." filename lastSlashIndex with
  | None => (filename ++ string)%string
  | Some lastDotIndex =>
      (JsString.take lastDotIndex filename ++ string
       ++ JsString.drop lastDotIndex filename)%string
  end.

(** Decimal digits of a number, for the template [`-dup-${i}`]. *)
Fixpoint digits_of_uint (d : Decimal.uint) : string :=
  match d with
  | Decimal.Nil => EmptyString
  | Decimal.D0 d' => String "0" (digits_of_uint d')
  | Decimal.D1 d' => String "1" (digits_of_uint d')
  | Decimal.D2 d' => String "2" (digits_of_uint d')
  | Decimal.D3 d' => String "3" (digits_of_uint d')
  | Decimal.D4 d' => String "4" (digits_of_uint d')
  | Decimal.D5 d' => String "5" (digits_of_uint d')
  | Decimal.D6 d' => String "6" (digits_of_uint d')
  | Decimal.D7 d' => String "7" (digits_of_uint d')
  | Decimal.D8 d' => String "8" (digits_of_uint d')
  | Decimal.D9 d' => String "9" (digits_of_uint d')
  end.

Definition number_toString (i : nat) : string :=
  digits_of_uint (Nat.to_uint i).

(** [resolveOutputFile(outputFileName, i)] (fs-utils.js, lines 16-24):
    the first candidate name that does not exist.  [stack] is the number
    of nested calls the call stack of the engine still has room for: a
    call that would nest deeper raises a RangeError. *)
Fixpoint resolveOutputFile (stack : nat) (outputFileName : string) (i : nat)
  : M string :=
  let testFileName :=
    match i with
    | O => outputFileName
    | S _ => _appendToFilename outputFileName ("-dup-" ++ number_toString i)
    end in
  (taken <- existsSync testFileName ;;
   if taken
   then match stack with
        | O => throw (RangeError "Maximum call stack size exceeded")
        | S stack' => resolveOutputFile stack' outputFileName (S i)
        end
   else ret testFileName)%io.

(** [generateDefaultOutputFile(inputFileName, 'encrypt')] (fs-utils.js,
    lines 26-28). *)
Definition generateDefaultOutputFile_encrypt (inputFileName : string)
  : string :=
  (inputFileName ++ "." ++ Config.FILE_EXTENSION)%string.

(** *** The regular expression of [_replaceLastOccurance]

    The source builds a [RegExp] from [search], followed by a group made
    of a starred negated class of the characters of [search], followed
    by the end anchor.  For a [search] whose only special character is
    the dot (as the extension with its leading dot, the one the source
    passes) this reads: the characters of [search], where a dot stands
    for any character but a line terminator, then a group of characters
    none of which occurs in [search] (in a class the dot is itself), up
    to the end of the text. *)
Definition line_terminator (c : ascii) : bool :=
  Ascii.eqb c "010" || Ascii.eqb c "013".

Definition atom_matches (p c : ascii) : bool :=
  if Ascii.eqb p "." then negb (line_terminator c) else Ascii.eqb p c.

(** The atoms of [pat] against the start of [s]: what is left of [s]. *)
Fixpoint atoms_match (pat s : string) : option string :=
  match pat with
  | EmptyString => Some s
  | String p pat' =>
      match s with
      | EmptyString => None
      | String c s' =>
          if atom_matches p c then atoms_match pat' s' else None
      end
  end.

Fixpoint in_class (c : ascii) (cls : string) : bool :=
  match cls with
  | EmptyString => false
  | String x cls' => Ascii.eqb c x || in_class c cls'
  end.

Fixpoint all_outside (cls s : string) : bool :=
  match s with
  | EmptyString => true
  | String c s' => negb (in_class c cls) && all_outside cls s'
  end.

(** A match that starts at the start of [s]; the result is the group.
    The starred class is followed by [$], so it has to take all that is
    left. *)
Definition match_here (search s : string) : option string :=
  match atoms_match search s with
  | Some rest => if all_outside search rest then Some rest else None
  | None => None
  end.

(** [_replaceLastOccurance(str, search, replace)] (fs-utils.js, lines
    5-7): [str.replace(regexp, replace + "$1")] rewrites the leftmost
    match, keeping the group; without a match [str] is returned.
    [replace] is taken literally (the source passes the empty
    string). *)
Fixpoint _replaceLastOccurance (str search replace : string) : string :=
  match match_here search str with
  | Some group => (replace ++ group)%string
  | None =>
      match str with
      | EmptyString => EmptyString
      | String c str' => String c (_replaceLastOccurance str' search replace)
      end
  end.

(** [generateDefaultOutputFile(inputFileName, 'decrypt')] (fs-utils.js,
    lines 29-35). *)
Definition generateDefaultOutputFile_decrypt (inputFileName : string)
  : string :=
  if JsString.endsWith inputFileName ("." ++ Config.FILE_EXTENSION)
  then _replaceLastOccurance inputFileName ("." ++ Config.FILE_EXTENSION) ""
  else (inputFileName ++ "." ++ Config.DECRYPTED_FILE_EXTENSION)%string.

(** [generateDefaultOutputFile(inputFileName, actionType)] (fs-utils.js,
    lines 26-36); [None] stands for [undefined], returned for any other
    action. *)
Definition generateDefaultOutputFile (inputFileName actionType : string)
  : option string :=
  if String.eqb actionType "encrypt"
  then Some (generateDefaultOutputFile_encrypt inputFileName)
  else if String.eqb actionType "decrypt"
  then Some (generateDefaultOutputFile_decrypt inputFileName)
  else None.

End FsUtils.

(** ** src/index.js *)
Module Index.
Import Fs.

(** [generateEncryptionNote()] (index.js, lines 13-15); [randomBytes]
    stands for [crypto.randomBytes]. *)
Definition generateEncryptionNote (randomBytes : nat -> Buffer.t) : string :=
  Buffer.toString_hex (randomBytes (Z.to_nat Config.ENCRYPTION_IV_SIZE)).

(** The part of a web3 provider the sources use.  [personal_sign] answers
    with the pair [(err, sig)] its callback receives; [eth] is missing
    from the provider built for [--rpc-url]. *)
Record Eth : Type := mkEth {
  defaultAccount : string;
  personal_sign : string -> string -> option js_error * option string
}.

Record Provider : Type := mkProvider {
  eth : option Eth
}.

(** [signEncryptionNote(note, provider, cb, errorCb)] (index.js, lines
    17-28): the callback of [personal.sign] calls [cb] when [sig] is
    truthy and [errorCb] otherwise. *)
Definition signEncryptionNote {A} (note : string) (provider : Provider)
           (cb : string -> M A) (errorCb : option js_error -> M A) : M A :=
  let signatureMessage := (Config.ETH_ENCRYPT_MESSAGE ++ note)%string in
  match eth provider with
  | None => throw (TypeError "Cannot read property 'defaultAccount'")
  | Some e =>
      let address := defaultAccount e in
      (emit (EvSignRequest signatureMessage address) ;;;
       let (err, sig) := personal_sign e signatureMessage address in
       match sig with
       | Some s =>
           if JsString.truthy s
           then emit (EvSigned s) ;;; cb s
           else emit EvSignFailed ;;; errorCb err
       | None => emit EvSignFailed ;;; errorCb err
       end)%io
  end.

(** [signedEncryptionNoteToKey(signedEncryptionNote)] (index.js, lines
    30-34). *)
Definition signedEncryptionNoteToKey (signedEncryptionNote : string)
  : Buffer.t :=
  let sanitizedSignature :=
    JsString.substring (JsString.replace "0x" "" signedEncryptionNote)
                       0 (Config.ENCRYPTION_KEY_SIZE * 2) in
  Buffer.from_hex sanitizedSignature.

(** *** Encryption *)

(** [_createCipher] (index.js, lines 39-47). *)
Definition _createCipher (encryptionNote : Buffer.source)
           (signedEncryptionNote : string) : result Crypto.Cipher :=
  let iv := Buffer.from encryptionNote in
  let encryptionKey := signedEncryptionNoteToKey signedEncryptionNote in
  Crypto.createCipheriv Config.ENCRYPTION_ALGORITHM encryptionKey iv.

(** [encryptBytes(data, encryptionNote, signedEncryptionNote)] (index.js,
    lines 49-55), with [data] a Buffer. *)
Definition encryptBytes (data : Buffer.t) (encryptionNote : Buffer.source)
           (signedEncryptionNote : string) : result Buffer.t :=
  (cipher <- _createCipher encryptionNote signedEncryptionNote ;;
   ' (cipher1, encryptedData) <- Crypto.update cipher data ;;
   ' (_, final) <- Crypto.final cipher1 ;;
   Ok (Buffer.concat [Buffer.from encryptionNote; encryptedData; final]))%res.

(** [encryptFileAsStream] (index.js, lines 57-67): the four objects are
    made in the order of the source, then the pipes run to the end of the
    input. *)
Definition encryptFileAsStream (inputFileName outputFileName : string)
           (encryptionNote : Buffer.source) (signedEncryptionNote : string)
  : M unit :=
  let readStream := createReadStream inputFileName 0 in
  (cipher <- lift (_createCipher encryptionNote signedEncryptionNote) ;;
   emit EvCipherCreated ;;;
   let prependIV :=
     FsUtils.new_PrependInitializationVector (Buffer.from encryptionNote) in
   writeStream <- createWriteStream outputFileName ;;
   plain <- read_to_end readStream ;;
   encrypted <- lift (Stream.pipe plain cipher) ;;
   framed <- lift (Stream.pipe encrypted prependIV) ;;
   pipe_to_file framed writeStream)%io.

(** *** Decryption *)

(** [_createDecipher] (index.js, lines 72-80). *)
Definition _createDecipher (encryptionNote : Buffer.source)
           (signedEncryptionNote : string) : result Crypto.Cipher :=
  let iv := Buffer.from encryptionNote in
  let encryptionKey := signedEncryptionNoteToKey signedEncryptionNote in
  Crypto.createDecipheriv Config.ENCRYPTION_ALGORITHM encryptionKey iv.

(** [readEncryptionNoteFromEncryptedBytes] and
    [readEncryptionNoteFromFile] (index.js, lines 82-91). *)
Definition readEncryptionNoteFromEncryptedBytes (data : Buffer.t) : string :=
  let ivBuffer := Buffer.slice data 0 Config.ENCRYPTION_IV_SIZE in
  Buffer.toString_hex ivBuffer.

Definition readEncryptionNoteFromFile (filename : string) : M string :=
  (ivBuffer <- FsUtils.partialReadSync filename 0 Config.ENCRYPTION_IV_SIZE ;;
   ret (Buffer.toString_hex ivBuffer))%io.

(** [decryptBytes] (index.js, lines 93-100): the note is passed on as a
    Buffer. *)
Definition decryptBytes (data : Buffer.t) (signedEncryptionNote : string)
  : result Buffer.t :=
  let ivBuffer := Buffer.slice data 0 Config.ENCRYPTION_IV_SIZE in
  let contentBuffer := Buffer.slice_from data Config.ENCRYPTION_IV_SIZE in
  (decipher <- _createDecipher (Buffer.Buf ivBuffer) signedEncryptionNote ;;
   ' (decipher1, decryptedData) <- Crypto.update decipher contentBuffer ;;
   ' (_, final) <- Crypto.final decipher1 ;;
   Ok (Buffer.concat [decryptedData; final]))%res.

(** [decryptFileAsStream] (index.js, lines 102-111). *)
Definition decryptFileAsStream (inputFileName outputFileName : string)
           (signedEncryptionNote : string) : M unit :=
  (note <- readEncryptionNoteFromFile inputFileName ;;
   let ivBuffer := Buffer.from (Buffer.Str note) in
   let readStream :=
     createReadStream inputFileName (Z.to_nat Config.ENCRYPTION_IV_SIZE) in
   decipher <- lift (_createDecipher (Buffer.Buf ivBuffer)
                                     signedEncryptionNote) ;;
   emit EvCipherCreated ;;;
   writeStream <- createWriteStream outputFileName ;;
   encrypted <- read_to_end readStream ;;
   plain <- lift (Stream.pipe encrypted decipher) ;;
   pipe_to_file plain writeStream)%io.

End Index.

(** ** src/cli.js: the encryption path

    Console output is not part of the world and is left out. *)
Module Cli.
Import Fs.

Record Options : Type := mkOptions {
  output : option string;
  verbose : bool
}.

(** [handleRuntimeError(error, options)] (cli.js, lines 253-261) only
    prints. *)
Definition handleRuntimeError (error : option js_error) (options : Options)
  : M unit :=
  ret tt.

(** [processFileEncryption(fileName, provider, options)] (cli.js, lines
    133-164); [randomBytes] stands for [crypto.randomBytes], and [stack]
    for the room the call stack has when [resolveOutputFile] is called. *)
Definition processFileEncryption (stack : nat)
           (randomBytes : nat -> Buffer.t)
           (fileName : string) (provider : Index.Provider)
           (options : Options) : M unit :=
  match Index.eth provider with
  | None => throw (TypeError "Cannot read property 'defaultAccount'")
  | Some _ =>
      let outputFileName :=
        match output options with
        | Some o =>
            if JsString.truthy o then o
            else FsUtils.generateDefaultOutputFile_encrypt fileName
        | None => FsUtils.generateDefaultOutputFile_encrypt fileName
        end in
      let encryptionNote := Index.generateEncryptionNote randomBytes in
      Index.signEncryptionNote encryptionNote provider
        (fun signedEncryptionNote =>
           (outputFileName' <-
              FsUtils.resolveOutputFile stack outputFileName 0 ;;
            Index.encryptFileAsStream fileName outputFileName'
              (Buffer.Str encryptionNote) signedEncryptionNote)%io)
        (fun error => handleRuntimeError error options)
  end.

(** [processFileDecryption(fileName, provider, options)] (cli.js, lines
    166-198). *)
Definition processFileDecryption (stack : nat) (fileName : string)
           (provider : Index.Provider) (options : Options) : M unit :=
  match Index.eth provider with
  | None => throw (TypeError "Cannot read property 'defaultAccount'")
  | Some _ =>
      let outputFileName :=
        match output options with
        | Some o =>
            if JsString.truthy o then o
            else FsUtils.generateDefaultOutputFile_decrypt fileName
        | None => FsUtils.generateDefaultOutputFile_decrypt fileName
        end in
      (encryptionNote <- Index.readEncryptionNoteFromFile fileName ;;
       Index.signEncryptionNote encryptionNote provider
         (fun signedEncryptionNote =>
            (outputFileName' <-
               FsUtils.resolveOutputFile stack outputFileName 0 ;;
             Index.decryptFileAsStream fileName outputFileName'
               signedEncryptionNote)%io)
         (fun error => handleRuntimeError error options))%io
  end.

(** The options of an action as [command-line-args] returns them: an
    option that is not given is [undefined], here [None].  [output] and
    [verbose], the fields the two functions above read, are kept in
    [opt_rest]. *)
Record ActionOptions : Type := mkActionOptions {
  opt_fileName : option string;
  opt_private_key : option string;
  opt_rpc_url : option string;
  opt_rest : Options
}.

(** Truthiness of an option: given, and not the empty string. *)
Definition given (o : option string) : bool :=
  match o with
  | Some s => JsString.truthy s
  | None => false
  end.

(** [displayError(text)] (cli.js, lines 244-251) only prints. *)
Definition displayError (text : string) : M unit := ret tt.

(** [processAction(actionType, options)] (cli.js, lines 90-131).
    [newWeb3] stands for the construction of the provider from the
    private key without its first [0x]: [new PrivateKeyProvider],
    [new Web3] and the assignment of the default account.  For
    [--rpc-url] the provider is the empty object.  (A provider left
    undefined would raise at [provider.eth]; the checks exclude it.) *)
Definition processAction (stack : nat) (randomBytes : nat -> Buffer.t)
           (newWeb3 : string -> result Index.Provider)
           (actionType : string) (options : ActionOptions) : M unit :=
  let privateKey := opt_private_key options in
  let rpcUrl := opt_rpc_url options in
  match opt_fileName options with
  | None => displayError "No file name given"
  | Some fileName =>
      if negb (JsString.truthy fileName)
      then displayError "No file name given"
      else
        (there <- existsSync fileName ;;
         if negb there
         then displayError ("File does not exist: " ++ fileName)
         else if negb (given privateKey) && negb (given rpcUrl)
         then displayError "One of --private-key or --rpc-url required"
         else if given privateKey && given rpcUrl
         then displayError "Choose one of --private-key or --rpc-url"
         else
           provider <-
             match privateKey with
             | Some pk =>
                 if JsString.truthy pk
                 then lift (newWeb3 (JsString.replace "0x" "" pk))
                 else if given rpcUrl then ret (Index.mkProvider None)
                 else throw (TypeError "Cannot read property 'eth'")
             | None =>
                 if given rpcUrl then ret (Index.mkProvider None)
                 else throw (TypeError "Cannot read property 'eth'")
             end ;;
           if String.eqb actionType "encrypt"
           then processFileEncryption stack randomBytes fileName provider
                                      (opt_rest options)
           else if String.eqb actionType "decrypt"
           then processFileDecryption stack fileName provider
                                      (opt_rest options)
           else ret tt)%io
  end.

End Cli.

(** ** Vocabulary of the statements *)
Module Hex.

(** Hexadecimal digits, in either case, as [Buffer.from(_, 'hex')] takes
    them. *)
Definition is_hex (c : ascii) : bool :=
  match Buffer.unhex c with
  | Some _ => true
  | None => false
  end.

Fixpoint hex_string (s : string) : bool :=
  match s with
  | EmptyString => true
  | String c s' => is_hex c && hex_string s'
  end.

(** Where hex decoding stops: fewer than two characters are left, or one
    of the next two is not a hexadecimal digit. *)
Definition stops (r : string) : Prop :=
  match r with
  | String a (String b _) => is_hex a && is_hex b = false
  | _ => True
  end.

(** [first_removed pat s t]: [t] is [s] without the first occurrence of
    [pat], or [s] itself when [pat] does not occur in it. *)
Inductive first_removed (pat : string) : string -> string -> Prop :=
| fr_absent s :
    (forall a b, s <> (a ++ pat ++ b)%string) ->
    first_removed pat s s
| fr_first a b :
    (forall a' b', (a ++ pat ++ b)%string = (a' ++ pat ++ b')%string ->
                   String.length a <= String.length a') ->
    first_removed pat (a ++ pat ++ b)%string (a ++ b)%string.

End Hex.

Module Trace.
Import Fs.

Definition is_signed (e : event) : bool :=
  match e with
  | EvSigned _ => true
  | _ => false
  end.

Definition is_cipher (e : event) : bool :=
  match e with
  | EvCipherCreated => true
  | _ => false
  end.

(** Output begins when a file is opened for writing; every write is
    output too. *)
Definition is_output (e : event) : bool :=
  match e with
  | EvOpen _ flags _ => String.eqb flags "w"
  | EvWrite _ _ => true
  | _ => false
  end.

(** [preceded_by p q l]: in [l], every event that satisfies [q] comes
    after some event that satisfies [p]. *)
Definition preceded_by (p q : event -> bool) (l : list event) : Prop :=
  forall l1 e l2,
    l = l1 ++ e :: l2 -> q e = true -> exists e', In e' l1 /\ p e' = true.

(** A computation that only adds events at the end of the log. *)
Definition appends {A} (m : M A) : Prop :=
  forall w r w', m w = (r, w') -> exists new, log w' = log w ++ new.

(** The signature [processFileEncryption] obtains for the note it draws,
    if the signer gives one. *)
Definition signature_obtained (randomBytes : nat -> Buffer.t)
           (provider : Index.Provider) : option string :=
  match Index.eth provider with
  | None => None
  | Some e =>
      match snd (Index.personal_sign e
                   (Config.ETH_ENCRYPT_MESSAGE
                    ++ Index.generateEncryptionNote randomBytes)%string
                   (Index.defaultAccount e)) with
      | Some s => if JsString.truthy s then Some s else None
      | None => None
      end
  end.

End Trace.

(** ** Scenarios the statements are tried on *)
Module Scenario.
Import Fs.

(** The plaintext "hello world", a note of sixteen zero bytes, and a
    65-byte signature whose first 32 bytes are all 0x11. *)
Definition hello : Buffer.t :=
  Buffer.from_hex "68656c6c6f20776f726c64".

Definition zero_note : string := "00000000000000000000000000000000".

Definition signature_digits : string :=
  ("1111111111111111111111111111111111111111111111111111111111111111"
   ++ "2222222222222222222222222222222222222222222222222222222222222222"
   ++ "1b")%string.

Definition signature : string := ("0x" ++ signature_digits)%string.

Definition hello_payload : Buffer.t :=
  Eval vm_compute in
    match Index.encryptBytes hello (Buffer.Str zero_note) signature with
    | Ok payload => payload
    | Throw _ => []
    end.

(** A signer that signs, and one that declines. *)
Definition signing_provider : Index.Provider :=
  Index.mkProvider
    (Some (Index.mkEth "0xabc" (fun _ _ => (None, Some signature)))).

Definition declining_provider : Index.Provider :=
  Index.mkProvider
    (Some (Index.mkEth "0xabc"
             (fun _ _ => (Some (Error "User denied message signature"),
                          None)))).

Definition fixed_random (n : nat) : Buffer.t := repeat x00 n.

Definition no_options : Cli.Options := Cli.mkOptions None false.

(** Room for a thousand nested calls. *)
Definition call_stack : nat := 1000.

(** A directory with the file [hello.txt], an empty file, a file of three
    bytes and a sub-directory; descriptors 0 to 2 are the standard ones. *)
Definition world : World :=
  mkWorld [("hello.txt", File hello);
           ("empty.txt", File []);
           ("short.bin", File [x01; x02; x03]);
           ("photos", Dir)]%string
          [] 3 [].

Definition encrypted_hello : result unit * World :=
  Eval vm_compute in
    Cli.processFileEncryption call_stack fixed_random "hello.txt"
                              signing_provider
                              no_options world.

End Scenario.

(** ** Vocabulary of the further properties *)
Module Vocabulary.
Import Fs.


(** Two buffers XORed byte by byte, up to the shorter one. *)
Definition xor_bytes (a b : Buffer.t) : Buffer.t :=
  map (fun p => byte_xor (fst p) (snd p)) (combine a b).

Fixpoint has_char (c : ascii) (s : string) : bool :=
  match s with
  | EmptyString => false
  | String c' s' => Ascii.eqb c c' || has_char c s'
  end.

(** The name [resolveOutputFile] tries in its call number [i]. *)
Definition candidate (outputFileName : string) (i : nat) : string :=
  match i with
  | O => outputFileName
  | S _ =>
      FsUtils._appendToFilename outputFileName
        ("-dup-" ++ FsUtils.number_toString i)
  end.


(** The components of a path, between its slashes. *)
Fixpoint components (path : string) : list string :=
  match path with
  | EmptyString => [EmptyString]
  | String c rest =>
      if Ascii.eqb c "/" then EmptyString :: components rest
      else match components rest with
           | x :: xs => String c x :: xs
           | [] => [String c EmptyString]
           end
  end.

(** A plain relative path: every component is a name, none is empty, [.]
    or [..].  Such a path is not absolute, has no doubled or trailing
    slash, and is the only plain path of what it names. *)
Definition plain (path : string) : bool :=
  forallb (fun name => negb (String.eqb name "")
                       && negb (String.eqb name ".")
                       && negb (String.eqb name ".."))
          (components path).


(** The files of [w'] are those of [w], except perhaps the file [path]. *)
Definition files_kept_but (path : string) (w w' : World) : Prop :=
  forall p, p <> path -> lookup p (files w') = lookup p (files w).

(** [w'] differs from [w] in one file at most, and this file is new. *)
Definition one_new_file_at_most (w w' : World) : Prop :=
  exists output,
    lookup output (files w) = None /\ files_kept_but output w w'.

End Vocabulary.

(** ** Further scenarios *)
Module Runs.
Import Fs.

(** A second plaintext of eleven bytes, "HELLO WORLD". *)
Definition shout : Buffer.t :=
  Buffer.from_hex "48454c4c4f20574f524c44".

Definition shout_payload : Buffer.t :=
  Eval vm_compute in
    match Index.encryptBytes shout (Buffer.Str Scenario.zero_note)
                             Scenario.signature with
    | Ok payload => payload
    | Throw _ => []
    end.

(** A signature with other key bytes. *)
Definition other_signature : string :=
  ("0x"
   ++ "3333333333333333333333333333333333333333333333333333333333333333"
   ++ "4444444444444444444444444444444444444444444444444444444444444444"
   ++ "1c")%string.

(** The encrypted [hello.txt] decrypted again from the command line. *)
Definition decrypted_hello : result unit * World :=
  Eval vm_compute in
    Cli.processFileDecryption Scenario.call_stack "hello.txt.eth.encrypted"
                              Scenario.signing_provider Scenario.no_options
                              (snd Scenario.encrypted_hello).

(** Two command lines: [encrypt hello.txt --rpc-url ...] and
    [encrypt hello.txt --private-key ...], the latter with a wallet that
    signs as [Scenario.signing_provider] does. *)
Definition with_rpc_url : Cli.ActionOptions :=
  Cli.mkActionOptions (Some "hello.txt"%string) None
                      (Some "http://localhost:8545"%string)
                      Scenario.no_options.

Definition with_private_key : Cli.ActionOptions :=
  Cli.mkActionOptions (Some "hello.txt"%string) (Some "0x01"%string) None
                      Scenario.no_options.

Definition wallet (privateKey : string) : result Index.Provider :=
  Ok Scenario.signing_provider.

Definition rpc_url_run : result unit * World :=
  Eval vm_compute in
    Cli.processAction Scenario.call_stack Scenario.fixed_random wallet
                      "encrypt" with_rpc_url
                      Scenario.world.

Definition private_key_run : result unit * World :=
  Eval vm_compute in
    Cli.processAction Scenario.call_stack Scenario.fixed_random wallet
                      "encrypt" with_private_key
                      Scenario.world.

End Runs.

(** * Properties *)

(** ** Bytes and the keystream XOR *)

Lemma byte_of_to_N (b : byte) : byte_of_N (Byte.to_N b) = b.
Proof.
  unfold byte_of_N.
  rewrite N.mod_small by (pose proof (Byte.to_N_bounded b); lia).
  now rewrite Byte.of_to_N.
Qed.

Lemma to_N_byte_of_N (n : N) : Byte.to_N (byte_of_N n) = (n mod 256)%N.
Proof.
  unfold byte_of_N.
  destruct (Byte.of_N (n mod 256)) as [b|] eqn:E.
  - now apply Byte.to_of_N.
  - apply Byte.of_N_None_iff in E.
    pose proof (N.mod_upper_bound n 256). lia.
Qed.

Lemma lxor_mod_256 (a b : N) :
  (N.lxor a b mod 256 = N.lxor (a mod 256) (b mod 256))%N.
Proof.
  change 256%N with (2 ^ 8)%N.
  rewrite <- !N.land_ones.
  apply N.bits_inj. intro i.
  rewrite N.lxor_spec, !N.land_spec, N.lxor_spec.
  destruct (N.testbit a i), (N.testbit b i), (N.testbit (N.ones 8) i);
    reflexivity.
Qed.

(** XORing twice with the same keystream byte gives the byte back. *)
Lemma byte_xor_involutive (a k : byte) : byte_xor (byte_xor a k) k = a.
Proof.
  unfold byte_xor.
  rewrite to_N_byte_of_N, lxor_mod_256.
  rewrite !(N.mod_small (Byte.to_N _))
    by (pose proof (Byte.to_N_bounded a); pose proof (Byte.to_N_bounded k);
        lia).
  rewrite N.lxor_assoc, N.lxor_nilpotent, N.lxor_0_r.
  apply byte_of_to_N.
Qed.

(** ** Counter mode *)
Module CryptoFacts.
Import Crypto.

Lemma ctr128_encrypt_cons c b data :
  ctr128_encrypt c (b :: data) =
  (fst (ctr128_encrypt (next c) data),
   byte_xor b (keystream_byte c) :: snd (ctr128_encrypt (next c) data)).
Proof.
  cbn [ctr128_encrypt]. unfold step.
  now destruct (ctr128_encrypt (next c) data).
Qed.

Lemma ctr128_encrypt_length data :
  forall c, length (snd (ctr128_encrypt c data)) = length data.
Proof.
  induction data as [|b data IH]; intro c.
  - reflexivity.
  - rewrite ctr128_encrypt_cons. cbn [snd length]. now rewrite IH.
Qed.

(** Running the output through a cipher in the same state gives the input
    back and ends in the same state. *)
Lemma ctr128_encrypt_inverse data :
  forall c,
    ctr128_encrypt c (snd (ctr128_encrypt c data)) =
    (fst (ctr128_encrypt c data), data).
Proof.
  induction data as [|b data IH]; intro c.
  - reflexivity.
  - rewrite (ctr128_encrypt_cons c b data). cbn [fst snd].
    rewrite ctr128_encrypt_cons, IH. cbn [fst snd].
    now rewrite byte_xor_involutive.
Qed.

(** Feeding the data in two chunks is the same as feeding it at once. *)
Lemma ctr128_encrypt_app a :
  forall c b,
    ctr128_encrypt c (a ++ b) =
    (fst (ctr128_encrypt (fst (ctr128_encrypt c a)) b),
     snd (ctr128_encrypt c a)
     ++ snd (ctr128_encrypt (fst (ctr128_encrypt c a)) b)).
Proof.
  induction a as [|x a IH]; intros c b.
  - cbn. now destruct (ctr128_encrypt c b).
  - rewrite <- app_comm_cons, !ctr128_encrypt_cons, IH. reflexivity.
Qed.

Lemma ctr128_encrypt_finalized data :
  forall c, finalized (fst (ctr128_encrypt c data)) = finalized c.
Proof.
  induction data as [|b data IH]; intro c.
  - reflexivity.
  - rewrite ctr128_encrypt_cons. cbn [fst]. rewrite IH.
    unfold next, refill. now destruct (Nat.eqb (num c) 0).
Qed.

Lemma createCipheriv_ok algorithm key iv c :
  createCipheriv algorithm key iv = Ok c ->
  length iv = 16 /\ length key = 32 /\ c = init key iv.
Proof.
  unfold createCipheriv.
  destruct (String.eqb algorithm "aes-256-ctr"); cbn [negb]; try discriminate.
  destruct (Nat.eqb (length iv) 16) eqn:Hiv; cbn [negb]; try discriminate.
  destruct (Nat.eqb (length key) 32) eqn:Hk; cbn [negb]; try discriminate.
  apply Nat.eqb_eq in Hiv, Hk. intro H. inversion H. auto.
Qed.

Lemma createCipheriv_aes256ctr key iv :
  length iv = 16 -> length key = 32 ->
  createCipheriv Config.ENCRYPTION_ALGORITHM key iv = Ok (init key iv).
Proof.
  intros Hiv Hk. unfold createCipheriv, Config.ENCRYPTION_ALGORITHM.
  rewrite Hiv, Hk. reflexivity.
Qed.

End CryptoFacts.

(** ** Buffers *)
Module BufferFacts.
Import Buffer.

Lemma slice_0 (b : t) (n : nat) : slice b 0 (Z.of_nat n) = firstn n b.
Proof.
  unfold slice, slice_index. cbn [Z.ltb Z.compare Z.to_nat].
  destruct (Z.of_nat n <? 0)%Z eqn:E; [apply Z.ltb_lt in E; lia|].
  rewrite Nat2Z.id, Nat.min_0_l, Nat.sub_0_r. cbn [skipn].
  destruct (Nat.le_ge_cases n (length b)) as [H|H].
  - now rewrite Nat.min_l.
  - rewrite Nat.min_r by assumption.
    now rewrite !firstn_all2 by lia.
Qed.

Lemma slice_from_skipn (b : t) (n : nat) :
  slice_from b (Z.of_nat n) = skipn n b.
Proof.
  unfold slice_from, slice, slice_index.
  destruct (Z.of_nat n <? 0)%Z eqn:E; [apply Z.ltb_lt in E; lia|].
  destruct (Z.of_nat (length b) <? 0)%Z eqn:E'; [apply Z.ltb_lt in E'; lia|].
  rewrite !Nat2Z.id, Nat.min_id.
  destruct (Nat.le_ge_cases n (length b)) as [H|H].
  - rewrite Nat.min_l by assumption.
    apply firstn_all2. rewrite length_skipn. lia.
  - rewrite Nat.min_r by assumption.
    rewrite Nat.sub_diag. cbn [firstn].
    symmetry. apply skipn_all2. assumption.
Qed.

Lemma firstn_app_exact {A} (a b : list A) n :
  length a = n -> firstn n (a ++ b) = a.
Proof.
  intros <-. rewrite firstn_app, Nat.sub_diag, firstn_all. cbn.
  apply app_nil_r.
Qed.

Lemma skipn_app_exact {A} (a b : list A) n :
  length a = n -> skipn n (a ++ b) = b.
Proof.
  intros <-. rewrite skipn_app, Nat.sub_diag, skipn_all. reflexivity.
Qed.

End BufferFacts.

(** ** [encryptBytes] and [decryptBytes] *)
Module IndexFacts.
Import Index.

Lemma update_final_fresh key iv data :
  (' (c1, out) <- Crypto.update (Crypto.init key iv) data ;;
   ' (_, final) <- Crypto.final c1 ;;
   Ok (out, final))%res
  = Ok (snd (Crypto.ctr128_encrypt (Crypto.init key iv) data), []).
Proof.
  unfold Crypto.update. cbn [Crypto.init Crypto.finalized rbind].
  pose proof (CryptoFacts.ctr128_encrypt_finalized data (Crypto.init key iv))
    as Hf.
  unfold Crypto.init in Hf.
  destruct (Crypto.ctr128_encrypt _ data) as [c1 out].
  cbn [fst snd Crypto.finalized] in *.
  unfold Crypto.final. rewrite Hf. reflexivity.
Qed.

(** When [encryptBytes] returns, the note decoded to 16 bytes, the key has
    32 bytes, and the result is the note followed by the counter-mode
    output for the data. *)
Lemma encryptBytes_inv data note sig payload :
  encryptBytes data note sig = Ok payload ->
  length (Buffer.from note) = 16 /\
  length (signedEncryptionNoteToKey sig) = 32 /\
  payload =
  Buffer.from note
  ++ snd (Crypto.ctr128_encrypt
            (Crypto.init (signedEncryptionNoteToKey sig) (Buffer.from note))
            data).
Proof.
  unfold encryptBytes, _createCipher. intro H.
  destruct (Crypto.createCipheriv _ _ _) as [c|e] eqn:Hc; [|discriminate].
  apply CryptoFacts.createCipheriv_ok in Hc as (Hiv & Hk & ->).
  cbn [rbind] in H.
  pose proof (update_final_fresh (signedEncryptionNoteToKey sig)
                                 (Buffer.from note) data) as U.
  destruct (Crypto.update _ data) as [[c1 out]|e]; cbn [rbind] in *;
    [|discriminate].
  destruct (Crypto.final c1) as [[c2 fin]|e]; cbn [rbind] in *;
    [|discriminate].
  inversion U; subst. inversion H; subst.
  cbn [Buffer.concat List.concat]. rewrite !app_nil_r. auto.
Qed.

Lemma encryptBytes_ok data note sig :
  length (Buffer.from note) = 16 ->
  length (signedEncryptionNoteToKey sig) = 32 ->
  encryptBytes data note sig =
  Ok (Buffer.from note
      ++ snd (Crypto.ctr128_encrypt
                (Crypto.init (signedEncryptionNoteToKey sig)
                             (Buffer.from note)) data)).
Proof.
  intros Hiv Hk. unfold encryptBytes, _createCipher.
  rewrite CryptoFacts.createCipheriv_aes256ctr by assumption.
  cbn [rbind].
  pose proof (update_final_fresh (signedEncryptionNoteToKey sig)
                                 (Buffer.from note) data) as U.
  destruct (Crypto.update _ data) as [[c1 out]|e]; cbn [rbind] in *;
    [|discriminate].
  destruct (Crypto.final c1) as [[c2 fin]|e]; cbn [rbind] in *;
    [|discriminate].
  inversion U; subst.
  cbn [Buffer.concat List.concat]. now rewrite !app_nil_r.
Qed.

Lemma decryptBytes_ok data sig :
  16 <= length data ->
  length (signedEncryptionNoteToKey sig) = 32 ->
  decryptBytes data sig =
  Ok (snd (Crypto.ctr128_encrypt
             (Crypto.init (signedEncryptionNoteToKey sig) (firstn 16 data))
             (skipn 16 data))).
Proof.
  intros Hlen Hk. unfold decryptBytes, _createDecipher, Crypto.createDecipheriv.
  change Config.ENCRYPTION_IV_SIZE with (Z.of_nat 16).
  rewrite BufferFacts.slice_0, BufferFacts.slice_from_skipn.
  cbn [Buffer.from].
  rewrite CryptoFacts.createCipheriv_aes256ctr
    by (try assumption; rewrite length_firstn; lia).
  cbn [rbind].
  pose proof (update_final_fresh (signedEncryptionNoteToKey sig)
                                 (firstn 16 data) (skipn 16 data)) as U.
  destruct (Crypto.update _ (skipn 16 data)) as [[c1 out]|e];
    cbn [rbind] in *; [|discriminate].
  destruct (Crypto.final c1) as [[c2 fin]|e]; cbn [rbind] in *;
    [|discriminate].
  inversion U; subst.
  cbn [Buffer.concat List.concat]. now rewrite !app_nil_r.
Qed.

End IndexFacts.

(** ** JavaScript strings and hex decoding *)
Module StringFacts.
Import JsString Hex.
Local Open Scope string_scope.

Lemma string_pair_ind (P : string -> Prop) :
  P "" -> (forall a, P (String a "")) ->
  (forall a b s, P s -> P (String a (String b s))) ->
  forall s, P s.
Proof.
  intros H0 H1 H2 s.
  enough (P s /\ forall a, P (String a s)) by tauto.
  induction s as [|c s [IHs IHs']]; split; auto.
Qed.

Lemma append_nil_r s : s ++ "" = s.
Proof. induction s; cbn; congruence. Qed.

Lemma append_assoc a b c : (a ++ b) ++ c = a ++ (b ++ c).
Proof. induction a; cbn; congruence. Qed.

Lemma length_append a b :
  String.length (a ++ b) = String.length a + String.length b.
Proof. induction a; cbn; congruence. Qed.

Lemma take_0 s : take 0 s = "".
Proof. now destruct s. Qed.

Lemma take_all n s : String.length s <= n -> take n s = s.
Proof.
  revert n. induction s as [|c s IH]; intros [|n] H; cbn in *;
    try reflexivity; try lia.
  now rewrite IH by lia.
Qed.

Lemma length_take n s : String.length (take n s) = Nat.min n (String.length s).
Proof.
  revert n. induction s as [|c s IH]; intros [|n]; cbn; auto.
Qed.

Lemma take_append_le n a b :
  n <= String.length a -> take n (a ++ b) = take n a.
Proof.
  revert n. induction a as [|c a IH]; intros [|n] H; cbn in *;
    try reflexivity; try lia.
  now rewrite IH by lia.
Qed.

Lemma drop_append_exact a b : drop (String.length a) (a ++ b) = b.
Proof. induction a; cbn; [now destruct b|assumption]. Qed.

Lemma take_drop n s : take n s ++ drop n s = s.
Proof.
  revert n. induction s as [|c s IH]; intros [|n]; cbn; try reflexivity.
  now rewrite IH.
Qed.

(** [s.substring(0, n)] is the first [n] characters (all of [s] when it
    is shorter). *)
Lemma substring_0 s n : substring s 0 (Z.of_nat n) = take n s.
Proof.
  unfold substring, clamp. cbn [Z.ltb Z.compare Z.to_nat].
  destruct (Z.of_nat n <? 0)%Z eqn:E; [apply Z.ltb_lt in E; lia|].
  rewrite Nat2Z.id, !Nat.min_0_l, Nat.max_0_l, Nat.sub_0_r.
  cbn [drop].
  destruct (Nat.le_ge_cases n (String.length s)) as [H|H].
  - now rewrite Nat.min_l.
  - rewrite Nat.min_r by assumption.
    now rewrite !take_all by lia.
Qed.

Lemma prefix_iff p s : String.prefix p s = true <-> exists b, s = p ++ b.
Proof.
  revert s. induction p as [|c p IH]; intro s.
  - split; [intros _; now exists s | now destruct s].
  - destruct s as [|c' s]; cbn.
    + split; [discriminate | intros [b H]; discriminate].
    + destruct (Ascii.ascii_dec c c') as [->|Hne].
      * rewrite IH. split; intros [b H]; exists b; congruence.
      * split; [discriminate | intros [b H]; congruence].
Qed.

Lemma replace_cases pat s :
  ((forall a b, s <> a ++ pat ++ b) /\ replace pat "" s = s) \/
  (exists a b,
      s = a ++ pat ++ b /\
      (forall a' b', s = a' ++ pat ++ b' ->
                     String.length a <= String.length a') /\
      replace pat "" s = a ++ b).
Proof.
  induction s as [|c s IH].
  - cbn [replace]. destruct (String.prefix pat "") eqn:E.
    + apply prefix_iff in E as [b E].
      destruct pat; [|discriminate]. destruct b; [|discriminate].
      right. exists "", "". cbn. repeat split; auto. intros. lia.
    + left. split; [|reflexivity]. intros a b H.
      destruct a; [|discriminate]. cbn in H.
      assert (String.prefix pat "" = true) by (apply prefix_iff; eauto).
      congruence.
  - cbn [replace]. destruct (String.prefix pat (String c s)) eqn:E.
    + apply prefix_iff in E as [b E]. rewrite E.
      rewrite drop_append_exact. right. exists "", b. cbn [append].
      repeat split; auto. intros. cbn. lia.
    + assert (Hhead : forall a b, String c s = a ++ pat ++ b ->
                exists a', a = String c a' /\ s = a' ++ pat ++ b).
      { intros a b H. destruct a as [|c' a'].
        - cbn in H.
          assert (String.prefix pat (String c s) = true)
            by (apply prefix_iff; eauto).
          congruence.
        - cbn in H. inversion H; subst. eauto. }
      destruct IH as [[Habs Hr] | (a & b & Hs & Hmin & Hr)].
      * left. rewrite Hr. split; [|reflexivity]. intros a b H.
        apply Hhead in H as (a' & -> & H). now apply (Habs a' b).
      * right. exists (String c a), b. rewrite Hr.
        cbn [append String.length]. repeat split; [congruence|].
        intros a' b' H. apply Hhead in H as (a3 & -> & H).
        cbn [String.length]. apply Hmin in H. lia.
Qed.

(** [replace] removes the first occurrence and nothing else. *)
Lemma replace_first_removed pat s : first_removed pat s (replace pat "" s).
Proof.
  destruct (replace_cases pat s) as [[Habs ->] | (a & b & -> & Hmin & ->)].
  - now apply fr_absent.
  - now apply fr_first.
Qed.

Lemma is_hex_not_x c : is_hex c = true -> c <> "x"%char.
Proof. intros H ->. discriminate. Qed.

(** A text of hexadecimal digits holds no ["0x"] and is left alone. *)
Lemma replace_hex_string s :
  hex_string s = true -> replace "0x" "" s = s.
Proof.
  induction s as [|c s IH]; intro H; [reflexivity|].
  cbn in H. apply andb_prop in H as [Hc Hs].
  cbn [replace]. rewrite IH by assumption.
  destruct (String.prefix "0x" (String c s)) eqn:E; [|reflexivity].
  apply prefix_iff in E as [b E]. cbn in E. inversion E; subst.
  cbn in Hs. discriminate.
Qed.

Lemma replace_0x_prefix s : replace "0x" "" ("0x" ++ s) = s.
Proof. cbn. destruct s; reflexivity. Qed.

Lemma hex_string_append a b :
  hex_string (a ++ b) = hex_string a && hex_string b.
Proof.
  induction a as [|c a IH]; cbn; [reflexivity|].
  now rewrite IH, andb_assoc.
Qed.

Lemma hex_string_take n s : hex_string s = true -> hex_string (take n s) = true.
Proof.
  revert n. induction s as [|c s IH]; intros [|n] H; cbn in *;
    try reflexivity.
  apply andb_prop in H as [-> Hs]. cbn. auto.
Qed.

End StringFacts.

Module HexFacts.
Import Buffer Hex StringFacts.
Local Open Scope string_scope.

Lemma from_hex_pair a b rest :
  is_hex a = true -> is_hex b = true ->
  exists x, from_hex (String a (String b rest)) = x :: from_hex rest.
Proof.
  unfold is_hex. intros Ha Hb. cbn [from_hex].
  destruct (unhex a), (unhex b); try discriminate. eauto.
Qed.

(** Decoding a text of hexadecimal digits gives a byte for every two. *)
Lemma length_from_hex s :
  hex_string s = true -> length (from_hex s) = String.length s / 2.
Proof.
  induction s as [|a|a b s IH] using string_pair_ind; intro H;
    try reflexivity.
  cbn [hex_string] in H.
  apply andb_prop in H as [Ha H]. apply andb_prop in H as [Hb H].
  destruct (from_hex_pair a b s Ha Hb) as [x ->].
  cbn [length String.length]. rewrite IH by assumption.
  change (S (S (String.length s))) with (2 + String.length s).
  replace (2 + String.length s) with (String.length s + 1 * 2) by lia.
  rewrite Nat.div_add by lia. lia.
Qed.

(** Decoding never gives more than a byte for every two characters. *)
Lemma length_from_hex_le s : 2 * length (from_hex s) <= String.length s.
Proof.
  induction s as [|a|a b s IH] using string_pair_ind;
    cbn [from_hex length String.length]; try lia.
  destruct (unhex a), (unhex b); cbn [length]; lia.
Qed.

(** What is decoded is the longest prefix made of pairs of hexadecimal
    digits. *)
Lemma from_hex_split s :
  exists h r,
    s = h ++ r /\ hex_string h = true /\
    String.length h = 2 * length (from_hex s) /\
    stops r /\ from_hex s = from_hex h.
Proof.
  induction s as [|a|a b s IH] using string_pair_ind.
  - exists "", "". cbn. auto.
  - exists "", (String a ""). cbn. auto.
  - destruct (is_hex a && is_hex b) eqn:E.
    + apply andb_prop in E as [Ha Hb].
      destruct IH as (h & r & -> & Hh & Hlen & Hr & Hd).
      exists (String a (String b h)), r.
      unfold is_hex in Ha, Hb. cbn [from_hex hex_string].
      unfold is_hex.
      destruct (unhex a), (unhex b); try discriminate.
      cbn [length String.length append andb].
      repeat split; auto; try lia. now rewrite Hd.
    + exists "", (String a (String b s)).
      cbn [append hex_string String.length stops].
      assert (from_hex (String a (String b s)) = []) as ->.
      { cbn [from_hex]. unfold is_hex in E.
        destruct (unhex a), (unhex b); try reflexivity; discriminate. }
      cbn. auto.
Qed.

(** Encoding then decoding a buffer gives it back. *)
Lemma from_hex_toString_hex (b : Buffer.t) : from_hex (toString_hex b) = b.
Proof.
  induction b as [|x b IH]; [reflexivity|].
  cbn [toString_hex from_hex]. rewrite IH.
  destruct x; reflexivity.
Qed.

End HexFacts.

(** ** Key derivation *)
Module KeyFacts.
Import Index Hex StringFacts HexFacts.
Local Open Scope string_scope.

(** For a text of hexadecimal digits, with or without the ["0x"] prefix,
    the key is decoded from the first 64 digits. *)
Lemma key_of_hex_body pre body :
  pre = "" \/ pre = "0x" -> hex_string body = true ->
  signedEncryptionNoteToKey (pre ++ body) =
  Buffer.from_hex (JsString.take 64 body).
Proof.
  intros Hpre Hbody. unfold signedEncryptionNoteToKey.
  change (Config.ENCRYPTION_KEY_SIZE * 2)%Z with (Z.of_nat 64).
  rewrite substring_0.
  destruct Hpre as [-> | ->].
  - cbn [append]. now rewrite replace_hex_string.
  - now rewrite replace_0x_prefix.
Qed.

Lemma key_length_of_hex_body pre body :
  pre = "" \/ pre = "0x" -> hex_string body = true ->
  length (signedEncryptionNoteToKey (pre ++ body)) =
  Nat.min 64 (String.length body) / 2.
Proof.
  intros Hpre Hbody. rewrite key_of_hex_body by assumption.
  rewrite length_from_hex by now apply hex_string_take.
  now rewrite length_take.
Qed.

(** Digits followed by a text that does not begin with [x]: the first
    ["0x"], if there is one, lies after the digits. *)
Lemma replace_digits_then_any h rest :
  hex_string h = true ->
  String.prefix "x" rest = false ->
  exists t, JsString.replace "0x" "" (h ++ rest) = h ++ t.
Proof.
  induction h as [|c h IH]; intros Hh Hrest.
  - exists (JsString.replace "0x" "" rest). reflexivity.
  - cbn [hex_string] in Hh. apply andb_prop in Hh as [Hc Hh].
    destruct (IH Hh Hrest) as [t Ht].
    exists t. cbn [append JsString.replace]. rewrite Ht.
    destruct (String.prefix "0x" (String c (h ++ rest))) eqn:E;
      [|reflexivity].
    apply prefix_iff in E as [b E]. cbn in E. inversion E; subst.
    destruct h as [|c' h].
    + cbn [append] in H1. subst rest.
      assert (String.prefix "x" (String "x" b) = true)
        by (apply prefix_iff; now exists b).
      congruence.
    + cbn [append] in H1. inversion H1; subst. discriminate.
Qed.

(** With the prefix, or when no [x] follows them, the first 64 digits
    alone make the key, whatever comes after. *)
Lemma key_of_64_digits_then_any pre h rest :
  hex_string h = true -> String.length h = 64 ->
  (pre = "0x" \/ (pre = "" /\ String.prefix "x" rest = false)) ->
  signedEncryptionNoteToKey (pre ++ h ++ rest) = Buffer.from_hex h.
Proof.
  intros Hh Hlen Hpre. unfold signedEncryptionNoteToKey.
  change (Config.ENCRYPTION_KEY_SIZE * 2)%Z with (Z.of_nat 64).
  rewrite substring_0.
  destruct Hpre as [-> | [-> Hrest]].
  - rewrite replace_0x_prefix, take_append_le by lia.
    now rewrite take_all by lia.
  - cbn [append]. destruct (replace_digits_then_any h rest Hh Hrest) as [t ->].
    rewrite take_append_le by lia. now rewrite take_all by lia.
Qed.

(** Whatever the text, the key has at most 32 bytes. *)
Lemma key_length_le s : length (signedEncryptionNoteToKey s) <= 32.
Proof.
  unfold signedEncryptionNoteToKey.
  change (Config.ENCRYPTION_KEY_SIZE * 2)%Z with (Z.of_nat 64).
  rewrite substring_0.
  pose proof (length_from_hex_le
                (JsString.take 64 (JsString.replace "0x" "" s))) as H.
  rewrite length_take in H. lia.
Qed.

End KeyFacts.

(** ** Files: the bounded read of the note *)
Module FsFacts.
Import Fs FsUtils.

Lemma skipn_repeat {A} (x : A) n m : skipn n (repeat x m) = repeat x (m - n).
Proof.
  revert m. induction n as [|n IH]; intros [|m]; cbn; auto.
Qed.

Lemma fd_path_fresh fd path l : fd_path fd ((fd, path) :: l) = Some path.
Proof. cbn. now rewrite Nat.eqb_refl. Qed.

Lemma fd_path_removed fd l : fd_path fd (fd_remove fd l) = None.
Proof.
  induction l as [|[fd' p] l IH]; [reflexivity|].
  unfold fd_remove in *. cbn [filter fst].
  destruct (Nat.eqb fd fd') eqn:E; cbn [negb]; [assumption|].
  cbn [fd_path]. now rewrite E.
Qed.

Lemma readSync_0 fd buffer offset length :
  readSync fd buffer offset length 0 =
  (got <- pread fd length 0 ;;
   let n := List.length got in
   ret (n, firstn offset buffer ++ got ++ skipn (offset + n) buffer))%io.
Proof. reflexivity. Qed.

Lemma partialReadSync_0_16 path :
  partialReadSync path 0 16 =
  (fd <- openSync_r path ;;
   ' (_, buf') <- readSync fd (Buffer.alloc 16) 0 16 0 ;;
   closeSync fd ;;;
   ret buf')%io.
Proof. reflexivity. Qed.

(** On a regular file, [partialReadSync(path, 0, 16)] opens, reads once at
    offset 0 for 16 bytes, closes, and returns what was read followed by
    what is left of the zero-filled buffer. *)
Lemma partialReadSync_file w path content :
  lookup path (files w) = Some (File content) ->
  partialReadSync path 0 16 w =
  (Ok (firstn 16 content ++ repeat x00 (16 - length (firstn 16 content))),
   mkWorld (files w) (fd_remove (next_fd w) ((next_fd w, path) :: fds w))
           (S (next_fd w))
           (log w ++ [EvOpen path "r" (next_fd w);
                      EvRead (next_fd w) 16 0
                             (N.of_nat (length (firstn 16 content)));
                      EvClose (next_fd w)])).
Proof.
  intro H. rewrite partialReadSync_0_16.
  unfold bind at 1. unfold openSync_r. rewrite H. unfold alloc_fd.
  unfold bind at 1. rewrite readSync_0. unfold bind at 1. unfold pread.
  cbn [fds files next_fd log]. rewrite fd_path_fresh, H.
  cbn [ret skipn firstn app Nat.add].
  unfold bind, closeSync, ret. cbn [fds files next_fd log].
  rewrite fd_path_fresh. unfold Buffer.alloc.
  rewrite skipn_repeat, <- !app_assoc. reflexivity.
Qed.

(** On a directory the descriptor is opened, the read raises, and the
    call to [closeSync] is never reached. *)
Lemma partialReadSync_dir w path :
  lookup path (files w) = Some Dir ->
  partialReadSync path 0 16 w =
  (Throw EISDIR,
   mkWorld (files w) ((next_fd w, path) :: fds w) (S (next_fd w))
           (log w ++ [EvOpen path "r" (next_fd w)])).
Proof.
  intro H. rewrite partialReadSync_0_16.
  unfold bind at 1. unfold openSync_r. rewrite H. unfold alloc_fd.
  unfold bind at 1. rewrite readSync_0. unfold bind at 1. unfold pread.
  cbn [fds files next_fd log]. rewrite fd_path_fresh, H. reflexivity.
Qed.

Lemma partialReadSync_missing w path :
  lookup path (files w) = None ->
  partialReadSync path 0 16 w = (Throw (ENOENT path), w).
Proof.
  intro H. rewrite partialReadSync_0_16.
  unfold bind at 1. unfold openSync_r. now rewrite H.
Qed.

End FsFacts.

(** ** Event logs *)
Module TraceFacts.
Import Fs Trace.

Lemma appends_ret {A} (a : A) : appends (ret a).
Proof.
  intros w r w' H. inversion H; subst. exists []. now rewrite app_nil_r.
Qed.

Lemma appends_throw {A} e : appends (@throw A e).
Proof.
  intros w r w' H. inversion H; subst. exists []. now rewrite app_nil_r.
Qed.

Lemma appends_lift {A} (x : result A) : appends (lift x).
Proof.
  intros w r w' H. inversion H; subst. exists []. now rewrite app_nil_r.
Qed.

Lemma appends_emit e : appends (emit e).
Proof. intros w r w' H. inversion H; subst. cbn. eauto. Qed.

Lemma appends_bind {A B} (m : M A) (k : A -> M B) :
  appends m -> (forall a, appends (k a)) -> appends (bind m k).
Proof.
  intros Hm Hk w r w' H. unfold bind in H.
  destruct (m w) as [[a|e] w1] eqn:E.
  - apply Hm in E as [n1 E]. apply Hk in H as [n2 H].
    exists (n1 ++ n2). now rewrite H, E, app_assoc.
  - inversion H; subst. now apply Hm in E.
Qed.

Ltac prim :=
  let H := fresh "H" in
  intros ? ? ? H;
  repeat match type of H with
         | context [match ?x with _ => _ end] => destruct x
         end;
  inversion H; subst; cbn [log];
  solve [eauto | exists []; now rewrite app_nil_r].

Lemma appends_existsSync path : appends (existsSync path).
Proof. unfold existsSync. prim. Qed.

Lemma appends_openSync_r path : appends (openSync_r path).
Proof. unfold openSync_r, alloc_fd. prim. Qed.

Lemma appends_openSync_w path : appends (openSync_w path).
Proof. unfold openSync_w, alloc_fd. prim. Qed.

Lemma appends_pread fd len pos : appends (pread fd len pos).
Proof. unfold pread. prim. Qed.

Lemma appends_writeSync fd data : appends (writeSync fd data).
Proof. unfold writeSync. prim. Qed.

Lemma appends_closeSync fd : appends (closeSync fd).
Proof. unfold closeSync. prim. Qed.

Lemma appends_read_loop hwm fuel :
  forall fd pos, appends (read_loop hwm fuel fd pos).
Proof.
  induction fuel as [|fuel IH]; intros fd pos; cbn [read_loop].
  - apply appends_ret.
  - apply appends_bind; [apply appends_pread|].
    intros [|b chunk]; [apply appends_ret|].
    apply appends_bind; [apply IH|]. intro. apply appends_ret.
Qed.

Lemma appends_autoClose {A} fd (m : M A) :
  appends m -> appends (autoClose fd m).
Proof.
  intros Hm w r w' H. unfold autoClose in H.
  destruct (m w) as [[a|e] w1] eqn:E; apply Hm in E as [n1 E];
    (assert (Hc : exists n2, log w' = log w1 ++ n2);
     [ revert H; apply appends_bind; [apply appends_closeSync|]; intro;
       (apply appends_ret || apply appends_throw)
     | destruct Hc as [n2 Hc]; exists (n1 ++ n2);
       now rewrite Hc, E, app_assoc ]).
Qed.

Lemma appends_read_to_end rs : appends (read_to_end rs).
Proof.
  intros w r w' H. unfold read_to_end in H. revert H.
  apply appends_bind; [apply appends_openSync_r|]. intro fd.
  apply appends_autoClose, appends_read_loop.
Qed.

Lemma appends_write_chunks fd chunks : appends (write_chunks fd chunks).
Proof.
  induction chunks as [|c cs IH]; cbn [write_chunks].
  - apply appends_ret.
  - apply appends_bind; [apply appends_writeSync|]. now intro.
Qed.

Lemma appends_pipe_to_file src fd : appends (pipe_to_file src fd).
Proof. apply appends_autoClose, appends_write_chunks. Qed.

(** Resolving the output name only looks at the file system. *)
Lemma resolveOutputFile_pure fuel :
  forall name i w, snd (FsUtils.resolveOutputFile fuel name i w) = w.
Proof.
  induction fuel as [|fuel IH]; intros name i w;
    cbn [FsUtils.resolveOutputFile]; unfold bind, existsSync;
    destruct (lookup _ (files w)); cbn; auto.
Qed.

(** [encryptFileAsStream] either throws before it touches the world, or
    its first event is the creation of the cipher. *)
Lemma encryptFileAsStream_log input output note sig w r w' :
  Index.encryptFileAsStream input output note sig w = (r, w') ->
  (w' = w /\ exists e, r = Throw e)
  \/ exists rest, log w' = log w ++ EvCipherCreated :: rest.
Proof.
  unfold Index.encryptFileAsStream. unfold bind at 1, lift at 1.
  destruct (Index._createCipher note sig) as [c|e].
  - intro H. right. unfold bind at 1, emit at 1 in H.
    revert H.
    set (w1 := mkWorld (files w) (fds w) (next_fd w)
                       (log w ++ [EvCipherCreated])).
    intro H.
    assert (Happ : exists new, log w' = log w1 ++ new).
    { revert H. apply appends_bind; [apply appends_openSync_w|]. intro fd.
      apply appends_bind; [apply appends_read_to_end|]. intro plain.
      apply appends_bind; [apply appends_lift|]. intro encrypted.
      apply appends_bind; [apply appends_lift|]. intro framed.
      apply appends_pipe_to_file. }
    destruct Happ as [new Happ]. exists new.
    rewrite Happ. subst w1. cbn [log]. now rewrite <- app_assoc.
  - intro H. inversion H; subst. left. eauto.
Qed.

Lemma preceded_by_prefix p q pre rest :
  (forall e, In e pre -> q e = false) ->
  (exists e', In e' pre /\ p e' = true) ->
  preceded_by p q (pre ++ rest).
Proof.
  intros Hq [e' [Hin Hp]] l1 e l2 Heq He.
  apply app_eq_app in Heq as [l [[H1 H2] | [H1 H2]]].
  - destruct l as [|x l].
    + rewrite app_nil_r in H1. subst. eauto.
    + cbn in H2. inversion H2; subst.
      rewrite Hq in He; [discriminate|].
      apply in_or_app. right. now left.
  - subst. exists e'. split; [|assumption]. apply in_or_app. now left.
Qed.

Lemma preceded_by_none p q l :
  (forall e, In e l -> q e = false) -> preceded_by p q l.
Proof.
  intros Hq l1 e l2 Heq He. rewrite Hq in He; [discriminate|].
  subst. apply in_or_app. right. now left.
Qed.

End TraceFacts.

(** ** Transforms and pipes *)
Module StreamFacts.
Import Stream FsUtils.

Lemma concat_push out c : concat (push out c) = concat out ++ c.
Proof.
  destruct c as [|b c]; cbn [push].
  - now rewrite app_nil_r.
  - rewrite concat_app. cbn. now rewrite app_nil_r.
Qed.

(** Pushing a list of chunks queues those that are not empty, in order. *)
Lemma fold_left_push chunks :
  forall out, fold_left push chunks out = out ++ filter nonempty chunks.
Proof.
  induction chunks as [|c cs IH]; intro out; cbn [fold_left filter].
  - now rewrite app_nil_r.
  - rewrite IH. destruct c; cbn [push nonempty]; [reflexivity|].
    now rewrite <- app_assoc.
Qed.

Lemma concat_filter_nonempty chunks :
  concat (filter nonempty chunks) = concat chunks.
Proof.
  induction chunks as [|[|b c] cs IH]; cbn [filter nonempty concat];
    [reflexivity|assumption|].
  now rewrite IH.
Qed.

(** Once the header is out, [PrependInitializationVector] forwards. *)
Lemma prepend_write_all_prepended iv chunks :
  forall out,
    write_all (mkPrepend iv true) out chunks
    = Ok (mkPrepend iv true, fold_left push chunks out).
Proof.
  induction chunks as [|c cs IH]; intro out; [reflexivity|].
  cbn [write_all _transform PrependInitializationVector_Transform rbind
       PrependInitializationVector_transform prepended negb fold_left].
  apply IH.
Qed.

(** What [PrependInitializationVector] emits: nothing when no chunk is
    written to it; otherwise the header once, on the first chunk (even
    an empty one), then the chunks. *)
Lemma prepend_pipe iv chunks :
  pipe chunks (new_PrependInitializationVector iv)
  = Ok (match chunks with
        | [] => []
        | _ :: _ => filter nonempty (iv :: chunks)
        end).
Proof.
  unfold pipe, new_PrependInitializationVector.
  destruct chunks as [|c cs]; [reflexivity|].
  cbn [write_all _transform PrependInitializationVector_Transform rbind
       PrependInitializationVector_transform prepended negb FsUtils.iv].
  rewrite prepend_write_all_prepended.
  cbn [rbind _flush PrependInitializationVector_Transform default_flush].
  rewrite fold_left_push.
  destruct iv, c; reflexivity.
Qed.

(** The cipher as a transform: what it has pushed, put end to end, is the
    counter-mode output for the chunks put end to end. *)
Lemma cipher_write_all chunks :
  forall c out,
    Crypto.finalized c = false ->
    exists out',
      write_all c out chunks
      = Ok (fst (Crypto.ctr128_encrypt c (concat chunks)), out') /\
      concat out'
      = concat out ++ snd (Crypto.ctr128_encrypt c (concat chunks)).
Proof.
  induction chunks as [|x xs IH]; intros c out Hf.
  - exists out. cbn. now rewrite app_nil_r.
  - cbn [write_all _transform Cipher_Transform concat].
    unfold Crypto.update. rewrite Hf. cbn [rbind].
    rewrite CryptoFacts.ctr128_encrypt_app.
    destruct (Crypto.ctr128_encrypt c x) as [c1 o] eqn:E. cbn [rbind fst snd].
    assert (Hf1 : Crypto.finalized c1 = false).
    { replace c1 with (fst (Crypto.ctr128_encrypt c x)) by now rewrite E.
      now rewrite CryptoFacts.ctr128_encrypt_finalized. }
    destruct (IH c1 (push out o) Hf1) as (out' & -> & Hout).
    exists out'. split; [reflexivity|].
    now rewrite Hout, concat_push, app_assoc.
Qed.

Lemma cipher_pipe chunks c :
  Crypto.finalized c = false ->
  exists encrypted,
    pipe chunks c = Ok encrypted /\
    concat encrypted = snd (Crypto.ctr128_encrypt c (concat chunks)).
Proof.
  intro Hf. unfold pipe.
  destruct (cipher_write_all chunks c [] Hf) as (out' & -> & Hout).
  cbn [rbind _flush Cipher_Transform]. unfold Crypto.final.
  rewrite CryptoFacts.ctr128_encrypt_finalized, Hf.
  cbn [rbind push]. eauto.
Qed.

End StreamFacts.

(** ** File streams *)
Module FileStreamFacts.
Import Fs.

Lemma lookup_store_eq {A} k (v : A) l : lookup k (store k v l) = Some v.
Proof.
  induction l as [|[k' v'] l IH]; cbn [store lookup].
  - now rewrite String.eqb_refl.
  - destruct (String.eqb k k') eqn:E; cbn [lookup]; rewrite ?E;
      [now rewrite String.eqb_refl | assumption].
Qed.

Lemma lookup_store_neq {A} k k' (v : A) l :
  k <> k' -> lookup k (store k' v l) = lookup k l.
Proof.
  intro Hne. induction l as [|[k2 v2] l IH]; cbn [store lookup].
  - apply String.eqb_neq in Hne. now rewrite Hne.
  - destruct (String.eqb k' k2) eqn:E; cbn [lookup].
    + apply String.eqb_eq in E. subst k2.
      apply String.eqb_neq in Hne. now rewrite Hne.
    + now rewrite IH.
Qed.

Lemma store_same {A} k (v : A) l : lookup k l = Some v -> store k v l = l.
Proof.
  induction l as [|[k' v'] l IH]; cbn [store lookup]; [discriminate|].
  destruct (String.eqb k k') eqn:E.
  - intro H. inversion H. apply String.eqb_eq in E. now subst.
  - intro H. now rewrite IH.
Qed.

Lemma store_store {A} k (v v' : A) l :
  store k v (store k v' l) = store k v l.
Proof.
  induction l as [|[k2 v2] l IH]; cbn [store].
  - now rewrite String.eqb_refl.
  - destruct (String.eqb k k2) eqn:E; cbn [store]; rewrite ?E;
      [now rewrite String.eqb_refl | now rewrite IH].
Qed.

Lemma firstn_skipn_length {A} n (l : list A) :
  firstn n l ++ skipn (length (firstn n l)) l = l.
Proof.
  revert n. induction l as [|x l IH]; intros [|n]; cbn; try reflexivity.
  now rewrite IH.
Qed.

(** The read loop hands out the file from [position] on, in chunks that
    are not empty, and only logs reads. *)
Lemma read_loop_file hwm fd path content :
  0 < hwm ->
  forall fuel position w,
    fd_path fd (fds w) = Some path ->
    lookup path (files w) = Some (File content) ->
    length content - position < fuel ->
    exists chunks evs,
      read_loop hwm fuel fd position w
      = (Ok chunks,
         mkWorld (files w) (fds w) (next_fd w) (log w ++ evs)) /\
      concat chunks = skipn position content /\
      Forall (fun c => Stream.nonempty c = true) chunks /\
      (forall e, In e evs -> exists l p n, e = EvRead fd l p n).
Proof.
  intro Hhwm. induction fuel as [|fuel IH];
    intros position w Hfd Hfile Hfuel; [lia|].
  cbn [read_loop]. unfold bind at 1, pread. rewrite Hfd, Hfile.
  destruct (firstn hwm (skipn position content)) as [|b got] eqn:E.
  - exists [], [EvRead fd (N.of_nat hwm) (N.of_nat position) (N.of_nat 0)].
    split; [reflexivity|]. split; [|split].
    + destruct hwm; [lia|].
      destruct (skipn position content); [reflexivity|discriminate].
    + constructor.
    + intros e [<-|[]]. eauto.
  - set (w1 := mkWorld (files w) (fds w) (next_fd w)
                       (log w ++ [EvRead fd (N.of_nat hwm) (N.of_nat position)
                                         (N.of_nat (length (b :: got)))])).
    assert (Hlen : 1 <= length content - position).
    { rewrite <- length_skipn.
      destruct (skipn position content); [|cbn; lia].
      destruct hwm; discriminate. }
    destruct (IH (position + length (b :: got)) w1 Hfd Hfile)
      as (chunks & evs & Hrun & Hcat & Hne & Hevs).
    { cbn [length] in *. lia. }
    unfold bind. rewrite Hrun. cbn [ret].
    exists ((b :: got) :: chunks),
           (EvRead fd (N.of_nat hwm) (N.of_nat position)
                   (N.of_nat (length (b :: got))) :: evs).
    split; [|split; [|split]].
    + subst w1. cbn [files fds next_fd log]. now rewrite <- app_assoc.
    + cbn [concat]. rewrite Hcat, <- E.
      rewrite (Nat.add_comm position), <- skipn_skipn.
      apply firstn_skipn_length.
    + now constructor.
    + intros e [<-|Hin]; eauto.
Qed.

Lemma highWaterMark_pos : 0 < highWaterMark.
Proof. unfold highWaterMark. lia. Qed.

(** A read stream on a regular file, run to its end: the chunks are the
    file from [start] on, and the descriptor is closed. *)
Lemma read_to_end_file path start w content :
  lookup path (files w) = Some (File content) ->
  exists chunks evs,
    read_to_end (mkReadStream path start) w
    = (Ok chunks,
       mkWorld (files w) (fd_remove (next_fd w) ((next_fd w, path) :: fds w))
               (S (next_fd w)) (log w ++ evs)) /\
    concat chunks = skipn start content /\
    Forall (fun c => Stream.nonempty c = true) chunks.
Proof.
  intro Hfile. unfold read_to_end. cbn [rs_path rs_start].
  unfold file_size. rewrite Hfile.
  unfold bind at 1, openSync_r. rewrite Hfile. unfold alloc_fd.
  set (w1 := mkWorld (files w) ((next_fd w, path) :: fds w) (S (next_fd w))
                     (log w ++ [EvOpen path "r" (next_fd w)])).
  destruct (read_loop_file highWaterMark (next_fd w) path content
              highWaterMark_pos (S (length content)) start w1)
    as (chunks & evs & Hrun & Hcat & Hne & _).
  { subst w1. cbn [fds]. apply FsFacts.fd_path_fresh. }
  { exact Hfile. }
  { lia. }
  unfold autoClose. rewrite Hrun.
  unfold bind, closeSync, ret. subst w1. cbn [files fds next_fd log].
  rewrite FsFacts.fd_path_fresh.
  exists chunks, ([EvOpen path "r" (next_fd w)] ++ evs
                  ++ [EvClose (next_fd w)]).
  split; [|split; assumption]. now rewrite <- !app_assoc.
Qed.

(** Writing chunks through a descriptor appends them to the file. *)
Lemma write_chunks_file fd path chunks :
  forall w content,
    fd_path fd (fds w) = Some path ->
    lookup path (files w) = Some (File content) ->
    write_chunks fd chunks w
    = (Ok tt,
       mkWorld (store path (File (content ++ concat chunks)) (files w))
               (fds w) (next_fd w) (log w ++ map (EvWrite fd) chunks)).
Proof.
  induction chunks as [|c cs IH]; intros w content Hfd Hfile.
  - cbn [write_chunks concat map ret]. rewrite !app_nil_r.
    rewrite store_same by assumption. now destruct w.
  - cbn [write_chunks]. unfold bind, writeSync. rewrite Hfd, Hfile.
    rewrite (IH _ (content ++ c)); cbn [files fds next_fd log];
      [|assumption|apply lookup_store_eq].
    now rewrite store_store, <- !app_assoc.
Qed.

Lemma concat_nil_nonempty (chunks : list Buffer.t) :
  concat chunks = [] ->
  Forall (fun c => Stream.nonempty c = true) chunks ->
  chunks = [].
Proof.
  intros Hcat Hne. destruct chunks as [|c cs]; [reflexivity|].
  inversion Hne; subst. destruct c; [discriminate|]. discriminate.
Qed.

Lemma fd_remove_S n input output l :
  fd_remove (S n) ((S n, input) :: (n, output) :: l)
  = (n, output) :: fd_remove (S n) l.
Proof.
  unfold fd_remove. cbn [filter fst]. rewrite Nat.eqb_refl. cbn [negb].
  assert (Nat.eqb (S n) n = false) as -> by (apply Nat.eqb_neq; lia).
  reflexivity.
Qed.

(** The streaming variant on a regular file.  The output file receives
    the note followed by the counter-mode output, as [encryptBytes]
    returns them, except for an empty input, where it receives nothing.
    Both descriptors are closed at the end. *)
Lemma encryptFileAsStream_file input output note sig w content :
  lookup input (files w) = Some (File content) ->
  input <> output ->
  open_w_error output (files w) = None ->
  length (Buffer.from note) = 16 ->
  length (Index.signedEncryptionNoteToKey sig) = 32 ->
  exists w',
    Index.encryptFileAsStream input output note sig w = (Ok tt, w') /\
    lookup output (files w')
    = Some (File (match content with
                  | [] => []
                  | _ :: _ =>
                      Buffer.from note
                      ++ snd (Crypto.ctr128_encrypt
                                (Crypto.init
                                   (Index.signedEncryptionNoteToKey sig)
                                   (Buffer.from note)) content)
                  end)) /\
    lookup input (files w') = Some (File content) /\
    fd_path (next_fd w) (fds w') = None /\
    fd_path (S (next_fd w)) (fds w') = None.
Proof.
  intros Hin Hneq Hout Hnote Hkey.
  unfold Index.encryptFileAsStream, Index._createCipher.
  rewrite CryptoFacts.createCipheriv_aes256ctr by assumption.
  set (c0 := Crypto.init (Index.signedEncryptionNoteToKey sig)
                         (Buffer.from note)).
  unfold bind at 1, lift at 1. unfold bind at 1, emit at 1.
  unfold bind at 1, createWriteStream, openSync_w. cbn [files].
  rewrite Hout.
  set (w2 := mkWorld (store output (File []) (files w))
                     ((next_fd w, output) :: fds w) (S (next_fd w))
                     ((log w ++ [EvCipherCreated])
                      ++ [EvOpen output "w" (next_fd w)])).
  change (alloc_fd output "w" (store output (File []) (files w))
                   (mkWorld (files w) (fds w) (next_fd w)
                            (log w ++ [EvCipherCreated])))
    with (@Ok nat (next_fd w), w2).
  assert (Hin2 : lookup input (files w2) = Some (File content)).
  { subst w2. cbn [files]. now rewrite lookup_store_neq. }
  destruct (read_to_end_file input 0 w2 content Hin2)
    as (plain & evs & Hread & Hcat & Hne).
  unfold createReadStream. unfold bind at 1. rewrite Hread.
  cbn [skipn] in Hcat.
  assert (Hf : Crypto.finalized c0 = false) by reflexivity.
  destruct (StreamFacts.cipher_pipe plain c0 Hf) as (encrypted & Henc & Hcat').
  unfold bind at 1, lift at 1. rewrite Henc.
  unfold bind at 1, lift at 1. rewrite StreamFacts.prepend_pipe.
  set (framed := match encrypted with
                 | [] => []
                 | _ :: _ => filter Stream.nonempty (Buffer.from note :: encrypted)
                 end).
  set (w3 := mkWorld (files w2)
                     (fd_remove (next_fd w2)
                                ((next_fd w2, input) :: fds w2))
                     (S (next_fd w2)) (log w2 ++ evs)).
  assert (Hfd : fd_path (next_fd w) (fds w3) = Some output).
  { subst w3 w2. cbn [fds next_fd]. rewrite fd_remove_S.
    apply FsFacts.fd_path_fresh. }
  assert (Hout3 : lookup output (files w3) = Some (File [])).
  { subst w3 w2. cbn [files]. apply lookup_store_eq. }
  unfold pipe_to_file, autoClose.
  rewrite (write_chunks_file (next_fd w) output framed w3 [] Hfd Hout3).
  unfold bind, closeSync, ret. cbn [fds files next_fd log]. rewrite Hfd.
  eexists. split; [reflexivity|]. cbn [files fds].
  assert (Hframed : concat framed
                    = match content with
                      | [] => []
                      | _ :: _ =>
                          Buffer.from note
                          ++ snd (Crypto.ctr128_encrypt c0 content)
                      end).
  { subst framed. rewrite Hcat in Hcat'. destruct content as [|b content].
    - assert (plain = []) as -> by now apply concat_nil_nonempty.
      cbn in Henc. inversion Henc. reflexivity.
    - destruct encrypted as [|e es].
      + pose proof (CryptoFacts.ctr128_encrypt_length (b :: content) c0) as L.
        rewrite <- Hcat' in L. discriminate.
      + rewrite StreamFacts.concat_filter_nonempty. cbn [concat].
        now rewrite <- Hcat'. }
  split; [|split; [|split]].
  - subst w3 w2. cbn [files]. rewrite lookup_store_eq.
    cbn [app]. now rewrite Hframed.
  - subst w3 w2. cbn [files]. now rewrite !lookup_store_neq.
  - apply FsFacts.fd_path_removed.
  - subst w3 w2. cbn [fds next_fd]. rewrite fd_remove_S.
    unfold fd_remove at 1. cbn [filter fst]. rewrite Nat.eqb_refl.
    cbn [negb].
    match goal with
    | |- fd_path ?a (filter ?f (fd_remove ?a ?l)) = None =>
        enough (forall l', fd_path a l' = None ->
                           fd_path a (filter f l') = None)
          by (apply H; apply FsFacts.fd_path_removed)
    end.
    intros l' Hl'. induction l' as [|[fd p] l' IH]; [reflexivity|].
    cbn [fd_path] in Hl'. cbn [filter fst].
    destruct (Nat.eqb (S (next_fd w)) fd) eqn:E; [discriminate|].
    destruct (negb (Nat.eqb (next_fd w) fd)); cbn [fd_path];
      rewrite ?E; auto.
Qed.

End FileStreamFacts.

(** ** The cipher model against the published vectors *)

(** FIPS-197, appendix C.3: one block under a 256-bit key. *)
Example aes256_fips197_c3 :
  Aes256.encrypt_block
    (Aes256.round_keys
       (map Byte.to_N
            (Buffer.from_hex
               "000102030405060708090a0b0c0d0e0f101112131415161718191a1b1c1d1e1f")))
    (Buffer.from_hex "00112233445566778899aabbccddeeff")
  = Buffer.from_hex "8ea2b7ca516745bfeafc49904b496089".
Proof. vm_compute. reflexivity. Qed.

(** NIST SP 800-38A, F.5.5 (CTR-AES256.Encrypt), through [encryptBytes]:
    the key is the first 64 digits of the signature text, the initial
    counter block is the note, and the counter carries from one byte to
    the next between the first and the second block. *)
Example aes256_ctr_sp800_38a_f55 :
  Index.encryptBytes
    (Buffer.from_hex
       "6bc1bee22e409f96e93d7e117393172aae2d8a571e03ac9c9eb76fac45af8e5130c81c46a35ce411e5fbc1191a0a52eff69f2445df4f9b17ad2b417be66c3710")
    (Buffer.Str "f0f1f2f3f4f5f6f7f8f9fafbfcfdfeff")
    "0x603deb1015ca71be2b73aef0857d77811f352c073b6108d72d9810a30914dff4"
  = Ok (Buffer.from_hex
          "f0f1f2f3f4f5f6f7f8f9fafbfcfdfeff601ec313775789a5b7a7f504bbf3d228f443e3ca4d62b59aca84e990cacaf5c52b0930daa23de94ce87017ba2d84988ddfc9c58db67aada613c2dd08457941a6").
Proof. vm_compute. reflexivity. Qed.

(** * The claims *)

(** C1. Round trip: for every plaintext, every note that decodes to 16
    bytes and every signature that yields a 32-byte key, [encryptBytes]
    returns a payload and [decryptBytes] of that payload with the same
    signature returns exactly the plaintext. *)
Theorem decryptBytes_encryptBytes
        (P : Buffer.t) (note : Buffer.source) (sig : string) :
  length (Buffer.from note) = 16 ->
  length (Index.signedEncryptionNoteToKey sig) = 32 ->
  exists payload,
    Index.encryptBytes P note sig = Ok payload /\
    Index.decryptBytes payload sig = Ok P.
Proof.
  intros Hnote Hkey.
  eexists. split.
  - apply IndexFacts.encryptBytes_ok; assumption.
  - rewrite IndexFacts.decryptBytes_ok
      by (try assumption; rewrite length_app; lia).
    rewrite BufferFacts.firstn_app_exact, BufferFacts.skipn_app_exact
      by assumption.
    now rewrite CryptoFacts.ctr128_encrypt_inverse.
Qed.

(** The round trip on the plaintext "hello world". *)
Lemma decryptBytes_encryptBytes_hello_world :
  exists payload,
    Index.encryptBytes Scenario.hello (Buffer.Str Scenario.zero_note)
                       Scenario.signature = Ok payload /\
    Index.decryptBytes payload Scenario.signature = Ok Scenario.hello.
Proof.
  apply (decryptBytes_encryptBytes Scenario.hello
           (Buffer.Str Scenario.zero_note) Scenario.signature);
    vm_compute; reflexivity.
Defined.

(** C4. Whenever [encryptBytes] produces a payload, its length is exactly
    16 + the length of the plaintext: the 16 bytes of the note, then a
    ciphertext as long as the plaintext, and nothing after it. *)
Theorem encryptBytes_length (P : Buffer.t) (note : Buffer.source)
        (sig : string) (payload : Buffer.t) :
  Index.encryptBytes P note sig = Ok payload ->
  length payload = 16 + length P /\
  exists ciphertext,
    payload = Buffer.from note ++ ciphertext /\
    length (Buffer.from note) = 16 /\
    length ciphertext = length P.
Proof.
  intro H. apply IndexFacts.encryptBytes_inv in H as (Hnote & _ & ->).
  split.
  - now rewrite length_app, Hnote, CryptoFacts.ctr128_encrypt_length.
  - eexists. split; [reflexivity|]. split; [assumption|].
    apply CryptoFacts.ctr128_encrypt_length.
Qed.

(** The payload for "hello world" has 16 + 11 bytes. *)
Lemma encryptBytes_length_hello_world :
  length Scenario.hello_payload = 16 + length Scenario.hello /\
  exists ciphertext,
    Scenario.hello_payload
    = Buffer.from (Buffer.Str Scenario.zero_note) ++ ciphertext /\
    length (Buffer.from (Buffer.Str Scenario.zero_note)) = 16 /\
    length ciphertext = length Scenario.hello.
Proof.
  apply (encryptBytes_length Scenario.hello (Buffer.Str Scenario.zero_note)
                             Scenario.signature Scenario.hello_payload).
  vm_compute; reflexivity.
Defined.

(** C5. The first 16 bytes of a payload produced by [encryptBytes] are the
    note.  [readEncryptionNoteFromEncryptedBytes] and
    [readEncryptionNoteFromFile] return those 16 bytes in hex, and the
    same for every buffer or file that agrees with the payload on its
    first 16 bytes: nothing past position 16 matters, and the file is read
    once, for 16 bytes at offset 0. *)
Theorem note_is_first_16_bytes (P : Buffer.t) (note : Buffer.source)
        (sig : string) (payload : Buffer.t) :
  Index.encryptBytes P note sig = Ok payload ->
  firstn 16 payload = Buffer.from note /\
  Index.readEncryptionNoteFromEncryptedBytes payload
  = Buffer.toString_hex (firstn 16 payload) /\
  (forall data,
      firstn 16 data = firstn 16 payload ->
      Index.readEncryptionNoteFromEncryptedBytes data
      = Buffer.toString_hex (firstn 16 payload)) /\
  (forall w path content,
      Fs.lookup path (Fs.files w) = Some (Fs.File content) ->
      firstn 16 content = firstn 16 payload ->
      exists w',
        Index.readEncryptionNoteFromFile path w
        = (Ok (Buffer.toString_hex (firstn 16 payload)), w') /\
        Fs.log w' = Fs.log w ++ [Fs.EvOpen path "r" (Fs.next_fd w);
                                 Fs.EvRead (Fs.next_fd w) 16 0 16;
                                 Fs.EvClose (Fs.next_fd w)] /\
        Fs.files w' = Fs.files w).
Proof.
  intro H. apply IndexFacts.encryptBytes_inv in H as (Hnote & _ & ->).
  rewrite BufferFacts.firstn_app_exact by assumption.
  assert (Hread : forall data,
             firstn 16 data = Buffer.from note ->
             Index.readEncryptionNoteFromEncryptedBytes data
             = Buffer.toString_hex (Buffer.from note)).
  { intros data Hd. unfold Index.readEncryptionNoteFromEncryptedBytes.
    change Config.ENCRYPTION_IV_SIZE with (Z.of_nat 16).
    now rewrite BufferFacts.slice_0, Hd. }
  split; [reflexivity|]. split; [|split].
  - apply Hread. now apply BufferFacts.firstn_app_exact.
  - exact Hread.
  - intros w path content Hfile Hc.
    unfold Index.readEncryptionNoteFromFile, Fs.bind.
    change Config.ENCRYPTION_IV_SIZE with 16%Z.
    rewrite (FsFacts.partialReadSync_file w path content Hfile).
    rewrite Hc, Hnote. cbn [Nat.sub repeat Fs.ret].
    rewrite app_nil_r. eexists. split; [reflexivity|].
    cbn [Fs.log Fs.files]. auto.
Qed.

(** The note of the payload for "hello world". *)
Lemma note_is_first_16_bytes_hello_world :
  firstn 16 Scenario.hello_payload
  = Buffer.from (Buffer.Str Scenario.zero_note) /\
  Index.readEncryptionNoteFromEncryptedBytes Scenario.hello_payload
  = Buffer.toString_hex (firstn 16 Scenario.hello_payload) /\
  (forall data,
      firstn 16 data = firstn 16 Scenario.hello_payload ->
      Index.readEncryptionNoteFromEncryptedBytes data
      = Buffer.toString_hex (firstn 16 Scenario.hello_payload)) /\
  (forall w path content,
      Fs.lookup path (Fs.files w) = Some (Fs.File content) ->
      firstn 16 content = firstn 16 Scenario.hello_payload ->
      exists w',
        Index.readEncryptionNoteFromFile path w
        = (Ok (Buffer.toString_hex (firstn 16 Scenario.hello_payload)), w') /\
        Fs.log w' = Fs.log w ++ [Fs.EvOpen path "r" (Fs.next_fd w);
                                 Fs.EvRead (Fs.next_fd w) 16 0 16;
                                 Fs.EvClose (Fs.next_fd w)] /\
        Fs.files w' = Fs.files w).
Proof.
  apply (note_is_first_16_bytes Scenario.hello
           (Buffer.Str Scenario.zero_note) Scenario.signature
           Scenario.hello_payload).
  vm_compute; reflexivity.
Defined.

(** C6. Key derivation is a function of the signature text, and only the
    first 64 hexadecimal digits after an optional ["0x"] count: for a
    signature of at least 64 digits the key has 32 bytes, is decoded from
    those 64 digits, and does not change when ["ff"] (or any further
    digits) is appended. *)
Theorem key_ignores_text_after_64_digits (pre body : string) :
  pre = ""%string \/ pre = "0x"%string ->
  Hex.hex_string body = true ->
  64 <= String.length body ->
  let sig := (pre ++ body)%string in
  Index.signedEncryptionNoteToKey (sig ++ "ff")
  = Index.signedEncryptionNoteToKey sig /\
  (forall extra, Hex.hex_string extra = true ->
                 Index.signedEncryptionNoteToKey (sig ++ extra)
                 = Index.signedEncryptionNoteToKey sig) /\
  length (Index.signedEncryptionNoteToKey sig) = 32 /\
  Index.signedEncryptionNoteToKey sig
  = Buffer.from_hex (JsString.take 64 body).
Proof.
  intros Hpre Hbody Hlen sig. subst sig.
  assert (Hextra : forall extra,
             Hex.hex_string extra = true ->
             Index.signedEncryptionNoteToKey ((pre ++ body) ++ extra)
             = Index.signedEncryptionNoteToKey (pre ++ body)).
  { intros extra Hx. rewrite StringFacts.append_assoc.
    rewrite !KeyFacts.key_of_hex_body; try assumption.
    - now rewrite StringFacts.take_append_le.
    - now rewrite StringFacts.hex_string_append, Hbody, Hx. }
  split; [now apply Hextra|]. split; [exact Hextra|]. split.
  - rewrite KeyFacts.key_length_of_hex_body by assumption.
    now rewrite Nat.min_l by assumption.
  - now apply KeyFacts.key_of_hex_body.
Qed.

(** The key of a 65-byte signature. *)
Lemma key_ignores_text_after_64_digits_signature :
  let sig := ("0x" ++ Scenario.signature_digits)%string in
  Index.signedEncryptionNoteToKey (sig ++ "ff")
  = Index.signedEncryptionNoteToKey sig /\
  (forall extra, Hex.hex_string extra = true ->
                 Index.signedEncryptionNoteToKey (sig ++ extra)
                 = Index.signedEncryptionNoteToKey sig) /\
  length (Index.signedEncryptionNoteToKey sig) = 32 /\
  Index.signedEncryptionNoteToKey sig
  = Buffer.from_hex (JsString.take 64 Scenario.signature_digits).
Proof.
  apply (key_ignores_text_after_64_digits "0x" Scenario.signature_digits).
  - right; reflexivity.
  - vm_compute; reflexivity.
  - vm_compute. lia.
Defined.

(** C10. On every string [signedEncryptionNoteToKey] returns a buffer and
    cannot raise: the first occurrence of ["0x"], wherever it is, is taken
    out; of what remains at most the first 64 characters are kept; they
    are decoded two by two and decoding stops at the first pair that is
    incomplete or holds a character that is not a hexadecimal digit.  The
    key has at most 32 bytes, and can have fewer or none. *)
Theorem signedEncryptionNoteToKey_total :
  (forall s : string,
      exists t h r : string,
        Hex.first_removed "0x" s t /\
        JsString.take 64 t = (h ++ r)%string /\
        Hex.hex_string h = true /\
        Hex.stops r /\
        Index.signedEncryptionNoteToKey s = Buffer.from_hex h /\
        String.length h = 2 * length (Index.signedEncryptionNoteToKey s) /\
        length (Index.signedEncryptionNoteToKey s) <= 32) /\
  Index.signedEncryptionNoteToKey "" = [] /\
  Index.signedEncryptionNoteToKey "not a signature" = [] /\
  Index.signedEncryptionNoteToKey "0xabcd" = [xab; xcd] /\
  Index.signedEncryptionNoteToKey "ab0xcd" = [xab; xcd] /\
  Index.signedEncryptionNoteToKey "0xabcdzz12" = [xab; xcd].
Proof.
  split; [|repeat split; reflexivity].
  intro s. exists (JsString.replace "0x" "" s).
  destruct (HexFacts.from_hex_split
              (JsString.take 64 (JsString.replace "0x" "" s)))
    as (h & r & Hsplit & Hh & Hlen & Hr & Hd).
  exists h, r.
  assert (Hkey : Index.signedEncryptionNoteToKey s
                 = Buffer.from_hex
                     (JsString.take 64 (JsString.replace "0x" "" s))).
  { unfold Index.signedEncryptionNoteToKey.
    change (Config.ENCRYPTION_KEY_SIZE * 2)%Z with (Z.of_nat 64).
    now rewrite StringFacts.substring_0. }
  repeat split; try assumption.
  - apply StringFacts.replace_first_removed.
  - now rewrite Hkey.
  - now rewrite Hkey.
  - apply KeyFacts.key_length_le.
Qed.

(** C2, counterexample.  A signature with fewer than 64 digits is not
    rejected by the derivation: for ["0x1234"] it returns the two bytes
    12 34. *)
Lemma short_signature_gives_short_key :
  Hex.hex_string "1234" = true /\
  String.length "1234" < 64 /\
  Index.signedEncryptionNoteToKey "0x1234" = [x12; x34] /\
  length (Index.signedEncryptionNoteToKey "0x1234") < 32.
Proof. repeat split; vm_compute; lia. Qed.

(** C2, amended.  For a signature with fewer than 64 hexadecimal digits
    after the optional ["0x"], [signedEncryptionNoteToKey] raises nothing
    and returns the key decoded from all the digits, which is shorter than
    32 bytes.  The short key is refused where the cipher is created:
    [encryptBytes] and [decryptBytes] throw and return no output. *)
Theorem short_signature_key_refused_by_cipher (pre body : string) :
  pre = ""%string \/ pre = "0x"%string ->
  Hex.hex_string body = true ->
  String.length body < 64 ->
  let sig := (pre ++ body)%string in
  Index.signedEncryptionNoteToKey sig = Buffer.from_hex body /\
  length (Index.signedEncryptionNoteToKey sig) = String.length body / 2 /\
  length (Index.signedEncryptionNoteToKey sig) < 32 /\
  (forall P note,
      length (Buffer.from note) = 16 ->
      Index.encryptBytes P note sig = Throw ERR_CRYPTO_INVALID_KEYLEN) /\
  (forall P note, exists e, Index.encryptBytes P note sig = Throw e) /\
  (forall data, exists e, Index.decryptBytes data sig = Throw e).
Proof.
  intros Hpre Hbody Hlen sig. subst sig.
  assert (Hk : length (Index.signedEncryptionNoteToKey (pre ++ body))
               = String.length body / 2).
  { rewrite KeyFacts.key_length_of_hex_body by assumption.
    now rewrite Nat.min_r by lia. }
  assert (Hlt : String.length body / 2 < 32).
  { apply Nat.Div0.div_lt_upper_bound. lia. }
  assert (Hne : Nat.eqb (length (Index.signedEncryptionNoteToKey
                                   (pre ++ body))) 32 = false).
  { apply Nat.eqb_neq. lia. }
  split; [|split; [assumption|split; [lia|split; [|split]]]].
  - rewrite KeyFacts.key_of_hex_body by assumption.
    now rewrite StringFacts.take_all by lia.
  - intros P note Hnote.
    unfold Index.encryptBytes, Index._createCipher, Crypto.createCipheriv.
    rewrite Hnote, Hne. reflexivity.
  - intros P note.
    unfold Index.encryptBytes, Index._createCipher, Crypto.createCipheriv.
    rewrite Hne. cbn [String.eqb Config.ENCRYPTION_ALGORITHM negb].
    destruct (Nat.eqb (length (Buffer.from note)) 16); cbn; eauto.
  - intros data.
    unfold Index.decryptBytes, Index._createDecipher,
      Crypto.createDecipheriv, Crypto.createCipheriv.
    rewrite Hne.
    destruct (Nat.eqb (length (Buffer.from (Buffer.Buf _))) 16); cbn; eauto.
Qed.

(** The two-byte key of ["0x1234"] is refused by the cipher. *)
Lemma short_signature_key_refused_by_cipher_0x1234 :
  let sig := ("0x" ++ "1234")%string in
  Index.signedEncryptionNoteToKey sig = Buffer.from_hex "1234" /\
  length (Index.signedEncryptionNoteToKey sig) = String.length "1234" / 2 /\
  length (Index.signedEncryptionNoteToKey sig) < 32 /\
  (forall P note,
      length (Buffer.from note) = 16 ->
      Index.encryptBytes P note sig = Throw ERR_CRYPTO_INVALID_KEYLEN) /\
  (forall P note, exists e, Index.encryptBytes P note sig = Throw e) /\
  (forall data, exists e, Index.decryptBytes data sig = Throw e).
Proof.
  apply (short_signature_key_refused_by_cipher "0x" "1234").
  - right; reflexivity.
  - reflexivity.
  - vm_compute. lia.
Defined.

(** On every regular file [readEncryptionNoteFromFile] does one bounded
    read: it opens the file, reads once for 16 bytes at offset 0 and
    closes the descriptor, whatever the size of the file, and leaves the
    files as they are.  The number of bytes read is in the log only. *)
Lemma readEncryptionNoteFromFile_bounded_read
        (w : Fs.World) (path : string) (content : Buffer.t) :
  Fs.lookup path (Fs.files w) = Some (Fs.File content) ->
  exists w',
    Index.readEncryptionNoteFromFile path w
    = (Ok (Buffer.toString_hex
             (firstn 16 content ++ repeat x00 (16 - length content))), w') /\
    Fs.log w' = Fs.log w
                ++ [Fs.EvOpen path "r" (Fs.next_fd w);
                    Fs.EvRead (Fs.next_fd w) 16 0
                              (N.of_nat (Nat.min 16 (length content)));
                    Fs.EvClose (Fs.next_fd w)] /\
    Fs.files w' = Fs.files w /\
    Fs.fd_path (Fs.next_fd w) (Fs.fds w') = None.
Proof.
  intro Hfile.
  unfold Index.readEncryptionNoteFromFile, Fs.bind.
  change Config.ENCRYPTION_IV_SIZE with 16%Z.
  rewrite (FsFacts.partialReadSync_file w path content Hfile).
  rewrite length_firstn.
  replace (16 - Nat.min 16 (length content)) with (16 - length content)
    by lia.
  eexists. split; [reflexivity|]. cbn [Fs.log Fs.files Fs.fds].
  repeat split. apply FsFacts.fd_path_removed.
Qed.

(** C7, on the code.  [readEncryptionNoteFromFile] on a file of three
    bytes, 01 02 03.  The read is bounded (one open, one read of 16
    bytes at offset 0, one close) and [fs.readSync] returns 3, the
    number of bytes read; [partialReadSync] drops this number and
    returns the whole buffer, so the call does not fail: the note is
    the three bytes followed by thirteen zero bytes that are not in the
    file.  On the same three bytes [readEncryptionNoteFromEncryptedBytes]
    gives the note 010203 and [decryptBytes] throws, where
    [decryptFileAsStream] takes the zero-filled note for the IV and
    succeeds. *)
Theorem note_of_short_file_is_zero_filled :
  Fs.lookup "short.bin" (Fs.files Scenario.world)
  = Some (Fs.File [x01; x02; x03]) /\
  (exists w',
      Index.readEncryptionNoteFromFile "short.bin" Scenario.world
      = (Ok "01020300000000000000000000000000"%string, w') /\
      Fs.log w' = [Fs.EvOpen "short.bin" "r" 3;
                   Fs.EvRead 3 16 0 3;
                   Fs.EvClose 3]) /\
  Index.readEncryptionNoteFromEncryptedBytes [x01; x02; x03]
  = "010203"%string /\
  Index.decryptBytes [x01; x02; x03] Scenario.signature
  = Throw ERR_CRYPTO_INVALID_IV /\
  (exists w',
      Index.decryptFileAsStream "short.bin" "short.out" Scenario.signature
                                Scenario.world = (Ok tt, w') /\
      Fs.lookup "short.out" (Fs.files w') = Some (Fs.File [])).
Proof.
  split; [reflexivity|]. split.
  { exists (snd (Index.readEncryptionNoteFromFile "short.bin"
                   Scenario.world)).
    split; reflexivity. }
  split; [reflexivity|]. split; [reflexivity|].
  exists (snd (Index.decryptFileAsStream "short.bin" "short.out"
                 Scenario.signature Scenario.world)).
  split; vm_compute; reflexivity.
Qed.

(** C9, on the code.  [partialReadSync] on a path that names a directory:
    the descriptor is opened, the read raises, and the descriptor is still
    open when the exception leaves the function, since [closeSync] is only
    called after a read that returns. *)
Theorem partialReadSync_leaves_descriptor_open :
  Fs.lookup "photos" (Fs.files Scenario.world) = Some Fs.Dir /\
  exists w',
    FsUtils.partialReadSync "photos" 0 16 Scenario.world
    = (Throw EISDIR, w') /\
    Fs.fd_path 3 (Fs.fds Scenario.world) = None /\
    Fs.fd_path 3 (Fs.fds w') = Some "photos"%string /\
    Fs.log w' = [Fs.EvOpen "photos" "r" 3].
Proof.
  split; [reflexivity|].
  exists (snd (FsUtils.partialReadSync "photos" 0 16 Scenario.world)).
  repeat split.
Qed.

(** C3, on the code.  [encryptFileAsStream] on an empty file: the cipher
    pushes nothing, [_transform] of [PrependInitializationVector] is never
    called, and the output file is created with no byte in it, while
    [encryptBytes] on the empty plaintext returns the 16 bytes of the
    note.  ([StreamFacts.prepend_pipe] and
    [FileStreamFacts.encryptFileAsStream_file] give the general picture:
    the header is emitted once as soon as one chunk is written, and the
    two variants agree on every input that is not empty.) *)
Theorem stream_of_empty_file_has_no_header :
  Fs.lookup "empty.txt" (Fs.files Scenario.world) = Some (Fs.File []) /\
  (exists w',
      Index.encryptFileAsStream "empty.txt" "empty.txt.eth.encrypted"
        (Buffer.Str Scenario.zero_note) Scenario.signature Scenario.world
      = (Ok tt, w') /\
      Fs.lookup "empty.txt.eth.encrypted" (Fs.files w')
      = Some (Fs.File []) /\
      (forall fd data, ~ In (Fs.EvWrite fd data) (Fs.log w'))) /\
  Index.encryptBytes [] (Buffer.Str Scenario.zero_note) Scenario.signature
  = Ok (Buffer.from_hex Scenario.zero_note) /\
  length (Buffer.from_hex Scenario.zero_note) = 16.
Proof.
  split; [reflexivity|]. split; [|split; vm_compute; reflexivity].
  exists (snd (Index.encryptFileAsStream "empty.txt" "empty.txt.eth.encrypted"
                 (Buffer.Str Scenario.zero_note) Scenario.signature
                 Scenario.world)).
  split; [vm_compute; reflexivity|]. split; [vm_compute; reflexivity|].
  intros fd data Hin. vm_compute in Hin.
  repeat (destruct Hin as [Hin|Hin]; [discriminate|]). exact Hin.
Qed.

(** C8. In every run of [processFileEncryption] the events come in order:
    a cipher is only created after the signature has been obtained, and a
    file is only opened for writing, or written, after the cipher has
    been created.  When the signer gives no signature, no cipher is
    created, nothing is opened or written, and the files are those from
    before. *)
Theorem encryption_steps_ordered
        (stack : nat) (randomBytes : nat -> Buffer.t) (fileName : string)
        (provider : Index.Provider) (options : Cli.Options)
        (w : Fs.World) (r : result unit) (w' : Fs.World) :
  Cli.processFileEncryption stack randomBytes fileName provider options w
  = (r, w') ->
  exists new,
    Fs.log w' = Fs.log w ++ new /\
    Trace.preceded_by Trace.is_signed Trace.is_cipher new /\
    Trace.preceded_by Trace.is_cipher Trace.is_output new /\
    (Trace.signature_obtained randomBytes provider = None ->
     Fs.files w' = Fs.files w /\
     Fs.fds w' = Fs.fds w /\
     forall e, In e new ->
               Trace.is_cipher e = false /\ Trace.is_output e = false).
Proof.
  unfold Cli.processFileEncryption, Trace.signature_obtained.
  destruct (Index.eth provider) as [e|] eqn:Heth.
  2:{ intro H. inversion H; subst. exists []. rewrite app_nil_r.
      split; [reflexivity|].
      split; [apply TraceFacts.preceded_by_none; intros ? []|].
      split; [apply TraceFacts.preceded_by_none; intros ? []|].
      intros _. split; [reflexivity|]. split; [reflexivity|].
      intros ? []. }
  unfold Index.signEncryptionNote. rewrite Heth.
  set (msg := (Config.ETH_ENCRYPT_MESSAGE
               ++ Index.generateEncryptionNote randomBytes)%string).
  destruct (Index.personal_sign e msg (Index.defaultAccount e))
    as [err sig].
  cbn [snd].
  assert (Hfail : forall m : Fs.M unit,
             m = (Fs.bind (Fs.emit Fs.EvSignFailed)
                    (fun _ => Cli.handleRuntimeError err options)) ->
             Fs.bind (Fs.emit (Fs.EvSignRequest msg (Index.defaultAccount e)))
                     (fun _ => m) w = (r, w') ->
             exists new,
               Fs.log w' = Fs.log w ++ new /\
               Trace.preceded_by Trace.is_signed Trace.is_cipher new /\
               Trace.preceded_by Trace.is_cipher Trace.is_output new /\
               Fs.files w' = Fs.files w /\
               Fs.fds w' = Fs.fds w /\
               forall e, In e new ->
                 Trace.is_cipher e = false /\ Trace.is_output e = false).
  { intros m -> H. inversion H; subst; clear H.
    exists [Fs.EvSignRequest msg (Index.defaultAccount e); Fs.EvSignFailed].
    cbn [Fs.log Fs.files Fs.fds]. rewrite <- app_assoc.
    assert (Hq : forall e0,
               In e0 [Fs.EvSignRequest msg (Index.defaultAccount e);
                      Fs.EvSignFailed] ->
               Trace.is_cipher e0 = false /\ Trace.is_output e0 = false).
    { intros e0 [<-|[<-|[]]]; split; reflexivity. }
    split; [reflexivity|].
    split; [apply TraceFacts.preceded_by_none; intros; now apply Hq|].
    split; [apply TraceFacts.preceded_by_none; intros; now apply Hq|].
    split; [reflexivity|]. split; [reflexivity|]. exact Hq. }
  destruct sig as [s|].
  2:{ intro H. destruct (Hfail _ eq_refl H) as (new & ? & ? & ? & ? & ? & ?).
      exists new. do 3 (split; [assumption|]). intros _. auto. }
  destruct (JsString.truthy s).
  2:{ intro H. destruct (Hfail _ eq_refl H) as (new & ? & ? & ? & ? & ? & ?).
      exists new. do 3 (split; [assumption|]). intros _. auto. }
  clear Hfail. unfold Fs.bind at 1, Fs.emit at 1.
  unfold Fs.bind at 1, Fs.emit at 1. cbn [Fs.files Fs.fds Fs.next_fd Fs.log].
  set (w2 := Fs.mkWorld (Fs.files w) (Fs.fds w) (Fs.next_fd w)
                        ((Fs.log w
                          ++ [Fs.EvSignRequest msg (Index.defaultAccount e)])
                         ++ [Fs.EvSigned s])).
  set (name := match Cli.output options with
               | Some o =>
                   if JsString.truthy o then o
                   else FsUtils.generateDefaultOutputFile_encrypt fileName
               | None => FsUtils.generateDefaultOutputFile_encrypt fileName
               end).
  unfold Fs.bind at 1.
  pose proof (TraceFacts.resolveOutputFile_pure stack name 0 w2) as Hpure.
  destruct (FsUtils.resolveOutputFile stack name 0 w2) as [[name'|e0] w3].
  all: cbn [snd] in Hpure; subst w3; intro H.
  all: assert (Hsig : forall rest,
           Trace.preceded_by Trace.is_signed Trace.is_cipher
             ([Fs.EvSignRequest msg (Index.defaultAccount e); Fs.EvSigned s]
              ++ rest))
    by (intro rest; apply TraceFacts.preceded_by_prefix;
        [ intros e1 [<-|[<-|[]]]; reflexivity
        | exists (Fs.EvSigned s); split; [right; now left | reflexivity] ]).
  - apply TraceFacts.encryptFileAsStream_log in H
      as [[-> _] | [rest Hlog]].
    + exists [Fs.EvSignRequest msg (Index.defaultAccount e); Fs.EvSigned s].
      subst w2. cbn [Fs.log]. rewrite <- app_assoc.
      split; [reflexivity|]. split; [apply (Hsig [])|].
      split; [|discriminate].
      apply TraceFacts.preceded_by_none.
      intros e1 [<-|[<-|[]]]; reflexivity.
    + exists ([Fs.EvSignRequest msg (Index.defaultAccount e); Fs.EvSigned s;
               Fs.EvCipherCreated] ++ rest).
      rewrite Hlog. subst w2. cbn [Fs.log].
      rewrite <- !app_assoc.
      split; [reflexivity|]. split; [apply (Hsig (_ :: rest))|].
      split; [|discriminate].
      apply TraceFacts.preceded_by_prefix.
      * intros e1 [<-|[<-|[<-|[]]]]; reflexivity.
      * exists Fs.EvCipherCreated. split; [cbn; auto | reflexivity].
  - inversion H; subst.
    exists [Fs.EvSignRequest msg (Index.defaultAccount e); Fs.EvSigned s].
    subst w2. cbn [Fs.log]. rewrite <- app_assoc.
    split; [reflexivity|]. split; [apply (Hsig [])|].
    split; [|discriminate].
    apply TraceFacts.preceded_by_none.
    intros e1 [<-|[<-|[]]]; reflexivity.
Qed.

(** The order of events when [hello.txt] is encrypted. *)
Lemma encryption_steps_ordered_hello :
  exists new,
    Fs.log (snd Scenario.encrypted_hello) = Fs.log Scenario.world ++ new /\
    Trace.preceded_by Trace.is_signed Trace.is_cipher new /\
    Trace.preceded_by Trace.is_cipher Trace.is_output new /\
    (Trace.signature_obtained Scenario.fixed_random Scenario.signing_provider
     = None ->
     Fs.files (snd Scenario.encrypted_hello) = Fs.files Scenario.world /\
     Fs.fds (snd Scenario.encrypted_hello) = Fs.fds Scenario.world /\
     forall e, In e new ->
               Trace.is_cipher e = false /\ Trace.is_output e = false).
Proof.
  apply (encryption_steps_ordered Scenario.call_stack Scenario.fixed_random
           "hello.txt"
           Scenario.signing_provider Scenario.no_options Scenario.world
           (fst Scenario.encrypted_hello) (snd Scenario.encrypted_hello)).
  vm_compute; reflexivity.
Defined.

(** * Further properties *)

(** ** Descriptors and file streams, in full *)
Module WorldFacts.
Import Fs Vocabulary.











End WorldFacts.

(** ** The XOR structure of counter mode *)
Module XorFacts.
Import Crypto Vocabulary.

Lemma to_N_byte_xor a b :
  Byte.to_N (byte_xor a b) = N.lxor (Byte.to_N a) (Byte.to_N b).
Proof.
  unfold byte_xor. rewrite to_N_byte_of_N, lxor_mod_256.
  rewrite !N.mod_small
    by (pose proof (Byte.to_N_bounded a); pose proof (Byte.to_N_bounded b);
        lia).
  reflexivity.
Qed.

Lemma byte_to_N_inj a b : Byte.to_N a = Byte.to_N b -> a = b.
Proof.
  intro H. rewrite <- (byte_of_to_N a), <- (byte_of_to_N b). now rewrite H.
Qed.

Lemma byte_xor_swap a b c :
  byte_xor (byte_xor a b) c = byte_xor (byte_xor a c) b.
Proof.
  apply byte_to_N_inj. rewrite !to_N_byte_xor.
  rewrite !N.lxor_assoc. f_equal. apply N.lxor_comm.
Qed.

Lemma byte_xor_cancel a b k :
  byte_xor (byte_xor a k) (byte_xor b k) = byte_xor a b.
Proof.
  apply byte_to_N_inj. rewrite !to_N_byte_xor.
  rewrite N.lxor_assoc, (N.lxor_comm (Byte.to_N b)).
  rewrite <- (N.lxor_assoc (Byte.to_N k)), N.lxor_nilpotent, N.lxor_0_l.
  reflexivity.
Qed.

(** The output is the input XORed with a keystream that depends on the
    state of the cipher and on the number of bytes only. *)
Lemma ctr128_encrypt_swap data :
  forall c delta,
    length delta = length data ->
    snd (ctr128_encrypt c (xor_bytes data delta))
    = xor_bytes (snd (ctr128_encrypt c data)) delta.
Proof.
  induction data as [|b data IH]; intros c [|d delta] Hlen;
    try discriminate; [reflexivity|].
  cbn [xor_bytes combine map fst snd].
  rewrite !CryptoFacts.ctr128_encrypt_cons. cbn [snd].
  cbn [xor_bytes combine map fst snd].
  fold (xor_bytes data delta).
  fold (xor_bytes (snd (ctr128_encrypt (next c) data)) delta).
  rewrite IH by (cbn in Hlen; lia).
  now rewrite byte_xor_swap.
Qed.

Lemma ctr128_encrypt_cancel P :
  forall c Q,
    length P = length Q ->
    xor_bytes (snd (ctr128_encrypt c P)) (snd (ctr128_encrypt c Q))
    = xor_bytes P Q.
Proof.
  induction P as [|p P IH]; intros c [|q Q] Hlen; try discriminate;
    [reflexivity|].
  rewrite !CryptoFacts.ctr128_encrypt_cons. cbn [snd].
  cbn [xor_bytes combine map fst snd].
  fold (xor_bytes P Q).
  fold (xor_bytes (snd (ctr128_encrypt (next c) P))
                  (snd (ctr128_encrypt (next c) Q))).
  rewrite IH by (cbn in Hlen; lia).
  now rewrite byte_xor_cancel.
Qed.

Lemma length_xor_bytes a b :
  length a = length b -> length (xor_bytes a b) = length a.
Proof.
  intro H. unfold xor_bytes. rewrite length_map, length_combine. lia.
Qed.

End XorFacts.

(** ** Hex text of buffers *)
Module NoteFacts.
Import Buffer Hex.

Lemma toString_hex_is_hex (b : Buffer.t) :
  hex_string (toString_hex b) = true /\
  String.length (toString_hex b) = 2 * length b.
Proof.
  induction b as [|x b [IH1 IH2]]; [split; reflexivity|].
  cbn [toString_hex hex_string String.length length].
  rewrite IH1, IH2. split; [|lia].
  destruct x; reflexivity.
Qed.

End NoteFacts.

(** ** [encryptBytes] and [decryptBytes]: errors and the lack of
    integrity *)

(** X1. [encryptBytes] returns a payload exactly when the note decodes to
    16 bytes and the signature yields a 32-byte key; otherwise it throws
    where the cipher is created, for every plaintext. *)
Theorem encryptBytes_succeeds_iff
        (P : Buffer.t) (note : Buffer.source) (sig : string) :
  ((exists payload, Index.encryptBytes P note sig = Ok payload) <->
   (length (Buffer.from note) = 16 /\
    length (Index.signedEncryptionNoteToKey sig) = 32)) /\
  (length (Buffer.from note) <> 16 ->
   Index.encryptBytes P note sig = Throw ERR_CRYPTO_INVALID_IV) /\
  (length (Buffer.from note) = 16 ->
   length (Index.signedEncryptionNoteToKey sig) <> 32 ->
   Index.encryptBytes P note sig = Throw ERR_CRYPTO_INVALID_KEYLEN).
Proof.
  split; [split|split].
  - intros [payload H].
    apply IndexFacts.encryptBytes_inv in H as (H1 & H2 & _). auto.
  - intros [H1 H2]. eexists. now apply IndexFacts.encryptBytes_ok.
  - intro H. unfold Index.encryptBytes, Index._createCipher,
      Crypto.createCipheriv.
    apply Nat.eqb_neq in H. rewrite H. reflexivity.
  - intros H1 H2. unfold Index.encryptBytes, Index._createCipher,
      Crypto.createCipheriv.
    apply Nat.eqb_neq in H2. rewrite H1, H2. reflexivity.
Qed.

(** X2. A note used twice with the same signature: the two ciphertexts,
    XORed, give the two plaintexts XORed (for plaintexts of the same
    length), since the keystream depends on the key and the note only. *)
Theorem encryptBytes_note_reuse
        (P Q : Buffer.t) (note : Buffer.source) (sig : string)
        (payloadP payloadQ : Buffer.t) :
  Index.encryptBytes P note sig = Ok payloadP ->
  Index.encryptBytes Q note sig = Ok payloadQ ->
  length P = length Q ->
  firstn 16 payloadP = firstn 16 payloadQ /\
  Vocabulary.xor_bytes (skipn 16 payloadP) (skipn 16 payloadQ)
  = Vocabulary.xor_bytes P Q.
Proof.
  intros HP HQ Hlen.
  apply IndexFacts.encryptBytes_inv in HP as (Hnote & _ & ->).
  apply IndexFacts.encryptBytes_inv in HQ as (_ & _ & ->).
  rewrite !BufferFacts.firstn_app_exact, !BufferFacts.skipn_app_exact
    by assumption.
  split; [reflexivity|]. now apply XorFacts.ctr128_encrypt_cancel.
Qed.

(** The payloads of "hello world" and "HELLO WORLD" under one note. *)
Lemma encryptBytes_note_reuse_hello :
  firstn 16 Scenario.hello_payload = firstn 16 Runs.shout_payload /\
  Vocabulary.xor_bytes (skipn 16 Scenario.hello_payload)
                       (skipn 16 Runs.shout_payload)
  = Vocabulary.xor_bytes Scenario.hello Runs.shout.
Proof.
  apply (encryptBytes_note_reuse Scenario.hello Runs.shout
           (Buffer.Str Scenario.zero_note) Scenario.signature
           Scenario.hello_payload Runs.shout_payload);
    vm_compute; reflexivity.
Defined.

(** X3. [decryptBytes] checks nothing but lengths: on any data of at
    least 16 bytes and any signature yielding a 32-byte key it returns
    [length data - 16] bytes, whether or not the data was encrypted with
    that key; and XORing a pattern into the bytes after the note XORs the
    same pattern into the result. *)
Theorem decryptBytes_no_integrity (data : Buffer.t) (sig : string) :
  16 <= length data ->
  length (Index.signedEncryptionNoteToKey sig) = 32 ->
  exists plain,
    Index.decryptBytes data sig = Ok plain /\
    length plain = length data - 16 /\
    forall delta,
      length delta = length plain ->
      Index.decryptBytes
        (firstn 16 data ++ Vocabulary.xor_bytes (skipn 16 data) delta) sig
      = Ok (Vocabulary.xor_bytes plain delta).
Proof.
  intros Hlen Hkey. eexists. split; [|split].
  - now apply IndexFacts.decryptBytes_ok.
  - now rewrite CryptoFacts.ctr128_encrypt_length, length_skipn.
  - intros delta Hdelta.
    rewrite CryptoFacts.ctr128_encrypt_length in Hdelta.
    assert (H16 : length (firstn 16 data) = 16)
      by (rewrite length_firstn; lia).
    rewrite IndexFacts.decryptBytes_ok
      by (try assumption; rewrite length_app; lia).
    rewrite BufferFacts.firstn_app_exact, BufferFacts.skipn_app_exact
      by assumption.
    now rewrite XorFacts.ctr128_encrypt_swap.
Qed.

(** The payload of "hello world" under another signature. *)
Lemma decryptBytes_no_integrity_other_key :
  exists plain,
    Index.decryptBytes Scenario.hello_payload Runs.other_signature
    = Ok plain /\
    length plain = length Scenario.hello_payload - 16 /\
    forall delta,
      length delta = length plain ->
      Index.decryptBytes
        (firstn 16 Scenario.hello_payload
         ++ Vocabulary.xor_bytes (skipn 16 Scenario.hello_payload) delta)
        Runs.other_signature
      = Ok (Vocabulary.xor_bytes plain delta).
Proof.
  apply (decryptBytes_no_integrity Scenario.hello_payload
                                   Runs.other_signature).
  - vm_compute. lia.
  - vm_compute. reflexivity.
Defined.

(** X4. [decryptBytes] on data shorter than 16 bytes throws where the
    decipher is created (the slice is too short for an IV), whatever the
    signature. *)
Theorem decryptBytes_short_data (data : Buffer.t) (sig : string) :
  length data < 16 ->
  Index.decryptBytes data sig = Throw ERR_CRYPTO_INVALID_IV.
Proof.
  intro Hlen. unfold Index.decryptBytes, Index._createDecipher,
    Crypto.createDecipheriv, Crypto.createCipheriv.
  change Config.ENCRYPTION_IV_SIZE with (Z.of_nat 16).
  rewrite BufferFacts.slice_0. cbn [Buffer.from].
  assert (Nat.eqb (length (firstn 16 data)) 16 = false) as ->.
  { apply Nat.eqb_neq. rewrite length_firstn. lia. }
  reflexivity.
Qed.

(** Three bytes are not a payload. *)
Lemma decryptBytes_short_data_three_bytes :
  Index.decryptBytes [x01; x02; x03] Scenario.signature
  = Throw ERR_CRYPTO_INVALID_IV.
Proof.
  apply (decryptBytes_short_data [x01; x02; x03] Scenario.signature).
  vm_compute. lia.
Defined.

(** X5. A note made by [generateEncryptionNote] from 16 random bytes is a
    text of 32 hexadecimal digits that decodes to those bytes, and both
    readers give back this very text from a payload encrypted with it:
    the message to sign is the same at decryption as at encryption. *)
Theorem generated_note_read_back
        (randomBytes : nat -> Buffer.t) (P : Buffer.t) (sig : string) :
  length (randomBytes 16) = 16 ->
  length (Index.signedEncryptionNoteToKey sig) = 32 ->
  let note := Index.generateEncryptionNote randomBytes in
  String.length note = 32 /\
  Hex.hex_string note = true /\
  Buffer.from_hex note = randomBytes 16 /\
  exists payload,
    Index.encryptBytes P (Buffer.Str note) sig = Ok payload /\
    Index.readEncryptionNoteFromEncryptedBytes payload = note /\
    forall w path,
      Fs.lookup path (Fs.files w) = Some (Fs.File payload) ->
      fst (Index.readEncryptionNoteFromFile path w) = Ok note.
Proof.
  intros Hrb Hkey note. subst note. unfold Index.generateEncryptionNote.
  change (Z.to_nat Config.ENCRYPTION_IV_SIZE) with 16.
  destruct (NoteFacts.toString_hex_is_hex (randomBytes 16)) as [Hhex Hlen].
  rewrite Hrb in Hlen.
  split; [assumption|]. split; [assumption|].
  split; [apply HexFacts.from_hex_toString_hex|].
  assert (Hnote : length (Buffer.from
                            (Buffer.Str (Buffer.toString_hex (randomBytes 16))))
                  = 16).
  { cbn [Buffer.from]. now rewrite HexFacts.from_hex_toString_hex. }
  eexists. split; [now apply IndexFacts.encryptBytes_ok|].
  cbn [Buffer.from]. rewrite HexFacts.from_hex_toString_hex. split.
  - unfold Index.readEncryptionNoteFromEncryptedBytes.
    change Config.ENCRYPTION_IV_SIZE with (Z.of_nat 16).
    now rewrite BufferFacts.slice_0, BufferFacts.firstn_app_exact.
  - intros w path Hfile.
    unfold Index.readEncryptionNoteFromFile, Fs.bind.
    change Config.ENCRYPTION_IV_SIZE with 16%Z.
    rewrite (FsFacts.partialReadSync_file w path _ Hfile).
    rewrite BufferFacts.firstn_app_exact by assumption.
    rewrite Hrb. cbn [Nat.sub repeat Fs.ret fst]. now rewrite app_nil_r.
Qed.

(** The note drawn from sixteen zero bytes. *)
Lemma generated_note_read_back_zero :
  let note := Index.generateEncryptionNote Scenario.fixed_random in
  String.length note = 32 /\
  Hex.hex_string note = true /\
  Buffer.from_hex note = Scenario.fixed_random 16 /\
  exists payload,
    Index.encryptBytes Scenario.hello (Buffer.Str note) Scenario.signature
    = Ok payload /\
    Index.readEncryptionNoteFromEncryptedBytes payload = note /\
    forall w path,
      Fs.lookup path (Fs.files w) = Some (Fs.File payload) ->
      fst (Index.readEncryptionNoteFromFile path w) = Ok note.
Proof.
  apply (generated_note_read_back Scenario.fixed_random Scenario.hello
                                  Scenario.signature);
    vm_compute; reflexivity.
Defined.

(** ** The streaming variants against the buffer variants *)
Module StreamTheorems.
Import Fs Vocabulary.



End StreamTheorems.









(** ** [PrependInitializationVector] and [partialReadSync] *)

(** X10. [PrependInitializationVector] over a whole stream: when no chunk
    is written to it, it emits nothing, not even the header; when at
    least one chunk is written, empty or not, it emits the header once,
    first, then the chunks that are not empty, unchanged and in order,
    so that the output put end to end is the header followed by the
    input put end to end. *)
Theorem PrependInitializationVector_header_once (header : Buffer.t) :
  header <> [] ->
  Stream.pipe [] (FsUtils.new_PrependInitializationVector header) = Ok [] /\
  forall c cs,
    Stream.pipe (c :: cs) (FsUtils.new_PrependInitializationVector header)
    = Ok (header :: filter Stream.nonempty (c :: cs)) /\
    concat (header :: filter Stream.nonempty (c :: cs))
    = header ++ concat (c :: cs).
Proof.
  intro Hh. split; [reflexivity|]. intros c cs.
  rewrite StreamFacts.prepend_pipe. split.
  - cbn [filter]. destruct header; [congruence|reflexivity].
  - cbn [concat]. now rewrite StreamFacts.concat_filter_nonempty.
Qed.

(** A header of sixteen zero bytes. *)
Lemma PrependInitializationVector_header_once_zero :
  Stream.pipe [] (FsUtils.new_PrependInitializationVector
                    (Buffer.from_hex Scenario.zero_note)) = Ok [] /\
  forall c cs,
    Stream.pipe (c :: cs) (FsUtils.new_PrependInitializationVector
                             (Buffer.from_hex Scenario.zero_note))
    = Ok (Buffer.from_hex Scenario.zero_note
          :: filter Stream.nonempty (c :: cs)) /\
    concat (Buffer.from_hex Scenario.zero_note
            :: filter Stream.nonempty (c :: cs))
    = Buffer.from_hex Scenario.zero_note ++ concat (c :: cs).
Proof.
  apply (PrependInitializationVector_header_once
           (Buffer.from_hex Scenario.zero_note)).
  discriminate.
Defined.

Module ReadFacts.
Import Fs FsUtils.

Lemma partialReadSync_valid path start stop :
  (0 <= start)%Z -> (start < stop)%Z -> (stop - start <= 0x3fffffff)%Z ->
  partialReadSync path start stop =
  (fd <- openSync_r path ;;
   ' (_, buf') <- readSync fd (Buffer.alloc (Z.to_nat (stop - start))) 0
                           (Z.to_nat (stop - start)) start ;;
   closeSync fd ;;;
   ret buf')%io.
Proof.
  intros H0 H1 H2. unfold partialReadSync.
  assert ((start <? 0)%Z = false) as -> by (apply Z.ltb_ge; lia).
  assert ((stop <? 0)%Z = false) as -> by (apply Z.ltb_ge; lia).
  assert ((stop <? start)%Z = false) as -> by (apply Z.ltb_ge; lia).
  assert ((stop - start >? 0x3fffffff)%Z = false) as ->
      by (rewrite Z.gtb_ltb; apply Z.ltb_ge; lia).
  assert ((stop - start =? 0)%Z = false) as -> by (apply Z.eqb_neq; lia).
  reflexivity.
Qed.

Lemma partialReadSync_invalid path start stop w :
  ~ ((0 <= start)%Z /\ (start < stop)%Z /\ (stop - start <= 0x3fffffff)%Z) ->
  exists e, partialReadSync path start stop w = (Throw e, w).
Proof.
  intro H. unfold partialReadSync.
  destruct (start <? 0)%Z eqn:E1; cbn [orb]; [eexists; reflexivity|].
  destruct (stop <? 0)%Z eqn:E2; cbn [orb]; [eexists; reflexivity|].
  destruct (stop <? start)%Z eqn:E3; cbn [orb]; [eexists; reflexivity|].
  destruct (stop - start >? 0x3fffffff)%Z eqn:E4; cbn [orb];
    [eexists; reflexivity|].
  destruct (stop - start =? 0)%Z eqn:E5; [eexists; reflexivity|].
  exfalso. apply H.
  apply Z.ltb_ge in E1, E2, E3. rewrite Z.gtb_ltb in E4.
  apply Z.ltb_ge in E4. apply Z.eqb_neq in E5. lia.
Qed.

Lemma readSync_safe fd buffer offset length position :
  (position <= MAX_SAFE_INTEGER)%Z ->
  readSync fd buffer offset length position =
  (got <- pread fd length (Z.to_nat position) ;;
   let n := List.length got in
   ret (n, firstn offset buffer ++ got ++ skipn (offset + n) buffer))%io.
Proof.
  intro H. unfold readSync.
  assert ((position >? MAX_SAFE_INTEGER)%Z = false) as ->
      by (rewrite Z.gtb_ltb; apply Z.ltb_ge; lia).
  reflexivity.
Qed.

Lemma readSync_unsafe fd buffer offset length position :
  (MAX_SAFE_INTEGER < position)%Z ->
  readSync fd buffer offset length position = throw ERR_OUT_OF_RANGE.
Proof.
  intro H. unfold readSync.
  assert ((position >? MAX_SAFE_INTEGER)%Z = true) as ->
      by (rewrite Z.gtb_ltb; apply Z.ltb_lt; lia).
  reflexivity.
Qed.

End ReadFacts.

(** X11. [partialReadSync] on a regular file, for integers [start] and
    [end].  When the checks of the function pass ([0 <= start < end], a
    range of at most 0x3fffffff bytes) and [start] is a safe integer, it
    returns a buffer of exactly [end - start] bytes: the bytes of the
    file from [start], as many as there are before [end], then zeros;
    the file is opened, read once and closed, and no file changes.  When
    the checks do not pass, the empty range [start = end] included, it
    throws before the file is touched.  When they pass and [start] is
    above [Number.MAX_SAFE_INTEGER], [fs.readSync] refuses the position:
    the call throws after the file was opened, and the descriptor stays
    open. *)
Theorem partialReadSync_contract
        (path : string) (start stop : Z) (w : Fs.World)
        (content : Buffer.t) :
  Fs.lookup path (Fs.files w) = Some (Fs.File content) ->
  ((0 <= start)%Z /\ (start < stop)%Z /\ (stop - start <= 0x3fffffff)%Z /\
   (start <= Fs.MAX_SAFE_INTEGER)%Z ->
   exists buf w',
     FsUtils.partialReadSync path start stop w = (Ok buf, w') /\
     Z.of_nat (length buf) = (stop - start)%Z /\
     buf = firstn (Z.to_nat (stop - start)) (skipn (Z.to_nat start) content)
           ++ repeat x00
                (Z.to_nat (stop - start)
                 - length (firstn (Z.to_nat (stop - start))
                                  (skipn (Z.to_nat start) content))) /\
     Fs.files w' = Fs.files w /\
     Fs.fd_path (Fs.next_fd w) (Fs.fds w') = None /\
     Fs.log w'
     = Fs.log w
       ++ [Fs.EvOpen path "r" (Fs.next_fd w);
           Fs.EvRead (Fs.next_fd w) (Z.to_N (stop - start)) (Z.to_N start)
                     (N.of_nat
                        (length (firstn (Z.to_nat (stop - start))
                                        (skipn (Z.to_nat start) content))));
           Fs.EvClose (Fs.next_fd w)]) /\
  (~ ((0 <= start)%Z /\ (start < stop)%Z /\ (stop - start <= 0x3fffffff)%Z) ->
   exists e, FsUtils.partialReadSync path start stop w = (Throw e, w)) /\
  ((start < stop)%Z /\ (stop - start <= 0x3fffffff)%Z /\
   (Fs.MAX_SAFE_INTEGER < start)%Z ->
   exists w',
     FsUtils.partialReadSync path start stop w
     = (Throw ERR_OUT_OF_RANGE, w') /\
     Fs.files w' = Fs.files w /\
     Fs.fd_path (Fs.next_fd w) (Fs.fds w') = Some path /\
     Fs.log w' = Fs.log w ++ [Fs.EvOpen path "r" (Fs.next_fd w)]).
Proof.
  intro Hfile.
  split; [|split; [apply ReadFacts.partialReadSync_invalid|]].
  - intros (H0 & H1 & H2 & H3).
    rewrite ReadFacts.partialReadSync_valid by assumption.
    set (len := Z.to_nat (stop - start)). set (pos := Z.to_nat start).
    unfold Fs.bind at 1. unfold Fs.openSync_r. rewrite Hfile.
    unfold Fs.alloc_fd.
    unfold Fs.bind at 1. rewrite ReadFacts.readSync_safe by assumption.
    fold pos. unfold Fs.bind at 1.
    unfold Fs.pread. cbn [Fs.fds Fs.files Fs.next_fd Fs.log].
    rewrite FsFacts.fd_path_fresh, Hfile.
    cbn [Fs.ret skipn firstn app Nat.add].
    unfold Fs.bind, Fs.closeSync, Fs.ret.
    cbn [Fs.fds Fs.files Fs.next_fd Fs.log].
    rewrite FsFacts.fd_path_fresh. unfold Buffer.alloc.
    rewrite FsFacts.skipn_repeat.
    set (got := firstn len (skipn pos content)).
    assert (Hgot : length got <= len)
      by (subst got; rewrite length_firstn; lia).
    eexists. eexists. split; [reflexivity|].
    cbn [Fs.files Fs.fds Fs.log]. split; [|split; [|split; [|split]]].
    + rewrite length_app, repeat_length. subst len. lia.
    + reflexivity.
    + reflexivity.
    + apply FsFacts.fd_path_removed.
    + rewrite <- !app_assoc. cbn [app]. subst len pos.
      now rewrite !Z_nat_N.
  - intros (H1 & H2 & H3).
    assert (H0 : (0 <= start)%Z) by (unfold Fs.MAX_SAFE_INTEGER in H3; lia).
    rewrite ReadFacts.partialReadSync_valid by assumption.
    unfold Fs.bind at 1. unfold Fs.openSync_r. rewrite Hfile.
    unfold Fs.alloc_fd.
    unfold Fs.bind at 1. rewrite ReadFacts.readSync_unsafe by assumption.
    unfold Fs.throw. eexists. split; [reflexivity|].
    cbn [Fs.files Fs.fds Fs.log]. split; [reflexivity|].
    split; [apply FsFacts.fd_path_fresh | reflexivity].
Qed.

(** Bytes 1 and 2 of a file of three bytes, and two bytes more. *)
Lemma partialReadSync_contract_short_file :
  (((0 <= 1)%Z /\ (1 < 5)%Z /\ (5 - 1 <= 0x3fffffff)%Z /\
    (1 <= Fs.MAX_SAFE_INTEGER)%Z ->
    exists buf w',
      FsUtils.partialReadSync "short.bin" 1 5 Scenario.world = (Ok buf, w') /\
      Z.of_nat (length buf) = (5 - 1)%Z /\
      buf = firstn (Z.to_nat (5 - 1)) (skipn (Z.to_nat 1) [x01; x02; x03])
            ++ repeat x00
                 (Z.to_nat (5 - 1)
                  - length (firstn (Z.to_nat (5 - 1))
                                   (skipn (Z.to_nat 1) [x01; x02; x03]))) /\
      Fs.files w' = Fs.files Scenario.world /\
      Fs.fd_path (Fs.next_fd Scenario.world) (Fs.fds w') = None /\
      Fs.log w'
      = Fs.log Scenario.world
        ++ [Fs.EvOpen "short.bin" "r" (Fs.next_fd Scenario.world);
            Fs.EvRead (Fs.next_fd Scenario.world) (Z.to_N (5 - 1))
                      (Z.to_N 1)
                      (N.of_nat
                         (length (firstn (Z.to_nat (5 - 1))
                                         (skipn (Z.to_nat 1)
                                                [x01; x02; x03]))));
            Fs.EvClose (Fs.next_fd Scenario.world)]) /\
   (~ ((0 <= 1)%Z /\ (1 < 5)%Z /\ (5 - 1 <= 0x3fffffff)%Z) ->
    exists e,
      FsUtils.partialReadSync "short.bin" 1 5 Scenario.world
      = (Throw e, Scenario.world)) /\
   ((1 < 5)%Z /\ (5 - 1 <= 0x3fffffff)%Z /\ (Fs.MAX_SAFE_INTEGER < 1)%Z ->
    exists w',
      FsUtils.partialReadSync "short.bin" 1 5 Scenario.world
      = (Throw ERR_OUT_OF_RANGE, w') /\
      Fs.files w' = Fs.files Scenario.world /\
      Fs.fd_path (Fs.next_fd Scenario.world) (Fs.fds w')
      = Some "short.bin"%string /\
      Fs.log w'
      = Fs.log Scenario.world
        ++ [Fs.EvOpen "short.bin" "r" (Fs.next_fd Scenario.world)])).
Proof.
  apply (partialReadSync_contract "short.bin" 1 5 Scenario.world
                                  [x01; x02; x03]).
  reflexivity.
Defined.

(** ** Output names *)
Module NameFacts.
Import Fs FsUtils Vocabulary StringFacts.
Local Open Scope string_scope.

Lemma has_char_append c a b :
  has_char c (a ++ b) = has_char c a || has_char c b.
Proof.
  induction a as [|x a IH]; cbn [append has_char]; [reflexivity|].
  now rewrite IH, orb_assoc.
Qed.

Lemma lastIndexOf_none c s : has_char c s = false -> lastIndexOf c s = None.
Proof.
  induction s as [|x s IH]; cbn [has_char lastIndexOf]; [reflexivity|].
  intro H. apply orb_false_elim in H as [Hx Hs].
  now rewrite IH, Hx.
Qed.

Lemma lastIndexOf_last c a b :
  has_char c b = false ->
  lastIndexOf c (a ++ String c b) = Some (String.length a).
Proof.
  intro Hb. induction a as [|x a IH]; cbn [append lastIndexOf String.length].
  - now rewrite lastIndexOf_none, Ascii.eqb_refl.
  - now rewrite IH.
Qed.

Lemma indexOf_none c s : has_char c s = false -> indexOf c s = None.
Proof.
  induction s as [|x s IH]; cbn [has_char indexOf]; [reflexivity|].
  intro H. apply orb_false_elim in H as [Hx Hs].
  now rewrite Hx, IH.
Qed.

Lemma indexOf_first c a b :
  has_char c a = false ->
  indexOf c (a ++ String c b) = Some (String.length a).
Proof.
  induction a as [|x a IH]; cbn [append has_char indexOf String.length].
  - intros _. now rewrite Ascii.eqb_refl.
  - intro H. apply orb_false_elim in H as [Hx Ha].
    now rewrite Hx, IH.
Qed.

Lemma take_append_exact a b : JsString.take (String.length a) (a ++ b) = a.
Proof. induction a as [|x a IH]; cbn; [now destruct b|now rewrite IH]. Qed.

Lemma append_inv_head a b c : a ++ b = a ++ c -> b = c.
Proof. induction a as [|x a IH]; cbn; [auto|]. intro H. inversion H. auto. Qed.

Lemma append_inv_tail a :
  forall b c, a ++ c = b ++ c -> a = b.
Proof.
  induction a as [|x a IH]; intros [|y b] c H; cbn in H.
  - reflexivity.
  - apply (f_equal String.length) in H. cbn in H.
    rewrite length_append in H. lia.
  - apply (f_equal String.length) in H. cbn in H.
    rewrite length_append in H. lia.
  - inversion H. f_equal. eauto.
Qed.

(** The suffix lands where the source computes its index, and nothing of
    the name is lost. *)
Lemma appendToFilename_split name s :
  exists i,
    _appendToFilename name s
    = JsString.take i name ++ s ++ JsString.drop i name /\
    JsString.take i name ++ JsString.drop i name = name.
Proof.
  unfold _appendToFilename.
  destruct (indexOf_from "." name (lastIndexOf "/" name)) as [i|].
  - exists i. split; [reflexivity|apply take_drop].
  - exists (String.length name). rewrite take_all by lia.
    assert (JsString.drop (String.length name) name = "") as ->.
    { pose proof (drop_append_exact name "") as H.
      now rewrite append_nil_r in H. }
    now rewrite !append_nil_r.
Qed.

Lemma length_appendToFilename name s :
  String.length (_appendToFilename name s)
  = String.length name + String.length s.
Proof.
  destruct (appendToFilename_split name s) as (i & -> & H).
  apply (f_equal String.length) in H.
  rewrite !length_append in *. lia.
Qed.

Lemma appendToFilename_inj name s1 s2 :
  _appendToFilename name s1 = _appendToFilename name s2 -> s1 = s2.
Proof.
  unfold _appendToFilename.
  destruct (indexOf_from "." name (lastIndexOf "/" name)) as [i|]; intro H.
  - apply append_inv_head in H. now apply append_inv_tail in H.
  - now apply append_inv_head in H.
Qed.

Lemma digits_of_uint_inj d :
  forall d', digits_of_uint d = digits_of_uint d' -> d = d'.
Proof.
  induction d; intros d' H; destruct d'; cbn in H; try discriminate;
    try reflexivity; inversion H; f_equal; auto.
Qed.

Lemma number_toString_inj i j :
  number_toString i = number_toString j -> i = j.
Proof.
  unfold number_toString. intro H. apply digits_of_uint_inj in H.
  rewrite <- (DecimalNat.Unsigned.of_to i), <- (DecimalNat.Unsigned.of_to j).
  now rewrite H.
Qed.

(** Two calls of [resolveOutputFile] never try the same name. *)
Lemma candidate_inj name i j : candidate name i = candidate name j -> i = j.
Proof.
  destruct i as [|i], j as [|j]; cbn [candidate]; intro H.
  - reflexivity.
  - apply (f_equal String.length) in H.
    rewrite length_appendToFilename in H. cbn in H. lia.
  - apply (f_equal String.length) in H.
    rewrite length_appendToFilename in H. cbn in H. lia.
  - apply appendToFilename_inj in H. cbn in H. inversion H.
    now apply number_toString_inj.
Qed.

Lemma lookup_In {A} k (l : list (string * A)) :
  lookup k l <> None -> In k (map fst l).
Proof.
  induction l as [|[k' v] l IH]; cbn [lookup map fst In]; [congruence|].
  destruct (String.eqb k k') eqn:E.
  - intros _. left. apply String.eqb_eq in E. congruence.
  - intro H. right. auto.
Qed.

Lemma resolveOutputFile_step fuel name i w :
  resolveOutputFile fuel name i w
  = match lookup (candidate name i) (files w) with
    | None => (Ok (candidate name i), w)
    | Some _ =>
        match fuel with
        | O => (Throw (RangeError "Maximum call stack size exceeded"), w)
        | S fuel' => resolveOutputFile fuel' name (S i) w
        end
    end.
Proof.
  destruct fuel; cbn [resolveOutputFile]; fold (candidate name i);
    unfold bind, existsSync;
    destruct (lookup (candidate name i) (files w)); reflexivity.
Qed.

(** What a call of [resolveOutputFile] returns: the first of its
    candidates that does not exist; it only runs out of calls when all
    its candidates exist. *)
Lemma resolveOutputFile_spec fuel :
  forall name i w,
    (exists j,
        i <= j <= i + fuel /\
        resolveOutputFile fuel name i w = (Ok (candidate name j), w) /\
        lookup (candidate name j) (files w) = None /\
        forall k, i <= k < j -> lookup (candidate name k) (files w) <> None)
    \/ (resolveOutputFile fuel name i w
        = (Throw (RangeError "Maximum call stack size exceeded"), w) /\
        forall k, i <= k <= i + fuel ->
                  lookup (candidate name k) (files w) <> None).
Proof.
  induction fuel as [|fuel IH]; intros name i w;
    rewrite resolveOutputFile_step;
    destruct (lookup (candidate name i) (files w)) as [n|] eqn:E.
  - right. split; [reflexivity|].
    intros k Hk. assert (k = i) as -> by lia. congruence.
  - left. exists i. split; [lia|]. split; [reflexivity|].
    split; [assumption|]. intros k Hk. lia.
  - destruct (IH name (S i) w)
      as [(j & Hj & Hrun & Hfree & Hbefore) | [Hrun Hall]].
    + left. exists j. split; [lia|]. split; [assumption|].
      split; [assumption|].
      intros k Hk. destruct (Nat.eq_dec k i) as [->|Hne]; [congruence|].
      apply Hbefore. lia.
    + right. split; [assumption|].
      intros k Hk. destruct (Nat.eq_dec k i) as [->|Hne]; [congruence|].
      apply Hall. lia.
  - left. exists i. split; [lia|]. split; [reflexivity|].
    split; [assumption|]. intros k Hk. lia.
Qed.

Lemma NoDup_map_inj {A B} (f : A -> B) (l : list A) :
  (forall x y, f x = f y -> x = y) -> NoDup l -> NoDup (map f l).
Proof.
  intros Hf Hl. induction Hl as [|x l Hx Hl IH]; cbn [map]; constructor.
  - intro Hin. apply in_map_iff in Hin as (y & Hy & Hin).
    apply Hf in Hy. now subst.
  - assumption.
Qed.

(** With as many further calls as there are files, a free name is found. *)
Lemma candidates_not_all_taken name (l : list (string * node)) :
  ~ (forall k, 0 <= k <= 0 + length l -> lookup (candidate name k) l <> None).
Proof.
  intro Hall.
  assert (Hincl : incl (map (candidate name) (seq 0 (S (length l))))
                       (map fst l)).
  { intros x Hx. apply in_map_iff in Hx as (k & <- & Hk).
    apply in_seq in Hk. apply lookup_In, Hall. lia. }
  assert (Hnodup : NoDup (map (candidate name) (seq 0 (S (length l))))).
  { apply NoDup_map_inj; [|apply seq_NoDup].
    intros i j. apply candidate_inj. }
  pose proof (NoDup_incl_length Hnodup Hincl) as Hlen.
  rewrite !length_map, length_seq in Hlen. lia.
Qed.

End NameFacts.

(** X12. [_appendToFilename] puts the text into the base name: before the
    first dot that follows the last slash, or at the end when the base
    name has no dot.  Whatever stands before the last slash, dots
    included, is left as it is, and so is the extension. *)
Theorem appendToFilename_in_base_name (prefix stem s : string) :
  (prefix = ""%string \/ exists dir, prefix = (dir ++ "/")%string) ->
  Vocabulary.has_char "/" stem = false ->
  Vocabulary.has_char "." stem = false ->
  FsUtils._appendToFilename (prefix ++ stem) s
  = (prefix ++ stem ++ s)%string /\
  forall rest,
    Vocabulary.has_char "/" rest = false ->
    FsUtils._appendToFilename (prefix ++ stem ++ "." ++ rest) s
    = (prefix ++ stem ++ s ++ "." ++ rest)%string.
Proof.
  intros Hprefix Hslash Hdot.
  assert (Hbase : forall rest,
             Vocabulary.has_char "/" rest = false ->
             Vocabulary.has_char "/" (stem ++ String "." rest) = false).
  { intros rest Hrest. rewrite NameFacts.has_char_append, Hslash.
    cbn [Vocabulary.has_char orb]. now rewrite Hrest. }
  destruct Hprefix as [-> | [dir ->]].
  - split.
    + cbn [append]. unfold FsUtils._appendToFilename.
      rewrite NameFacts.lastIndexOf_none by assumption.
      cbn [FsUtils.indexOf_from].
      now rewrite NameFacts.indexOf_none.
    + intros rest Hrest. cbn [append]. unfold FsUtils._appendToFilename.
      rewrite NameFacts.lastIndexOf_none by auto.
      cbn [FsUtils.indexOf_from].
      rewrite NameFacts.indexOf_first by assumption.
      rewrite NameFacts.take_append_exact, StringFacts.drop_append_exact.
      reflexivity.
  - split.
    + rewrite StringFacts.append_assoc. cbn [append].
      unfold FsUtils._appendToFilename.
      rewrite NameFacts.lastIndexOf_last by assumption.
      cbn [FsUtils.indexOf_from].
      rewrite StringFacts.drop_append_exact.
      rewrite NameFacts.indexOf_none
        by (cbn [Vocabulary.has_char orb]; assumption).
      cbn [option_map]. rewrite !StringFacts.append_assoc. reflexivity.
    + intros rest Hrest. rewrite !StringFacts.append_assoc. cbn [append].
      unfold FsUtils._appendToFilename.
      rewrite NameFacts.lastIndexOf_last by auto.
      cbn [FsUtils.indexOf_from].
      rewrite StringFacts.drop_append_exact.
      change (String "/" (stem ++ String "." rest))
        with (String "/" stem ++ String "." rest)%string.
      rewrite NameFacts.indexOf_first
        by (cbn [Vocabulary.has_char orb]; assumption).
      cbn [option_map].
      replace (dir ++ String "/" stem ++ String "." rest)%string
        with ((dir ++ String "/" stem) ++ String "." rest)%string
        by (now rewrite StringFacts.append_assoc).
      replace (String.length dir + String.length (String "/" stem))
        with (String.length (dir ++ String "/" stem))
        by (now rewrite StringFacts.length_append).
      rewrite NameFacts.take_append_exact, StringFacts.drop_append_exact.
      rewrite !StringFacts.append_assoc. reflexivity.
Qed.

(** A name with dots in its directories and two extensions. *)
Lemma appendToFilename_in_base_name_tar_gz :
  FsUtils._appendToFilename ("my.files/" ++ "backup") "-dup-1"
  = ("my.files/" ++ "backup" ++ "-dup-1")%string /\
  forall rest,
    Vocabulary.has_char "/" rest = false ->
    FsUtils._appendToFilename ("my.files/" ++ "backup" ++ "." ++ rest)
                              "-dup-1"
    = ("my.files/" ++ "backup" ++ "-dup-1" ++ "." ++ rest)%string.
Proof.
  apply (appendToFilename_in_base_name "my.files/" "backup" "-dup-1").
  - right. exists "my.files"%string. reflexivity.
  - reflexivity.
  - reflexivity.
Defined.

(** X13. [resolveOutputFile], called from 0 on a plain path with room for
    [stack] nested calls.  The candidates it tries (the given name, then
    the name with
    [-dup-1], [-dup-2], ... put into it) are pairwise different.  When
    one of the first [stack + 1] candidates does not exist, it returns
    the first that does not exist, the given name itself when that is
    free; when they all exist, the recursion gets too deep and it throws
    a RangeError.  Either way the call changes nothing. *)
Theorem resolveOutputFile_first_free
        (stack : nat) (name : string) (w : Fs.World) :
  Vocabulary.plain name = true ->
  ((exists j,
       j <= stack /\
       FsUtils.resolveOutputFile stack name 0 w
       = (Ok (Vocabulary.candidate name j), w) /\
       Fs.lookup (Vocabulary.candidate name j) (Fs.files w) = None /\
       (forall k, k < j ->
                  Fs.lookup (Vocabulary.candidate name k) (Fs.files w)
                  <> None) /\
       (Fs.lookup name (Fs.files w) = None ->
        Vocabulary.candidate name j = name))
   \/ (FsUtils.resolveOutputFile stack name 0 w
       = (Throw (RangeError "Maximum call stack size exceeded"), w) /\
       forall k, k <= stack ->
                 Fs.lookup (Vocabulary.candidate name k) (Fs.files w)
                 <> None)) /\
  (forall i k, Vocabulary.candidate name i = Vocabulary.candidate name k ->
               i = k).
Proof.
  intros _. split; [|apply NameFacts.candidate_inj].
  destruct (NameFacts.resolveOutputFile_spec stack name 0 w)
    as [(j & Hj & Hrun & Hfree & Hbefore) | [Hrun Hall]].
  - left. exists j. split; [lia|]. split; [assumption|].
    split; [assumption|]. split.
    + intros k Hk. apply Hbefore. lia.
    + intro Hname. destruct j as [|j]; [reflexivity|].
      exfalso. apply (Hbefore 0); [lia|exact Hname].
  - right. split; [assumption|]. intros k Hk. apply Hall. lia.
Qed.

(** The name [hello.txt], which is taken, in the scenario. *)
Lemma resolveOutputFile_first_free_hello :
  ((exists j,
       j <= Scenario.call_stack /\
       FsUtils.resolveOutputFile Scenario.call_stack "hello.txt" 0
                                 Scenario.world
       = (Ok (Vocabulary.candidate "hello.txt" j), Scenario.world) /\
       Fs.lookup (Vocabulary.candidate "hello.txt" j)
                 (Fs.files Scenario.world) = None /\
       (forall k, k < j ->
                  Fs.lookup (Vocabulary.candidate "hello.txt" k)
                            (Fs.files Scenario.world)
                  <> None) /\
       (Fs.lookup "hello.txt" (Fs.files Scenario.world) = None ->
        Vocabulary.candidate "hello.txt" j = "hello.txt"%string))
   \/ (FsUtils.resolveOutputFile Scenario.call_stack "hello.txt" 0
                                 Scenario.world
       = (Throw (RangeError "Maximum call stack size exceeded"),
          Scenario.world) /\
       forall k, k <= Scenario.call_stack ->
                 Fs.lookup (Vocabulary.candidate "hello.txt" k)
                           (Fs.files Scenario.world)
                 <> None)) /\
  (forall i k, Vocabulary.candidate "hello.txt" i
               = Vocabulary.candidate "hello.txt" k ->
               i = k).
Proof.
  apply (resolveOutputFile_first_free Scenario.call_stack "hello.txt"
                                      Scenario.world).
  reflexivity.
Defined.

(** ** The regular expression and the default names *)
Module RegexFacts.
Import FsUtils StringFacts.
Local Open Scope string_scope.

Lemma atoms_match_split pat :
  forall s rest,
    atoms_match pat s = Some rest ->
    exists pre, s = pre ++ rest /\ String.length pre = String.length pat.
Proof.
  induction pat as [|p pat IH]; intros s rest H; cbn [atoms_match] in H.
  - inversion H. now exists "".
  - destruct s as [|c s]; [discriminate|].
    destruct (atom_matches p c); [|discriminate].
    apply IH in H as (pre & -> & Hlen).
    exists (String c pre). cbn. auto.
Qed.

Lemma all_outside_append cls a b :
  all_outside cls (a ++ b) = all_outside cls a && all_outside cls b.
Proof.
  induction a as [|x a IH]; cbn [append all_outside]; [reflexivity|].
  now rewrite IH, andb_assoc.
Qed.

Lemma suffix_keeps_last pre :
  forall rest u c,
    pre ++ rest = u ++ String c "" -> rest <> "" ->
    exists t, rest = t ++ String c "".
Proof.
  induction pre as [|x pre IH]; intros rest u c H Hne.
  - cbn in H. eauto.
  - destruct u as [|y u]; cbn in H; inversion H.
    + destruct pre; [|discriminate]. cbn in *. congruence.
    + eauto.
Qed.

(** Before the last occurrence of the extension the pattern cannot match:
    what would be left for the group ends in [d], which the class
    excludes. *)
Lemma no_match_before_extension c g :
  match_here ".eth.encrypted" (String c (g ++ ".eth.encrypted")) = None.
Proof.
  unfold match_here.
  destruct (atoms_match ".eth.encrypted"
                        (String c (g ++ ".eth.encrypted"))) as [rest|] eqn:E;
    [|reflexivity].
  apply atoms_match_split in E as (pre & Hs & Hlen).
  assert (Hne : rest <> "").
  { intros ->. apply (f_equal String.length) in Hs.
    rewrite append_nil_r in Hs. cbn [String.length] in Hs.
    rewrite length_append in Hs. cbn in Hs, Hlen. lia. }
  change (String c (g ++ ".eth.encrypted"))
    with (String c g ++ ".eth.encrypted") in Hs.
  change ".eth.encrypted" with (".eth.encrypte" ++ String "d" "") in Hs at 1.
  rewrite <- append_assoc in Hs. symmetry in Hs.
  destruct (suffix_keeps_last pre rest _ _ Hs Hne) as [t ->].
  rewrite all_outside_append. cbn. now rewrite andb_false_r.
Qed.

Lemma replaceLastOccurance_extension g :
  _replaceLastOccurance (g ++ ".eth.encrypted") ".eth.encrypted" "" = g.
Proof.
  induction g as [|c g IH]; [reflexivity|].
  cbn [append _replaceLastOccurance].
  rewrite no_match_before_extension. now rewrite IH.
Qed.

Lemma endsWith_append g ext : JsString.endsWith (g ++ ext) ext = true.
Proof.
  unfold JsString.endsWith. rewrite length_append.
  replace (String.length g + String.length ext - String.length ext)
    with (String.length g) by lia.
  rewrite drop_append_exact, String.eqb_refl.
  assert (Nat.leb (String.length ext)
                  (String.length g + String.length ext) = true) as ->
      by (apply Nat.leb_le; lia).
  reflexivity.
Qed.

End RegexFacts.

(** X14. The default output names undo each other: the name proposed for
    decrypting [name.eth.encrypted] is [name], for every [name]; a name
    without this extension gets [.eth.decrypted] appended; and any
    action other than the two gives no name. *)
Theorem generateDefaultOutputFile_round_trip (name : string) :
  FsUtils.generateDefaultOutputFile name "encrypt"
  = Some (name ++ ".eth.encrypted")%string /\
  FsUtils.generateDefaultOutputFile (name ++ ".eth.encrypted") "decrypt"
  = Some name /\
  (JsString.endsWith name ".eth.encrypted" = false ->
   FsUtils.generateDefaultOutputFile name "decrypt"
   = Some (name ++ ".eth.decrypted")%string) /\
  (forall action,
      action <> "encrypt"%string -> action <> "decrypt"%string ->
      FsUtils.generateDefaultOutputFile name action = None).
Proof.
  split; [reflexivity|]. split; [|split].
  - unfold FsUtils.generateDefaultOutputFile,
      FsUtils.generateDefaultOutputFile_decrypt.
    cbn [String.eqb Ascii.eqb Bool.eqb].
    change ("." ++ Config.FILE_EXTENSION)%string with ".eth.encrypted"%string.
    rewrite RegexFacts.endsWith_append.
    now rewrite RegexFacts.replaceLastOccurance_extension.
  - intro H. unfold FsUtils.generateDefaultOutputFile,
      FsUtils.generateDefaultOutputFile_decrypt.
    cbn [String.eqb Ascii.eqb Bool.eqb].
    change ("." ++ Config.FILE_EXTENSION)%string with ".eth.encrypted"%string.
    now rewrite H.
  - intros action H1 H2. unfold FsUtils.generateDefaultOutputFile.
    apply String.eqb_neq in H1, H2. now rewrite H1, H2.
Qed.

(** ** What a run leaves of the files that were there *)
Module FrameFacts.
Import Fs Vocabulary.

Lemma bind_inv {A B} (m : M A) (k : A -> M B) w r w' :
  bind m k w = (r, w') ->
  (exists a w1, m w = (Ok a, w1) /\ k a w1 = (r, w'))
  \/ (exists e, m w = (Throw e, w') /\ r = Throw e).
Proof.
  unfold bind. destruct (m w) as [[a|e] w1]; intro H.
  - left. eauto.
  - right. inversion H; subst. eauto.
Qed.

Lemma fd_path_remove_other fd m l :
  fd <> m -> fd_path fd (fd_remove m l) = fd_path fd l.
Proof.
  intro Hne. induction l as [|[fd' p] l IH]; [reflexivity|].
  unfold fd_remove in *. cbn [filter fst].
  destruct (Nat.eqb m fd') eqn:E; cbn [negb fd_path].
  - apply Nat.eqb_eq in E. subst fd'.
    assert (Nat.eqb fd m = false) as -> by now apply Nat.eqb_neq.
    assumption.
  - now rewrite IH.
Qed.

Lemma files_kept_but_refl path w w' :
  files w' = files w -> files_kept_but path w w'.
Proof. intros H p _. now rewrite H. Qed.

Lemma files_kept_but_trans path w1 w2 w3 :
  files_kept_but path w1 w2 -> files_kept_but path w2 w3 ->
  files_kept_but path w1 w3.
Proof. intros H1 H2 p Hp. now rewrite H2, H1. Qed.

Lemma pread_frame fd len pos w r w' :
  pread fd len pos w = (r, w') ->
  files w' = files w /\ fds w' = fds w /\ next_fd w' = next_fd w.
Proof.
  unfold pread.
  destruct (fd_path fd (fds w)) as [p|]; [|intro H; inversion H; auto].
  destruct (lookup p (files w)) as [[content|]|]; intro H; inversion H; auto.
Qed.

Lemma read_loop_frame hwm fuel :
  forall fd pos w r w',
    read_loop hwm fuel fd pos w = (r, w') ->
    files w' = files w /\ fds w' = fds w /\ next_fd w' = next_fd w.
Proof.
  induction fuel as [|fuel IH]; intros fd pos w r w' H; cbn [read_loop] in H.
  - inversion H; auto.
  - apply bind_inv in H as [(chunk & w1 & H1 & H2) | (e & H1 & _)].
    + apply pread_frame in H1 as (F1 & F2 & F3). destruct chunk.
      * inversion H2; subst; auto.
      * apply bind_inv in H2 as [(rest & w2 & H2 & H3) | (e & H2 & _)].
        -- apply IH in H2 as (G1 & G2 & G3). inversion H3; subst.
           rewrite G1, G2, G3; auto.
        -- apply IH in H2 as (G1 & G2 & G3). rewrite G1, G2, G3; auto.
    + now apply pread_frame in H1.
Qed.

Lemma closeSync_frame fd w r w' :
  closeSync fd w = (r, w') ->
  files w' = files w /\ next_fd w' = next_fd w /\
  (fds w' = fds w \/ fds w' = fd_remove fd (fds w)).
Proof.
  unfold closeSync. destruct (fd_path fd (fds w)); intro H; inversion H;
    cbn [files fds next_fd]; auto.
Qed.

Lemma autoClose_frame {A} fd (m : M A) w r w' :
  autoClose fd m w = (r, w') ->
  exists r1 w1,
    m w = (r1, w1) /\ files w' = files w1 /\ next_fd w' = next_fd w1 /\
    (fds w' = fds w1 \/ fds w' = fd_remove fd (fds w1)).
Proof.
  unfold autoClose. destruct (m w) as [[a|e] w1]; intro H;
    (eexists; exists w1; split; [reflexivity|]);
    apply bind_inv in H as [(u & w2 & H1 & H2) | (e' & H1 & _)];
    apply closeSync_frame in H1; try (inversion H2; subst); assumption.
Qed.

Lemma openSync_r_frame path w r w' :
  openSync_r path w = (r, w') ->
  (w' = w /\ exists e, r = Throw e)
  \/ (r = Ok (next_fd w) /\ files w' = files w /\
      fds w' = (next_fd w, path) :: fds w /\ next_fd w' = S (next_fd w)).
Proof.
  unfold openSync_r, alloc_fd. destruct (lookup path (files w));
    intro H; inversion H; cbn [files fds next_fd]; eauto 6.
Qed.

Lemma openSync_w_frame path w r w' :
  openSync_w path w = (r, w') ->
  (w' = w /\ exists e, r = Throw e)
  \/ (r = Ok (next_fd w) /\ files w' = store path (File []) (files w) /\
      fds w' = (next_fd w, path) :: fds w /\ next_fd w' = S (next_fd w)).
Proof.
  unfold openSync_w, alloc_fd. destruct (open_w_error path (files w));
    intro H; inversion H; cbn [files fds next_fd]; eauto 6.
Qed.

(** A read stream run to its end leaves the files as they are, and the
    descriptors handed out before pointing where they pointed. *)
Lemma read_to_end_frame rs w r w' :
  read_to_end rs w = (r, w') ->
  files w' = files w /\
  forall fd, fd < next_fd w -> fd_path fd (fds w') = fd_path fd (fds w).
Proof.
  unfold read_to_end. intro H.
  apply bind_inv in H as [(fd0 & w1 & H1 & H2) | (e & H1 & _)].
  - apply openSync_r_frame in H1 as [[_ [e He]] | (Hr & F1 & F2 & F3)];
      [discriminate|].
    inversion Hr; subst fd0.
    apply autoClose_frame in H2 as (r1 & w2 & H2 & G1 & G2 & G3).
    apply read_loop_frame in H2 as (L1 & L2 & L3).
    split; [congruence|]. intros fd Hfd.
    assert (Hhead : fd_path fd (fds w1) = fd_path fd (fds w)).
    { rewrite F2. cbn [fd_path].
      assert (Nat.eqb fd (next_fd w) = false) as ->
          by (apply Nat.eqb_neq; lia).
      reflexivity. }
    destruct G3 as [G3 | G3]; rewrite G3, ?L2.
    + assumption.
    + rewrite fd_path_remove_other by lia. assumption.
  - apply openSync_r_frame in H1 as [[-> _] | (Hr & _)]; [|discriminate].
    auto.
Qed.

Lemma readSync_frame fd buffer offset length position w r w' :
  readSync fd buffer offset length position w = (r, w') ->
  files w' = files w.
Proof.
  unfold readSync.
  destruct (_ >? _)%Z; intro H; [inversion H; reflexivity|].
  apply bind_inv in H as [(got & w1 & H1 & H2) | (e & H1 & _)].
  - apply pread_frame in H1 as (P & _). inversion H2; subst. assumption.
  - now apply pread_frame in H1.
Qed.

Lemma partialReadSync_frame path start stop w r w' :
  FsUtils.partialReadSync path start stop w = (r, w') ->
  files w' = files w.
Proof.
  unfold FsUtils.partialReadSync.
  destruct (_ || _)%bool; [intro H; inversion H; reflexivity|].
  destruct (_ =? _)%Z; [intro H; inversion H; reflexivity|].
  intro H.
  apply bind_inv in H as [(fd & w1 & H1 & H2) | (e & H1 & _)].
  - apply openSync_r_frame in H1 as [[_ [e He]] | (_ & F1 & _)];
      [discriminate|].
    apply bind_inv in H2 as [([n buf] & w2 & H2 & H3) | (e & H2 & _)].
    + apply readSync_frame in H2.
      apply bind_inv in H3 as [(u & w4 & H3 & H5) | (e & H3 & _)].
      * apply closeSync_frame in H3 as (C1 & _). inversion H5; subst w4.
        congruence.
      * apply closeSync_frame in H3 as (C1 & _). congruence.
    + apply readSync_frame in H2. congruence.
  - apply openSync_r_frame in H1 as [[-> _] | (Hr & _)]; [|discriminate].
    reflexivity.
Qed.

Lemma writeSync_frame fd path data w r w' :
  fd_path fd (fds w) = Some path ->
  writeSync fd data w = (r, w') ->
  files_kept_but path w w' /\ fds w' = fds w.
Proof.
  intro Hfd. unfold writeSync. rewrite Hfd.
  destruct (lookup path (files w)) as [[content|]|]; intro H; inversion H;
    (split; [|reflexivity]); try (now apply files_kept_but_refl).
  intros p Hp. cbn [files]. now apply FileStreamFacts.lookup_store_neq.
Qed.

Lemma write_chunks_frame fd path chunks :
  forall w r w',
    fd_path fd (fds w) = Some path ->
    write_chunks fd chunks w = (r, w') ->
    files_kept_but path w w' /\ fds w' = fds w.
Proof.
  induction chunks as [|c cs IH]; intros w r w' Hfd H; cbn [write_chunks] in H.
  - inversion H; subst. split; [now apply files_kept_but_refl | reflexivity].
  - apply bind_inv in H as [(u & w1 & H1 & H2) | (e & H1 & _)].
    + apply (writeSync_frame fd path) in H1 as [K1 F1]; [|assumption].
      apply IH in H2 as [K2 F2]; [|congruence].
      split; [eapply files_kept_but_trans; eassumption | congruence].
    + now apply (writeSync_frame fd path) in H1.
Qed.

Lemma pipe_to_file_frame fd path chunks w r w' :
  fd_path fd (fds w) = Some path ->
  pipe_to_file chunks fd w = (r, w') ->
  files_kept_but path w w'.
Proof.
  intros Hfd H. unfold pipe_to_file in H.
  apply autoClose_frame in H as (r1 & w1 & H & G1 & _).
  apply (write_chunks_frame fd path) in H as [K _]; [|assumption].
  intros p Hp. rewrite G1. now apply K.
Qed.

(** Opening the output and reading the input to its end changes no file
    but the output, when what is done with the chunks writes through the
    descriptor of the output only. *)
Lemma write_stream_frame output rs (k : nat -> Stream.queue -> M unit)
      w r w' :
  (forall fd chunks w1 r1 w2,
      fd_path fd (fds w1) = Some output ->
      k fd chunks w1 = (r1, w2) -> files_kept_but output w1 w2) ->
  (writeStream <- createWriteStream output ;;
   chunks <- read_to_end rs ;;
   k writeStream chunks)%io w = (r, w') ->
  files_kept_but output w w'.
Proof.
  intros Hk H.
  apply bind_inv in H as [(fd & w1 & H1 & H2) | (e & H1 & _)].
  - apply openSync_w_frame in H1 as [[_ [e He]] | (Hr & F1 & F2 & F3)];
      [discriminate|].
    inversion Hr; subst fd.
    assert (K1 : files_kept_but output w w1).
    { intros p Hp. rewrite F1.
      now apply FileStreamFacts.lookup_store_neq. }
    apply bind_inv in H2 as [(chunks & w2 & H2 & H3) | (e & H2 & _)].
    + apply read_to_end_frame in H2 as [R1 R2].
      assert (Hfd : fd_path (next_fd w) (fds w2) = Some output).
      { rewrite R2 by lia. rewrite F2. apply FsFacts.fd_path_fresh. }
      apply Hk in H3; [|assumption].
      eapply files_kept_but_trans; [eassumption|].
      eapply files_kept_but_trans; [|eassumption].
      now apply files_kept_but_refl.
    + apply read_to_end_frame in H2 as [R1 _].
      eapply files_kept_but_trans; [eassumption|].
      now apply files_kept_but_refl.
  - apply openSync_w_frame in H1 as [[-> _] | (Hr & _)]; [|discriminate].
    now apply files_kept_but_refl.
Qed.

Lemma lift_inv {A} (x : result A) w r w' :
  lift x w = (r, w') -> r = x /\ w' = w.
Proof. intro H. inversion H. auto. Qed.

Lemma encryptFileAsStream_frame input output note sig w r w' :
  Index.encryptFileAsStream input output note sig w = (r, w') ->
  files_kept_but output w w'.
Proof.
  unfold Index.encryptFileAsStream. intro H.
  apply bind_inv in H as [(c & w1 & H1 & H2) | (e & H1 & _)].
  - apply lift_inv in H1 as [_ ->].
    apply bind_inv in H2 as [(u & w2 & H4 & H3) | (e & H4 & _)];
      [|discriminate].
    inversion H4; subst w2. clear H4.
    eapply files_kept_but_trans;
      [|eapply write_stream_frame; [|exact H3]].
    + now apply files_kept_but_refl.
    + intros fd plain w1 r1 w2 Hfd Hk.
      apply bind_inv in Hk as [(enc & w3 & K1 & K2) | (e & K1 & _)].
      * apply lift_inv in K1 as [_ ->].
        apply bind_inv in K2 as [(framed & w3 & K2 & K3) | (e & K2 & _)].
        -- apply lift_inv in K2 as [_ ->].
           now apply (pipe_to_file_frame fd output) in K3.
        -- apply lift_inv in K2 as [_ ->]. now apply files_kept_but_refl.
      * apply lift_inv in K1 as [_ ->]. now apply files_kept_but_refl.
  - apply lift_inv in H1 as [_ ->]. now apply files_kept_but_refl.
Qed.

Lemma decryptFileAsStream_frame input output sig w r w' :
  Index.decryptFileAsStream input output sig w = (r, w') ->
  files_kept_but output w w'.
Proof.
  unfold Index.decryptFileAsStream, Index.readEncryptionNoteFromFile.
  intro H.
  apply bind_inv in H as [(note & w1 & H1 & H2) | (e & H1 & _)].
  - apply bind_inv in H1 as [(iv & w0 & H0 & H1) | (e & H0 & E)];
      [|discriminate].
    apply partialReadSync_frame in H0.
    assert (w0 = w1) as -> by (unfold ret in H1; congruence). clear H1.
    apply bind_inv in H2 as [(c & w2 & L1 & L2) | (e & L1 & _)].
    + apply lift_inv in L1 as [_ ->].
      apply bind_inv in L2 as [(u & w2 & L3 & L4) | (e & L3 & _)];
        [|discriminate].
      assert (files w2 = files w1) as Hw2
          by (unfold emit in L3; inversion L3; reflexivity).
      clear L3.
      eapply files_kept_but_trans;
        [|eapply write_stream_frame; [|exact L4]].
      * apply files_kept_but_refl. congruence.
      * intros fd enc w3 r1 w4 Hfd Hk.
        apply bind_inv in Hk as [(plain & w5 & K1 & K2) | (e & K1 & _)].
        -- apply lift_inv in K1 as [_ ->].
           now apply (pipe_to_file_frame fd output) in K2.
        -- apply lift_inv in K1 as [_ ->]. now apply files_kept_but_refl.
    + apply lift_inv in L1 as [_ ->]. now apply files_kept_but_refl.
  - apply bind_inv in H1 as [(iv & w0 & H0 & H1) | (e' & H0 & E)];
      [discriminate|].
    apply partialReadSync_frame in H0. now apply files_kept_but_refl.
Qed.

Lemma free_name_exists name w :
  exists j, lookup (candidate name j) (files w) = None.
Proof.
  destruct (NameFacts.resolveOutputFile_spec (length (files w)) name 0 w)
    as [(j & _ & _ & Hfree & _) | [_ Hall]]; [eauto|].
  exfalso. now apply (NameFacts.candidates_not_all_taken name (files w)).
Qed.

Lemma one_new_file_at_most_same w w' :
  files w' = files w -> one_new_file_at_most w w'.
Proof.
  intro H. destruct (free_name_exists "" w) as [j Hj].
  exists (candidate "" j). split; [assumption|].
  now apply files_kept_but_refl.
Qed.

(** The signer changes no file: what holds of the files before, and after
    either callback, holds after [signEncryptionNote]. *)
Lemma signEncryptionNote_frame {A} (P : World -> Prop) note provider
      (cb : string -> M A) (errorCb : option js_error -> M A) w r w' :
  P w ->
  (forall s w1 r1 w2, files w1 = files w -> cb s w1 = (r1, w2) -> P w2) ->
  (forall e w1 r1 w2,
      files w1 = files w -> errorCb e w1 = (r1, w2) -> P w2) ->
  Index.signEncryptionNote note provider cb errorCb w = (r, w') ->
  P w'.
Proof.
  intros Hw Hcb Herr. unfold Index.signEncryptionNote.
  destruct (Index.eth provider) as [e|].
  2:{ intro H. inversion H; subst. assumption. }
  intro H.
  apply bind_inv in H as [(u & w1 & H1 & H2) | (e' & H1 & _)];
    [|discriminate].
  inversion H1; subst w1. clear H1.
  destruct (Index.personal_sign e _ _) as [err [s|]].
  - destruct (JsString.truthy s);
      (apply bind_inv in H2 as [(u' & w2 & H2 & H3) | (e' & H2 & _)];
       [|discriminate]);
      inversion H2; subst w2;
      [eapply Hcb | eapply Herr]; [|exact H3| |exact H3]; reflexivity.
  - apply bind_inv in H2 as [(u' & w2 & H2 & H3) | (e' & H2 & _)];
      [|discriminate].
    inversion H2; subst w2. eapply Herr; [|exact H3]. reflexivity.
Qed.

(** Writing under the name [resolveOutputFile] returns touches no file
    that exists. *)
Lemma resolved_output_frame stack name (k : string -> M unit) w0 w r w' :
  files w = files w0 ->
  (forall output w1 r1 w2, k output w1 = (r1, w2) ->
                           files_kept_but output w1 w2) ->
  (outputFileName <- FsUtils.resolveOutputFile stack name 0 ;;
   k outputFileName)%io w = (r, w') ->
  one_new_file_at_most w0 w'.
Proof.
  intros Hw Hk H.
  apply bind_inv in H as [(output & w1 & H1 & H2) | (e & H1 & _)].
  - destruct (NameFacts.resolveOutputFile_spec stack name 0 w)
      as [(j & _ & Hrun & Hfree & _) | [Hrun _]];
      rewrite Hrun in H1; [|discriminate].
    inversion H1; subst output w1. clear H1.
    apply Hk in H2. exists (candidate name j).
    split; [now rewrite <- Hw|].
    intros p Hp. rewrite <- Hw. now apply H2.
  - pose proof (TraceFacts.resolveOutputFile_pure stack name 0 w)
      as Hpure.
    rewrite H1 in Hpure. cbn [snd] in Hpure. subst w'.
    now apply one_new_file_at_most_same.
Qed.

Lemma one_new_file_keeps_existing w w' :
  one_new_file_at_most w w' ->
  forall p, lookup p (files w) <> None ->
            lookup p (files w') = lookup p (files w).
Proof.
  intros (output & Hfree & Hkept) p Hp. apply Hkept. intros ->.
  contradiction.
Qed.

Lemma processFileEncryption_frame stack randomBytes fileName provider
      options w r w' :
  Cli.processFileEncryption stack randomBytes fileName provider options w
  = (r, w') ->
  one_new_file_at_most w w'.
Proof.
  unfold Cli.processFileEncryption.
  destruct (Index.eth provider) as [e|].
  2:{ intro H. inversion H; subst. now apply one_new_file_at_most_same. }
  apply (signEncryptionNote_frame (one_new_file_at_most w)).
  - now apply one_new_file_at_most_same.
  - intros s w1 r1 w2 Hw1 Hrun.
    eapply resolved_output_frame; [exact Hw1| |exact Hrun].
    intros output w3 r3 w4. apply encryptFileAsStream_frame.
  - intros err w1 r1 w2 Hw1 Hrun. inversion Hrun; subst.
    now apply one_new_file_at_most_same.
Qed.

Lemma processFileDecryption_frame stack fileName provider options w r w' :
  Cli.processFileDecryption stack fileName provider options w = (r, w') ->
  one_new_file_at_most w w'.
Proof.
  unfold Cli.processFileDecryption.
  destruct (Index.eth provider) as [e|].
  2:{ intro H. inversion H; subst. now apply one_new_file_at_most_same. }
  intro H.
  apply bind_inv in H as [(note & w1 & H1 & H2) | (e' & H1 & _)].
  - unfold Index.readEncryptionNoteFromFile in H1.
    apply bind_inv in H1 as [(iv & w0 & H0 & H1) | (e' & H0 & E)];
      [|discriminate].
    apply partialReadSync_frame in H0.
    assert (w0 = w1) as -> by (unfold ret in H1; congruence).
    clear H1. revert H2.
    apply (signEncryptionNote_frame (one_new_file_at_most w)).
    + now apply one_new_file_at_most_same.
    + intros s w2 r2 w3 Hw2 Hrun.
      eapply resolved_output_frame; [| |exact Hrun].
      * congruence.
      * intros output w4 r4 w5. apply decryptFileAsStream_frame.
    + intros err w2 r2 w3 Hw2 Hrun. inversion Hrun; subst.
      apply one_new_file_at_most_same. congruence.
  - unfold Index.readEncryptionNoteFromFile in H1.
    apply bind_inv in H1 as [(iv & w0 & H0 & H1) | (e'' & H0 & E)];
      [discriminate|].
    apply partialReadSync_frame in H0.
    now apply one_new_file_at_most_same.
Qed.

End FrameFacts.

(** X15. [processFileEncryption] never overwrites: whatever the signer,
    the options and the outcome, the world after the run differs from the
    world before in one file at most, and this file did not exist
    before.  The input file, and every other path that exists, names
    afterwards what it named before. *)
Theorem processFileEncryption_never_overwrites
        (stack : nat) (randomBytes : nat -> Buffer.t) (fileName : string)
        (provider : Index.Provider) (options : Cli.Options)
        (w : Fs.World) (r : result unit) (w' : Fs.World) :
  Cli.processFileEncryption stack randomBytes fileName provider options w
  = (r, w') ->
  Vocabulary.one_new_file_at_most w w' /\
  forall p, Fs.lookup p (Fs.files w) <> None ->
            Fs.lookup p (Fs.files w') = Fs.lookup p (Fs.files w).
Proof.
  intro H. apply FrameFacts.processFileEncryption_frame in H.
  split; [assumption|].
  now apply FrameFacts.one_new_file_keeps_existing.
Qed.

(** Encrypting [hello.txt] leaves the four paths of the scenario as they
    were. *)
Lemma processFileEncryption_never_overwrites_hello :
  Vocabulary.one_new_file_at_most Scenario.world
                                  (snd Scenario.encrypted_hello) /\
  forall p, Fs.lookup p (Fs.files Scenario.world) <> None ->
            Fs.lookup p (Fs.files (snd Scenario.encrypted_hello))
            = Fs.lookup p (Fs.files Scenario.world).
Proof.
  apply (processFileEncryption_never_overwrites
           Scenario.call_stack
           Scenario.fixed_random "hello.txt" Scenario.signing_provider
           Scenario.no_options Scenario.world
           (fst Scenario.encrypted_hello) (snd Scenario.encrypted_hello)).
  vm_compute; reflexivity.
Defined.

(** X16. [processFileDecryption] never overwrites either: the world after
    any run differs from the world before in one file at most, and this
    file did not exist before; the encrypted file is kept. *)
Theorem processFileDecryption_never_overwrites
        (stack : nat) (fileName : string) (provider : Index.Provider)
        (options : Cli.Options)
        (w : Fs.World) (r : result unit) (w' : Fs.World) :
  Cli.processFileDecryption stack fileName provider options w = (r, w') ->
  Vocabulary.one_new_file_at_most w w' /\
  forall p, Fs.lookup p (Fs.files w) <> None ->
            Fs.lookup p (Fs.files w') = Fs.lookup p (Fs.files w).
Proof.
  intro H. apply FrameFacts.processFileDecryption_frame in H.
  split; [assumption|].
  now apply FrameFacts.one_new_file_keeps_existing.
Qed.

(** Decrypting the encrypted [hello.txt] leaves the five paths there are
    as they were. *)
Lemma processFileDecryption_never_overwrites_hello :
  Vocabulary.one_new_file_at_most (snd Scenario.encrypted_hello)
                                  (snd Runs.decrypted_hello) /\
  forall p, Fs.lookup p (Fs.files (snd Scenario.encrypted_hello)) <> None ->
            Fs.lookup p (Fs.files (snd Runs.decrypted_hello))
            = Fs.lookup p (Fs.files (snd Scenario.encrypted_hello)).
Proof.
  apply (processFileDecryption_never_overwrites
           Scenario.call_stack
           "hello.txt.eth.encrypted" Scenario.signing_provider
           Scenario.no_options (snd Scenario.encrypted_hello)
           (fst Runs.decrypted_hello) (snd Runs.decrypted_hello)).
  vm_compute; reflexivity.
Defined.

(** ** The command line, there and back *)
Module CliFacts.
Import Fs Vocabulary.









End CliFacts.



(** ** [processAction] *)

(** X18. Without a private key [processAction] leaves the world as it
    is.  It prints a message and returns, or it raises a TypeError; and
    it does raise whenever the file exists, [--rpc-url] is given and the
    action is one of the two: the provider made for [--rpc-url] is the
    empty object, and both actions begin by reading
    [provider.eth.defaultAccount].  No signature is requested and no file
    is opened. *)
Theorem processAction_without_private_key
        (stack : nat) (randomBytes : nat -> Buffer.t)
        (newWeb3 : string -> result Index.Provider)
        (actionType : string) (options : Cli.ActionOptions)
        (w : Fs.World) (r : result unit) (w' : Fs.World) :
  Cli.given (Cli.opt_private_key options) = false ->
  Cli.processAction stack randomBytes newWeb3 actionType options w
  = (r, w') ->
  w' = w /\
  (r = Ok tt
   \/ r = Throw (TypeError "Cannot read property 'defaultAccount'")) /\
  forall fileName,
    Cli.opt_fileName options = Some fileName ->
    JsString.truthy fileName = true ->
    Fs.lookup fileName (Fs.files w) <> None ->
    Cli.given (Cli.opt_rpc_url options) = true ->
    actionType = "encrypt"%string \/ actionType = "decrypt"%string ->
    r = Throw (TypeError "Cannot read property 'defaultAccount'").
Proof.
  intros Hpk. unfold Cli.processAction.
  assert (Hprov :
            match Cli.opt_private_key options with
            | Some pk =>
                if JsString.truthy pk
                then Fs.lift (newWeb3 (JsString.replace "0x" "" pk))
                else if Cli.given (Cli.opt_rpc_url options)
                     then Fs.ret (Index.mkProvider None)
                     else Fs.throw (TypeError "Cannot read property 'eth'")
            | None =>
                if Cli.given (Cli.opt_rpc_url options)
                then Fs.ret (Index.mkProvider None)
                else Fs.throw (TypeError "Cannot read property 'eth'")
            end
            = if Cli.given (Cli.opt_rpc_url options)
              then Fs.ret (Index.mkProvider None)
              else Fs.throw (TypeError "Cannot read property 'eth'")).
  { destruct (Cli.opt_private_key options) as [pk|]; [|reflexivity].
    cbn [Cli.given] in Hpk. now rewrite Hpk. }
  rewrite Hprov, Hpk. clear Hprov. cbn [negb andb].
  destruct (Cli.opt_fileName options) as [f|].
  2:{ intro H. inversion H; subst. split; [reflexivity|].
      split; [now left|]. intros; discriminate. }
  destruct (JsString.truthy f) eqn:Hf; cbn [negb].
  2:{ intro H. inversion H; subst. split; [reflexivity|].
      split; [now left|]. intros f' E. inversion E; subst. congruence. }
  unfold Fs.bind at 1, Fs.existsSync.
  destruct (Fs.lookup f (Fs.files w)) eqn:Hlook; cbn [negb].
  2:{ intro H. inversion H; subst. split; [reflexivity|].
      split; [now left|]. intros f' E _ Hex. inversion E; subst.
      congruence. }
  destruct (Cli.given (Cli.opt_rpc_url options)).
  2:{ intro H. inversion H; subst. split; [reflexivity|].
      split; [now left|]. intros; discriminate. }
  unfold Fs.bind, Fs.ret, Cli.processFileEncryption,
    Cli.processFileDecryption. cbn [Index.eth].
  destruct (String.eqb actionType "encrypt") eqn:E1.
  { intro H. inversion H; subst. auto. }
  destruct (String.eqb actionType "decrypt") eqn:E2.
  { intro H. inversion H; subst. auto. }
  intro H. inversion H; subst. split; [reflexivity|].
  split; [now left|]. intros f' _ _ _ _ [-> | ->]; discriminate.
Qed.

(** [encrypt hello.txt --rpc-url http://localhost:8545]. *)
Lemma processAction_without_private_key_rpc_url :
  snd Runs.rpc_url_run = Scenario.world /\
  (fst Runs.rpc_url_run = Ok tt
   \/ fst Runs.rpc_url_run
      = Throw (TypeError "Cannot read property 'defaultAccount'")) /\
  forall fileName,
    Cli.opt_fileName Runs.with_rpc_url = Some fileName ->
    JsString.truthy fileName = true ->
    Fs.lookup fileName (Fs.files Scenario.world) <> None ->
    Cli.given (Cli.opt_rpc_url Runs.with_rpc_url) = true ->
    "encrypt"%string = "encrypt"%string
    \/ "encrypt"%string = "decrypt"%string ->
    fst Runs.rpc_url_run
    = Throw (TypeError "Cannot read property 'defaultAccount'").
Proof.
  apply (processAction_without_private_key
           Scenario.call_stack Scenario.fixed_random Runs.wallet "encrypt" Runs.with_rpc_url
           Scenario.world (fst Runs.rpc_url_run) (snd Runs.rpc_url_run)).
  - reflexivity.
  - vm_compute; reflexivity.
Defined.

(** X19. [processAction] never overwrites: whatever the options, the
    wallet and the outcome, the world after the run differs from the
    world before in one file at most, and this file did not exist
    before. *)
Theorem processAction_never_overwrites
        (stack : nat) (randomBytes : nat -> Buffer.t)
        (newWeb3 : string -> result Index.Provider)
        (actionType : string) (options : Cli.ActionOptions)
        (w : Fs.World) (r : result unit) (w' : Fs.World) :
  Cli.processAction stack randomBytes newWeb3 actionType options w
  = (r, w') ->
  Vocabulary.one_new_file_at_most w w' /\
  forall p, Fs.lookup p (Fs.files w) <> None ->
            Fs.lookup p (Fs.files w') = Fs.lookup p (Fs.files w).
Proof.
  intro H.
  assert (Hone : Vocabulary.one_new_file_at_most w w').
  { revert H. unfold Cli.processAction.
    assert (Hsame : forall (r0 : result unit) w0,
               (r0, w) = (r, w0) -> Vocabulary.one_new_file_at_most w w0)
      by (intros r0 w0 E; inversion E; subst;
          now apply FrameFacts.one_new_file_at_most_same).
    destruct (Cli.opt_fileName options) as [f|]; [|apply Hsame].
    destruct (JsString.truthy f); cbn [negb]; [|apply Hsame].
    unfold Fs.bind at 1, Fs.existsSync.
    destruct (Fs.lookup f (Fs.files w)); cbn [negb]; [|apply Hsame].
    destruct (_ && _)%bool; [apply Hsame|].
    destruct (_ && _)%bool; [apply Hsame|].
    intro H.
    apply FrameFacts.bind_inv in H
      as [(provider & w1 & H1 & H2) | (e & H1 & _)].
    - assert (w1 = w) as ->.
      { destruct (Cli.opt_private_key options) as [pk|];
          [destruct (JsString.truthy pk)|];
          try destruct (Cli.given (Cli.opt_rpc_url options));
          inversion H1; reflexivity. }
      destruct (String.eqb actionType "encrypt").
      + eapply FrameFacts.processFileEncryption_frame; eassumption.
      + destruct (String.eqb actionType "decrypt").
        * eapply FrameFacts.processFileDecryption_frame; eassumption.
        * now apply (Hsame (Ok tt)).
    - assert (w' = w) as ->.
      { destruct (Cli.opt_private_key options) as [pk|];
          [destruct (JsString.truthy pk)|];
          try destruct (Cli.given (Cli.opt_rpc_url options));
          inversion H1; reflexivity. }
      now apply FrameFacts.one_new_file_at_most_same. }
  split; [assumption|].
  now apply FrameFacts.one_new_file_keeps_existing.
Qed.

(** [encrypt hello.txt --private-key 0x01]. *)
Lemma processAction_never_overwrites_private_key :
  Vocabulary.one_new_file_at_most Scenario.world
                                  (snd Runs.private_key_run) /\
  forall p, Fs.lookup p (Fs.files Scenario.world) <> None ->
            Fs.lookup p (Fs.files (snd Runs.private_key_run))
            = Fs.lookup p (Fs.files Scenario.world).
Proof.
  apply (processAction_never_overwrites
           Scenario.call_stack Scenario.fixed_random Runs.wallet "encrypt" Runs.with_private_key
           Scenario.world
           (fst Runs.private_key_run) (snd Runs.private_key_run)).
  vm_compute; reflexivity.
Defined.

(** ** The order of a decryption *)
Module OrderFacts.
Import Fs Trace.

(** [decryptFileAsStream] on a regular file first reads the note, sixteen
    bytes at offset 0; then it stops, or creates the decipher. *)
Lemma decryptFileAsStream_log input output sig w r w' content :
  lookup input (files w) = Some (File content) ->
  Index.decryptFileAsStream input output sig w = (r, w') ->
  exists rest,
    log w' = log w
             ++ [EvOpen input "r" (next_fd w);
                 EvRead (next_fd w) 16 0
                        (N.of_nat (length (firstn 16 content)));
                 EvClose (next_fd w)]
             ++ rest /\
    (rest = [] \/ exists t, rest = EvCipherCreated :: t).
Proof.
  intros Hin. unfold Index.decryptFileAsStream,
    Index.readEncryptionNoteFromFile.
  change Config.ENCRYPTION_IV_SIZE with 16%Z.
  unfold bind at 1. unfold bind at 1.
  rewrite (FsFacts.partialReadSync_file w input content Hin).
  cbn [ret].
  set (w1 := mkWorld _ _ _ _).
  unfold bind at 1, lift at 1.
  destruct (Index._createDecipher _ sig) as [c|e].
  - unfold bind at 1, emit at 1.
    set (w2 := mkWorld _ _ _ _). intro H.
    assert (Happ : exists new, log w' = log w2 ++ new).
    { revert H.
      apply TraceFacts.appends_bind; [apply TraceFacts.appends_openSync_w|].
      intro fd.
      apply TraceFacts.appends_bind; [apply TraceFacts.appends_read_to_end|].
      intro encrypted.
      apply TraceFacts.appends_bind; [apply TraceFacts.appends_lift|].
      intro plain. apply TraceFacts.appends_pipe_to_file. }
    destruct Happ as [new Happ]. exists (EvCipherCreated :: new).
    split; [|right; eauto].
    rewrite Happ. subst w2 w1. cbn [log]. now rewrite <- !app_assoc.
  - intro H. inversion H; subst. exists []. split; [|now left].
    subst w1. cbn [log]. now rewrite app_nil_r.
Qed.

End OrderFacts.

(** X20. [processFileDecryption] on a regular file, with a provider that
    has an account: the run begins with one read of sixteen bytes at
    offset 0 of the file, and then asks the signer to sign the message
    made of the fixed text and the note these bytes give, zero bytes
    standing for the bytes a shorter file lacks.  In what follows, a
    decipher is created only after the signature has been obtained, and
    a file is opened for writing, or written, only after the decipher
    has been created. *)
Theorem decryption_steps_ordered
        (stack : nat) (fileName : string) (provider : Index.Provider)
        (options : Cli.Options) (e : Index.Eth) (content : Buffer.t)
        (w : Fs.World) (r : result unit) (w' : Fs.World) :
  Fs.lookup fileName (Fs.files w) = Some (Fs.File content) ->
  Index.eth provider = Some e ->
  Cli.processFileDecryption stack fileName provider options w = (r, w') ->
  exists rest,
    Fs.log w'
    = Fs.log w
      ++ [Fs.EvOpen fileName "r" (Fs.next_fd w);
          Fs.EvRead (Fs.next_fd w) 16 0
                    (N.of_nat (length (firstn 16 content)));
          Fs.EvClose (Fs.next_fd w);
          Fs.EvSignRequest
            (Config.ETH_ENCRYPT_MESSAGE
             ++ Buffer.toString_hex
                  (firstn 16 content ++ repeat x00 (16 - length content)))
            (Index.defaultAccount e)]
      ++ rest /\
    Trace.preceded_by Trace.is_signed Trace.is_cipher rest /\
    Trace.preceded_by Trace.is_cipher Trace.is_output rest.
Proof.
  intros Hin Heth. unfold Cli.processFileDecryption. rewrite Heth.
  unfold Index.readEncryptionNoteFromFile.
  change Config.ENCRYPTION_IV_SIZE with 16%Z.
  unfold Fs.bind at 1. unfold Fs.bind at 1.
  rewrite (FsFacts.partialReadSync_file w fileName content Hin).
  rewrite length_firstn.
  replace (16 - Nat.min 16 (length content)) with (16 - length content)
    by lia.
  cbn [Fs.ret].
  set (note := Buffer.toString_hex _).
  set (w1 := Fs.mkWorld _ _ _ _).
  unfold Index.signEncryptionNote. rewrite Heth.
  set (msg := (Config.ETH_ENCRYPT_MESSAGE ++ note)%string).
  unfold Fs.bind at 1, Fs.emit at 1.
  set (w2 := Fs.mkWorld _ _ _ _).
  assert (Hlog2 : Fs.log w2
                  = Fs.log w
                    ++ [Fs.EvOpen fileName "r" (Fs.next_fd w);
                        Fs.EvRead (Fs.next_fd w) 16 0
                                  (N.of_nat (Nat.min 16 (length content)));
                        Fs.EvClose (Fs.next_fd w);
                        Fs.EvSignRequest msg (Index.defaultAccount e)]).
  { subst w2 w1. cbn [Fs.log]. now rewrite <- app_assoc. }
  assert (Hfail : forall err,
             Fs.bind (Fs.emit Fs.EvSignFailed)
               (fun _ => Cli.handleRuntimeError err options) w2 = (r, w') ->
             exists rest,
               Fs.log w' = Fs.log w2 ++ rest /\
               Trace.preceded_by Trace.is_signed Trace.is_cipher rest /\
               Trace.preceded_by Trace.is_cipher Trace.is_output rest).
  { intros err H. inversion H; subst; clear H. exists [Fs.EvSignFailed].
    split; [reflexivity|].
    split; apply TraceFacts.preceded_by_none; intros e0 [<-|[]];
      reflexivity. }
  assert (Hend : (exists rest,
                     Fs.log w' = Fs.log w2 ++ rest /\
                     Trace.preceded_by Trace.is_signed Trace.is_cipher rest /\
                     Trace.preceded_by Trace.is_cipher Trace.is_output rest)
                 -> exists rest,
             Fs.log w'
             = Fs.log w
               ++ [Fs.EvOpen fileName "r" (Fs.next_fd w);
                   Fs.EvRead (Fs.next_fd w) 16 0
                             (N.of_nat (Nat.min 16 (length content)));
                   Fs.EvClose (Fs.next_fd w);
                   Fs.EvSignRequest msg (Index.defaultAccount e)]
               ++ rest /\
             Trace.preceded_by Trace.is_signed Trace.is_cipher rest /\
             Trace.preceded_by Trace.is_cipher Trace.is_output rest).
  { intros (rest & Hl & H1 & H2). exists rest.
    rewrite Hl, Hlog2, <- app_assoc. auto. }
  destruct (Index.personal_sign e msg (Index.defaultAccount e))
    as [err [s|]]; [|intro H; apply Hend; eapply Hfail; exact H].
  destruct (JsString.truthy s);
    [|intro H; apply Hend; eapply Hfail; exact H].
  clear Hfail. intro H. apply Hend. clear Hend Hlog2. revert H.
  unfold Fs.bind at 1, Fs.emit at 1.
  set (w3 := Fs.mkWorld _ _ _ _).
  set (name := match Cli.output options with
               | Some o =>
                   if JsString.truthy o then o
                   else FsUtils.generateDefaultOutputFile_decrypt fileName
               | None => FsUtils.generateDefaultOutputFile_decrypt fileName
               end).
  unfold Fs.bind at 1.
  pose proof (TraceFacts.resolveOutputFile_pure stack name 0 w3) as Hpure.
  destruct (FsUtils.resolveOutputFile stack name 0 w3) as [[name'|e0] w4].
  all: cbn [snd] in Hpure; subst w4; intro H.
  - apply (OrderFacts.decryptFileAsStream_log _ _ _ _ _ _ content) in H;
      [|exact Hin].
    destruct H as (rest & Hlog & Hrest).
    exists ([Fs.EvSigned s;
             Fs.EvOpen fileName "r" (Fs.next_fd w3);
             Fs.EvRead (Fs.next_fd w3) 16 0
                       (N.of_nat (length (firstn 16 content)));
             Fs.EvClose (Fs.next_fd w3)] ++ rest).
    split.
    { rewrite Hlog. subst w3. cbn [Fs.log]. now rewrite <- !app_assoc. }
    split.
    + apply TraceFacts.preceded_by_prefix.
      * intros e1 [<-|[<-|[<-|[<-|[]]]]]; reflexivity.
      * exists (Fs.EvSigned s). split; [now left | reflexivity].
    + destruct Hrest as [-> | [t ->]].
      * apply TraceFacts.preceded_by_none. rewrite app_nil_r.
        intros e1 [<-|[<-|[<-|[<-|[]]]]]; reflexivity.
      * change ([Fs.EvSigned s;
                 Fs.EvOpen fileName "r" (Fs.next_fd w3);
                 Fs.EvRead (Fs.next_fd w3) 16 0
                           (N.of_nat (length (firstn 16 content)));
                 Fs.EvClose (Fs.next_fd w3)] ++ Fs.EvCipherCreated :: t)
          with ([Fs.EvSigned s;
                 Fs.EvOpen fileName "r" (Fs.next_fd w3);
                 Fs.EvRead (Fs.next_fd w3) 16 0
                           (N.of_nat (length (firstn 16 content)));
                 Fs.EvClose (Fs.next_fd w3); Fs.EvCipherCreated] ++ t).
        apply TraceFacts.preceded_by_prefix.
        -- intros e1 [<-|[<-|[<-|[<-|[<-|[]]]]]]; reflexivity.
        -- exists Fs.EvCipherCreated.
           split; [cbn; auto 6 | reflexivity].
  - inversion H; subst. exists [Fs.EvSigned s].
    split; [reflexivity|].
    split.
    + apply TraceFacts.preceded_by_none. intros e1 [<-|[]]; reflexivity.
    + apply TraceFacts.preceded_by_none. intros e1 [<-|[]]; reflexivity.
Qed.

(** The decryption of the encrypted [hello.txt]. *)
Lemma decryption_steps_ordered_hello :
  exists rest,
    Fs.log (snd Runs.decrypted_hello)
    = Fs.log (snd Scenario.encrypted_hello)
      ++ [Fs.EvOpen "hello.txt.eth.encrypted" "r"
                    (Fs.next_fd (snd Scenario.encrypted_hello));
          Fs.EvRead (Fs.next_fd (snd Scenario.encrypted_hello)) 16 0
                    (N.of_nat (length (firstn 16 Scenario.hello_payload)));
          Fs.EvClose (Fs.next_fd (snd Scenario.encrypted_hello));
          Fs.EvSignRequest
            (Config.ETH_ENCRYPT_MESSAGE
             ++ Buffer.toString_hex
                  (firstn 16 Scenario.hello_payload
                   ++ repeat x00 (16 - length Scenario.hello_payload)))
            (Index.defaultAccount
               (Index.mkEth "0xabc"
                            (fun _ _ => (None, Some Scenario.signature))))]
      ++ rest /\
    Trace.preceded_by Trace.is_signed Trace.is_cipher rest /\
    Trace.preceded_by Trace.is_cipher Trace.is_output rest.
Proof.
  apply (decryption_steps_ordered
           Scenario.call_stack
           "hello.txt.eth.encrypted" Scenario.signing_provider
           Scenario.no_options
           (Index.mkEth "0xabc" (fun _ _ => (None, Some Scenario.signature)))
           Scenario.hello_payload (snd Scenario.encrypted_hello)
           (fst Runs.decrypted_hello) (snd Runs.decrypted_hello)).
  - vm_compute; reflexivity.
  - reflexivity.
  - vm_compute; reflexivity.
Defined.
